(** * glazok: centroid tracker, line-crossing counter and session flushes

    A shallow embedding of the counting engine of [main.py] (class
    [CentroidTracker], [run_stream_directional], [run_stream_unique],
    [launch_analysis_and_flask]), of its line settings prompt
    ([choose_line_options_setting]), of the upsert of [db.py] and of the
    stream overview of [webapp.py] ([index]), followed by the properties of
    the engine.

    Conventions of the embedding.
    - Python integers are [Z]; list and matrix indices are [nat].
    - A Python [dict] keeps insertion order, and [update] reads that order
      through [list(self.objects.keys())]; a dict is therefore an
      association list: assignment to a present key rewrites the entry in
      place, assignment to an absent key appends, [del] of an absent key
      raises [KeyError].
    - A raised exception inside the tracker is [None].
    - [scipy.spatial.distance.cdist] yields Euclidean distances.  Centroids
      are integer pixels, so the squared distance is an exact integer and the
      square root is strictly monotone on it: [min], [argmin] and [argsort]
      over the distances are taken over the squared distances.
    - [numpy.argsort] is modelled as a stable sort (ties keep row order) and
      the iteration of the small integer sets [unusedRows], [unusedCols] as
      ascending.
    - A Python [float] is the rational it denotes, and an operation on
      floats rounds its exact result to binary64: to 53 significant bits,
      to the nearest with ties to even.  Exponents are not bounded: a frame
      dimension times a relative position is far below the overflow
      threshold of binary64, and a product so small that binary64 would
      round it as a subnormal truncates to 0 either way. *)

From Stdlib Require Import Strings.String.
From Stdlib Require Import ZArith List Bool Lia.
From Stdlib Require Import Sorting.Permutation Sorting.Sorted.
From Stdlib Require Import QArith Qround.
From Stdlib Require Import Reals Lra.
Import ListNotations.

#[local] Open Scope Z_scope.

(** ** Error monad for raised exceptions *)

Definition bind {A B : Type} (m : option A) (f : A -> option B) : option B :=
  match m with
  | Some a => f a
  | None => None
  end.

Notation "x <- m ;; k" := (bind m (fun x => k))
  (at level 61, m at next level, right associativity).

Fixpoint foldM {A S : Type} (f : S -> A -> option S) (l : list A) (s : S)
  : option S :=
  match l with
  | [] => Some s
  | a :: l' => s' <- f s a ;; foldM f l' s'
  end.

(** ** Python dictionaries with integer keys *)

Section Dict.
Context {V : Type}.

Definition dict := list (Z * V).

Definition keys (d : dict) : list Z := map fst d.
Definition values (d : dict) : list V := map snd d.

Fixpoint dict_get (k : Z) (d : dict) : option V :=
  match d with
  | [] => None
  | (k', v) :: d' => if k =? k' then Some v else dict_get k d'
  end.

Definition dict_mem (k : Z) (d : dict) : bool :=
  match dict_get k d with
  | Some _ => true
  | None => false
  end.

(** [d[k] = v] *)
Fixpoint dict_set (k : Z) (v : V) (d : dict) : dict :=
  match d with
  | [] => [(k, v)]
  | (k', v') :: d' =>
      if k =? k' then (k, v) :: d' else (k', v') :: dict_set k v d'
  end.

(** [del d[k]] *)
Fixpoint dict_del (k : Z) (d : dict) : option dict :=
  match d with
  | [] => None
  | (k', v') :: d' =>
      if k =? k' then Some d'
      else d'' <- dict_del k d' ;; Some ((k', v') :: d'')
  end.
End Dict.

Arguments dict V : clear implicits.

(** The keys left by [del]: the first occurrence goes. *)
Fixpoint remove_first (k : Z) (l : list Z) : list Z :=
  match l with
  | [] => []
  | k' :: l' => if k =? k' then l' else k' :: remove_first k l'
  end.

(** ** The tracker *)

Definition Centroid : Type := Z * Z.

(** The fields of [CentroidTracker], and one ghost field: [registered] is the
    history of the keys written by [register], oldest first.  No operation
    reads it. *)
Record CentroidTracker : Type := mkTracker {
  nextObjectID : Z;
  objects : dict Centroid;
  disappeared : dict Z;
  previousCentroids : dict Centroid;
  counted : dict bool;
  maxDisappeared : Z;
  registered : list Z
}.

(** [CentroidTracker.__init__] *)
Definition new_tracker (maxDisappeared : Z) : CentroidTracker :=
  mkTracker 0 [] [] [] [] maxDisappeared [].

(** [CentroidTracker.register] *)
Definition register (centroid : Centroid) (t : CentroidTracker)
  : CentroidTracker :=
  let objectID := nextObjectID t in
  mkTracker (objectID + 1)
            (dict_set objectID centroid (objects t))
            (dict_set objectID 0 (disappeared t))
            (dict_set objectID centroid (previousCentroids t))
            (dict_set objectID false (counted t))
            (maxDisappeared t)
            (registered t ++ [objectID]).

(** [CentroidTracker.deregister] *)
Definition deregister (objectID : Z) (t : CentroidTracker)
  : option CentroidTracker :=
  if dict_mem objectID (objects t) then
    o <- dict_del objectID (objects t) ;;
    d <- dict_del objectID (disappeared t) ;;
    p <- dict_del objectID (previousCentroids t) ;;
    c <- dict_del objectID (counted t) ;;
    Some (mkTracker (nextObjectID t) o d p c (maxDisappeared t) (registered t))
  else Some t.

(** The body shared by the two ageing loops of [update]:
    [self.disappeared[objectID] += 1], then [deregister] past the tolerance. *)
Definition mark_disappeared (t : CentroidTracker) (objectID : Z)
  : option CentroidTracker :=
  n <- dict_get objectID (disappeared t) ;;
  let t' := mkTracker (nextObjectID t) (objects t)
                      (dict_set objectID (n + 1) (disappeared t))
                      (previousCentroids t) (counted t)
                      (maxDisappeared t) (registered t) in
  if n + 1 >? maxDisappeared t then deregister objectID t' else Some t'.

(** Squared Euclidean distance, and the matrix of [cdist]: one row per
    tracked object, one column per input centroid. *)
Definition sqdist (a b : Centroid) : Z :=
  (fst a - fst b) * (fst a - fst b) + (snd a - snd b) * (snd a - snd b).

Definition cdist (A B : list Centroid) : list (list Z) :=
  map (fun a => map (sqdist a) B) A.

(** [min] of a row; [update] never takes it of an empty row. *)
Definition list_min (l : list Z) : Z :=
  match l with
  | [] => 0
  | x :: l' => fold_left Z.min l' x
  end.

(** [argmin] of a row: the first index of the least entry; [update] never
    takes it of an empty row. *)
Fixpoint argmin_from (best_i : nat) (best : Z) (i : nat) (l : list Z) : nat :=
  match l with
  | [] => best_i
  | x :: l' =>
      if x <? best then argmin_from i x (S i) l'
      else argmin_from best_i best (S i) l'
  end.

Definition argmin (l : list Z) : nat :=
  match l with
  | [] => 0%nat
  | x :: l' => argmin_from 0%nat x 1%nat l'
  end.

(** [argsort]: the indices ordered by ascending key, ties in index order. *)
Fixpoint insert_index (ks : list Z) (i : nat) (l : list nat) : list nat :=
  match l with
  | [] => [i]
  | j :: l' =>
      if nth j ks 0 <=? nth i ks 0 then j :: insert_index ks i l'
      else i :: j :: l'
  end.

Definition argsort (ks : list Z) : list nat :=
  fold_left (fun acc i => insert_index ks i acc) (seq 0 (length ks)) [].

Definition mem_nat (n : nat) (s : list nat) : bool := existsb (Nat.eqb n) s.

(** State of the matching loop: [usedRows], [usedCols] and the tracker. *)
Record MatchState : Type := mkMatch {
  usedRows : list nat;
  usedCols : list nat;
  tracker : CentroidTracker
}.

(** One iteration of [for (row, col) in zip(rows, cols)]. *)
Definition match_step (objectIDs : list Z) (inputCentroids : list Centroid)
    (st : MatchState) (rc : nat * nat) : option MatchState :=
  let (row, col) := rc in
  if mem_nat row (usedRows st) || mem_nat col (usedCols st) then Some st
  else
    let t := tracker st in
    objectID <- nth_error objectIDs row ;;
    cur <- dict_get objectID (objects t) ;;
    inp <- nth_error inputCentroids col ;;
    Some (mkMatch (row :: usedRows st) (col :: usedCols st)
            (mkTracker (nextObjectID t)
               (dict_set objectID inp (objects t))
               (dict_set objectID 0 (disappeared t))
               (dict_set objectID cur (previousCentroids t))
               (counted t) (maxDisappeared t) (registered t))).

Definition unused (used : list nat) (n : nat) : list nat :=
  filter (fun i => negb (mem_nat i used)) (seq 0 n).

(** The row order and the column chosen for each row. *)
Definition match_rows (D : list (list Z)) : list nat :=
  argsort (map list_min D).

Definition match_cols (D : list (list Z)) (rows : list nat) : list nat :=
  map (fun r => argmin (nth r D [])) rows.

(** [CentroidTracker.update]; the returned mapping is [objects] of the
    resulting tracker. *)
Definition update (inputCentroids : list Centroid) (t : CentroidTracker)
  : option CentroidTracker :=
  match inputCentroids with
  | [] => foldM mark_disappeared (keys (disappeared t)) t
  | _ :: _ =>
      match objects t with
      | [] => Some (fold_left (fun t c => register c t) inputCentroids t)
      | _ :: _ =>
          let objectIDs := keys (objects t) in
          let objectCentroids := values (objects t) in
          let D := cdist objectCentroids inputCentroids in
          let rows := match_rows D in
          let cols := match_cols D rows in
          st <- foldM (match_step objectIDs inputCentroids)
                      (combine rows cols) (mkMatch [] [] t) ;;
          let unusedRows := unused (usedRows st) (length D) in
          t2 <- foldM (fun t row =>
                         objectID <- nth_error objectIDs row ;;
                         mark_disappeared t objectID)
                      unusedRows (tracker st) ;;
          let unusedCols := unused (usedCols st) (length inputCentroids) in
          foldM (fun t col =>
                   c <- nth_error inputCentroids col ;;
                   Some (register c t))
                unusedCols t2
      end
  end.

(** ** Counting line and crossing decision ([run_stream_directional]) *)

Inductive Orientation : Type :=
  | Horizontal
  | Vertical
  | Diagonal
  | OtherOrientation. (* any other string: the [else] branches *)

Inductive DirectionMode : Type :=
  | Diag1
  | OtherMode. (* any string but "diag1" *)

Inductive CountingAlgorithm : Type :=
  | Threshold
  | Standard. (* any string but "threshold" *)

Record LineOptions : Type := mkLine {
  orientation : Orientation;
  position : Q;
  direction_mode : DirectionMode
}.

(** Python's [int(x)] on a number: truncation toward zero. *)
Definition py_int (x : Q) : Z := Z.quot (Qnum x) (Z.pos (Qden x)).

(** *** The product [H * position] in binary64

    [position] is a Python [float], an IEEE 754 binary64 number, held here
    as the rational it denotes.  [H * position] converts the integer [H] to
    binary64 and multiplies; both steps round to the nearest binary64
    number, ties to even.  The result is computed from the exact value by
    rounding to 53 significant bits. *)

(** [N / D] rounded to the nearest integer, ties to the even one; [D] is
    positive. *)
Definition nearest_even (N D : Z) : Z :=
  let q := N / D in
  match 2 * (N mod D) ?= D with
  | Lt => q
  | Gt => q + 1
  | Eq => if Z.even q then q else q + 1
  end.

(** The binary exponent of a positive rational [a / b]: the [e] with
    [2 ^ e <= a / b < 2 ^ (e + 1)]. *)
Definition binary_exponent (a b : Z) : Z :=
  let e := Z.log2 a - Z.log2 b in
  if a * 2 ^ Z.max 0 (- e) <? b * 2 ^ Z.max 0 e then e - 1 else e.

(** A positive rational [a / b] rounded to 53 significant bits: the
    mantissa [n] lies between 2^52 and 2^53 and the result is [n / 2 ^ s]. *)
Definition round_binary64_pos (a b : Z) : Q :=
  let s := 52 - binary_exponent a b in
  let n := nearest_even (a * 2 ^ Z.max 0 s) (b * 2 ^ Z.max 0 (- s)) in
  if 0 <=? s then Qmake n (Z.to_pos (2 ^ s)) else inject_Z (n * 2 ^ (- s)).

Definition round_binary64 (x : Q) : Q :=
  match Z.compare (Qnum x) 0 with
  | Eq => 0%Q
  | Gt => round_binary64_pos (Qnum x) (Z.pos (Qden x))
  | Lt => Qopp (round_binary64_pos (- Qnum x) (Z.pos (Qden x)))
  end.

(** [n * x] for an [int] [n] and a [float] [x]. *)
Definition int_times_float (n : Z) (x : Q) : Q :=
  round_binary64 (round_binary64 (inject_Z n) * x).

(** The endpoints [pt1], [pt2] computed at the top of each frame. *)
Definition line_points (lo : LineOptions) (H W : Z) : Centroid * Centroid :=
  match orientation lo with
  | Horizontal =>
      let line_coord := py_int (int_times_float H (position lo)) in
      ((0, line_coord), (W, line_coord))
  | Vertical =>
      let line_coord := py_int (int_times_float W (position lo)) in
      ((line_coord, 0), (line_coord, H))
  | Diagonal =>
      let offset := py_int (int_times_float (Z.min W H) (position lo)) in
      match direction_mode lo with
      | Diag1 => ((0, offset), (W, H - offset))
      | OtherMode => ((W, offset), (0, H - offset))
      end
  | OtherOrientation => ((0, Z.quot H 2), (W, Z.quot H 2))
  end.

(** Numerator of [d_prev] and [d_curr]: the cross product of [p - pt1] with
    [v = pt2 - pt1].  The source divides it by [norm], which is positive, and
    tests the signs of the quotients only; the executable decision tests the
    signs of the numerators.  [signed_distance] below is the quotient itself,
    over the reals. *)
Definition cross_num (pt1 pt2 p : Centroid) : Z :=
  let vx := fst pt2 - fst pt1 in
  let vy := snd pt2 - snd pt1 in
  (fst p - fst pt1) * vy - (snd p - snd pt1) * vx.

Definition line_norm (pt1 pt2 : Centroid) : R :=
  let vx := IZR (fst pt2 - fst pt1) in
  let vy := IZR (snd pt2 - snd pt1) in
  let norm := sqrt (vx * vx + vy * vy)%R in
  if Req_dec_T norm 0%R then 1%R else norm.

Definition signed_distance (pt1 pt2 p : Centroid) : R :=
  (IZR (cross_num pt1 pt2 p) / line_norm pt1 pt2)%R.

(** The four comparisons of the horizontal and vertical branches. *)
Definition crosses_up (pt1 prev centroid : Centroid) : bool :=
  (snd prev >? snd pt1) && (snd centroid <=? snd pt1).

Definition crosses_down (pt1 prev centroid : Centroid) : bool :=
  (snd prev <? snd pt1) && (snd centroid >=? snd pt1).

Definition crosses_left (pt1 prev centroid : Centroid) : bool :=
  (fst prev >? fst pt1) && (fst centroid <=? fst pt1).

Definition crosses_right (pt1 prev centroid : Centroid) : bool :=
  (fst prev <? fst pt1) && (fst centroid >=? fst pt1).

(** The flag [crossed]. *)
Definition crossed (o : Orientation) (pt1 pt2 prev centroid : Centroid)
  : bool :=
  match o with
  | Horizontal =>
      crosses_up pt1 prev centroid || crosses_down pt1 prev centroid
  | Vertical =>
      crosses_left pt1 prev centroid || crosses_right pt1 prev centroid
  | Diagonal =>
      cross_num pt1 pt2 prev * cross_num pt1 pt2 centroid <? 0
  | OtherOrientation => false
  end.

(** The value [disp]. *)
Definition displacement (o : Orientation) (prev centroid : Centroid) : Z :=
  match o with
  | Horizontal => Z.abs (snd centroid - snd prev)
  | Vertical => Z.abs (fst centroid - fst prev)
  | _ => Z.abs ((fst centroid + snd centroid) - (fst prev + snd prev))
  end.

(** The bucket that receives a recorded crossing, named as in the log
    lines. *)
Inductive Bucket : Type :=
  | UP | DOWN | LEFT | RIGHT | Diagonal1 | Diagonal2.

(** The counting branch taken once the displacement gate has passed. *)
Definition bucket_of (o : Orientation) (pt1 pt2 prev centroid : Centroid)
  : option Bucket :=
  match o with
  | Horizontal =>
      if crosses_up pt1 prev centroid then Some UP
      else if crosses_down pt1 prev centroid then Some DOWN
      else None
  | Vertical =>
      if crosses_left pt1 prev centroid then Some LEFT
      else if crosses_right pt1 prev centroid then Some RIGHT
      else None
  | Diagonal =>
      if cross_num pt1 pt2 prev >? 0 then Some Diagonal1 else Some Diagonal2
  | OtherOrientation => None
  end.

(** First and second counter of the orientation. *)
Definition first_bucket (b : Bucket) : bool :=
  match b with
  | UP | LEFT | Diagonal1 => true
  | DOWN | RIGHT | Diagonal2 => false
  end.

(** The test [counting_algorithm == "threshold" and disp < min_disp]. *)
Definition below_threshold (alg : CountingAlgorithm) (min_disp disp : Z)
  : bool :=
  match alg with
  | Threshold => disp <? min_disp
  | Standard => false
  end.

(** State of a counting run: the tracker, the two counters of the configured
    orientation ([up_count]/[down_count], [left_count]/[right_count] or
    [diag1_count]/[diag2_count]) and the "counted as" log lines, oldest
    first. *)
Record Counting : Type := mkCounting {
  ct : CentroidTracker;
  count1 : Z;
  count2 : Z;
  events : list (Z * Bucket)
}.

(** [ct.counted[objectID] = True] *)
Definition mark_counted (objectID : Z) (t : CentroidTracker)
  : CentroidTracker :=
  mkTracker (nextObjectID t) (objects t) (disappeared t)
            (previousCentroids t)
            (dict_set objectID true (counted t))
            (maxDisappeared t) (registered t).

Definition bump (objectID : Z) (b : option Bucket) (st : Counting)
  : Counting :=
  match b with
  | Some b =>
      mkCounting (ct st)
        (if first_bucket b then count1 st + 1 else count1 st)
        (if first_bucket b then count2 st else count2 st + 1)
        (events st ++ [(objectID, b)])
  | None => st
  end.

(** Body of [for (objectID, centroid) in objects.items()] in directional
    mode. *)
Definition count_crossing (o : Orientation) (alg : CountingAlgorithm)
    (min_disp : Z) (pt1 pt2 : Centroid) (st : Counting)
    (item : Z * Centroid) : option Counting :=
  let (objectID, centroid) := item in
  let prev := match dict_get objectID (previousCentroids (ct st)) with
              | Some p => p
              | None => centroid
              end in
  is_counted <- dict_get objectID (counted (ct st)) ;;
  if is_counted then Some st
  else if crossed o pt1 pt2 prev centroid then
    let disp := displacement o prev centroid in
    if below_threshold alg min_disp disp then Some st
    else
      let st' := bump objectID (bucket_of o pt1 pt2 prev centroid) st in
      Some (mkCounting (mark_counted objectID (ct st'))
                       (count1 st') (count2 st') (events st'))
  else Some st.

(** One decoded frame as the engine sees it: the frame size, the centroids
    of the boxes of the configured class, the readings of [time.time()] and
    of [datetime.datetime.now()] taken after the frame is processed (in
    milliseconds), and whether [q] is pressed. *)
Record Frame : Type := mkFrame {
  frame_height : Z;
  frame_width : Z;
  detections : list Centroid;
  time_now : Z;
  datetime_now : Z;
  quit_pressed : bool
}.

(** One iteration of the frame loop of [run_stream_directional], up to the
    counters. *)
Definition process_frame_directional (lo : LineOptions)
    (alg : CountingAlgorithm) (min_disp : Z) (st : Counting) (f : Frame)
  : option Counting :=
  let (pt1, pt2) := line_points lo (frame_height f) (frame_width f) in
  t' <- update (detections f) (ct st) ;;
  foldM (count_crossing (orientation lo) alg min_disp pt1 pt2)
        (objects t')
        (mkCounting t' (count1 st) (count2 st) (events st)).

(** State of a unique-mode run; [counted_ids] is a ghost list of the
    identities that incremented [total_count], oldest first. *)
Record UniqueCounting : Type := mkUnique {
  uct : CentroidTracker;
  total_count : Z;
  counted_ids : list Z
}.

(** Body of [for (objectID, centroid) in objects.items()] in unique mode. *)
Definition count_unique (st : UniqueCounting) (item : Z * Centroid)
  : option UniqueCounting :=
  let (objectID, _) := item in
  is_counted <- dict_get objectID (counted (uct st)) ;;
  if is_counted then Some st
  else Some (mkUnique (mark_counted objectID (uct st))
                      (total_count st + 1)
                      (counted_ids st ++ [objectID])).

Definition process_frame_unique (st : UniqueCounting) (f : Frame)
  : option UniqueCounting :=
  t' <- update (detections f) (uct st) ;;
  foldM count_unique (objects t')
        (mkUnique t' (total_count st) (counted_ids st)).

(** ** Persistence ([db.py]) *)

(** The arguments of one [upsert_session] call, which are also one row of
    the table [analytics].  Formatted times are held as whole seconds. *)
Record SessionRow : Type := mkRow {
  stream_url : String.string;
  row_object_type : String.string;
  direction1 : Z;
  direction2 : Z;
  total : Z;
  session_start : Z;
  session_end : Z
}.

(** [strftime("%d-%m-%Y %H:%M:%S")] of a reading in milliseconds. *)
Definition strftime (t : Z) : Z := t / 1000.

Definition same_key (a b : SessionRow) : bool :=
  String.eqb (stream_url a) (stream_url b)
  && (session_start a =? session_start b).

(** [INSERT ... ON CONFLICT(stream_url, session_start) DO UPDATE SET ...] *)
Fixpoint upsert_session (db : list SessionRow) (r : SessionRow)
  : list SessionRow :=
  match db with
  | [] => [r]
  | r' :: db' =>
      if same_key r r' then r :: db' else r' :: upsert_session db' r
  end.

(** ** Sessions *)

Inductive StreamItem : Type :=
  | Decoded (f : Frame)
  | DecodeError.

Record Config : Type := mkConfig {
  rtsp_url : String.string;
  object_type : String.string;
  directional : bool; (* analysis_mode == "directional" *)
  line_options : LineOptions;
  counting_algorithm : CountingAlgorithm;
  min_displacement : Z;
  record_interval : Z (* seconds *)
}.

(** What a session reads from outside: the clock at launch, whether
    [av.open] succeeds, the two clock readings taken when the stream
    function starts, the decoded stream and the clock after the stream
    function returns. *)
Record SessionInput : Type := mkInput {
  launch_datetime : Z;
  stream_opens : bool;
  start_time : Z;
  start_datetime : Z;
  stream : list StreamItem;
  end_datetime : Z
}.

Definition due (cfg : Config) (now last_record_time : Z) : bool :=
  now - last_record_time >=? record_interval cfg * 1000.

(** The frame loop of [run_stream_directional].  The result is the list of
    [upsert_session] calls made, oldest first, and the returned value;
    [None] when the decoder is exhausted without an exception, where
    [while True] never leaves. *)
Fixpoint directional_loop (cfg : Config) (session_start : Z)
    (items : list StreamItem) (st : Counting) (last_record_time : Z)
    (calls : list SessionRow)
  : list SessionRow * option ((Z * Z) * Z) :=
  match items with
  | [] => (calls, None)
  | DecodeError :: _ => (calls, Some ((0, 0), 0))
  | Decoded f :: rest =>
      match process_frame_directional (line_options cfg)
              (counting_algorithm cfg) (min_displacement cfg) st f with
      | None => (calls, Some ((0, 0), 0))
      | Some st' =>
          let known := match orientation (line_options cfg) with
                       | OtherOrientation => false
                       | _ => true
                       end in
          let current_total := if known then count1 st' + count2 st' else 0 in
          let now := time_now f in
          let flush := due cfg now last_record_time in
          let row := mkRow (rtsp_url cfg) (object_type cfg)
                           (if known then count1 st' else 0)
                           (if known then count2 st' else 0)
                           current_total
                           (strftime session_start)
                           (strftime (datetime_now f)) in
          let calls' := if flush then calls ++ [row] else calls in
          let last' := if flush then now else last_record_time in
          if quit_pressed f then
            (calls', Some ((if known then count1 st' else 0,
                            if known then count2 st' else 0), current_total))
          else directional_loop cfg session_start rest st' last' calls'
      end
  end.

(** [run_stream_directional] *)
Definition run_stream_directional (cfg : Config) (inp : SessionInput)
  : list SessionRow * option ((Z * Z) * Z) :=
  if stream_opens inp then
    directional_loop cfg (start_datetime inp) (stream inp)
      (mkCounting (new_tracker 40) 0 0 []) (start_time inp) []
  else ([], Some ((0, 0), 0)).

(** The frame loop of [run_stream_unique]. *)
Fixpoint unique_loop (cfg : Config) (items : list StreamItem)
    (st : UniqueCounting) (last_record_time : Z) (calls : list SessionRow)
  : list SessionRow * option Z :=
  match items with
  | [] => (calls, None)
  | DecodeError :: _ => (calls, Some (total_count st))
  | Decoded f :: rest =>
      match process_frame_unique st f with
      | None => (calls, Some (total_count st))
      | Some st' =>
          let now := time_now f in
          let flush := due cfg now last_record_time in
          let row := mkRow (rtsp_url cfg) (object_type cfg) 0 0
                           (total_count st')
                           (strftime last_record_time)
                           (strftime (datetime_now f)) in
          let calls' := if flush then calls ++ [row] else calls in
          let last' := if flush then now else last_record_time in
          if quit_pressed f then (calls', Some (total_count st'))
          else unique_loop cfg rest st' last' calls'
      end
  end.

(** [run_stream_unique] *)
Definition run_stream_unique (cfg : Config) (inp : SessionInput)
  : list SessionRow * option Z :=
  if stream_opens inp then
    unique_loop cfg (stream inp) (mkUnique (new_tracker 40) 0 [])
                (start_time inp) []
  else ([], Some 0).

(** [launch_analysis_and_flask]: all [upsert_session] calls of the session,
    the periodic ones followed by the final one, and whether the function
    returns; it does not when the stream function does not. *)
Definition launch_analysis_and_flask (cfg : Config) (inp : SessionInput)
  : list SessionRow * bool :=
  let session_start := launch_datetime inp in
  let final := fun d1 d2 total =>
    mkRow (rtsp_url cfg) (object_type cfg) d1 d2 total
          (strftime session_start) (strftime (end_datetime inp)) in
  if directional cfg then
    match run_stream_directional cfg inp with
    | (calls, Some ((c1, c2), total)) =>
        match orientation (line_options cfg) with
        | Horizontal | Vertical => (calls ++ [final c1 c2 total], true)
        | Diagonal => (calls ++ [final 0 0 total], true)
        | OtherOrientation => (calls ++ [final 0 0 0], true)
        end
    | (calls, None) => (calls, false)
    end
  else
    match run_stream_unique cfg inp with
    | (calls, Some total) => (calls ++ [final 0 0 total], true)
    | (calls, None) => (calls, false)
    end.

(** The table after a list of calls. *)
Definition stored (calls : list SessionRow) : list SessionRow :=
  fold_left upsert_session calls [].

(** The pairs [(row, col)] that the matching loop of [update] runs over. *)
Definition pairing (inputCentroids : list Centroid) (t : CentroidTracker)
  : list (nat * nat) :=
  let D := cdist (values (objects t)) inputCentroids in
  let rows := match_rows D in
  combine rows (match_cols D rows).

(** [usedRows] and [usedCols] when the matching loop ends. *)
Definition matching (inputCentroids : list Centroid) (t : CentroidTracker)
  : option MatchState :=
  foldM (match_step (keys (objects t)) inputCentroids)
        (pairing inputCentroids t) (mkMatch [] [] t).

(** Rows, columns and pairs matched by [update]: the used sets when the
    matching loop ends.  No matching is attempted on an empty input. *)
Definition matched_rows (inputCentroids : list Centroid)
    (t : CentroidTracker) : list nat :=
  match inputCentroids with
  | [] => []
  | _ :: _ =>
      match matching inputCentroids t with
      | Some st => usedRows st
      | None => []
      end
  end.

Definition matched_cols (inputCentroids : list Centroid)
    (t : CentroidTracker) : list nat :=
  match inputCentroids with
  | [] => []
  | _ :: _ =>
      match matching inputCentroids t with
      | Some st => usedCols st
      | None => []
      end
  end.

Definition matches (inputCentroids : list Centroid) (t : CentroidTracker)
  : list (nat * nat) :=
  combine (matched_rows inputCentroids t) (matched_cols inputCentroids t).

(** The identities matched by [update], and the centroids it registers. *)
Definition matched_ids (inputCentroids : list Centroid)
    (t : CentroidTracker) : list Z :=
  map (fun r => nth r (keys (objects t)) 0) (matched_rows inputCentroids t).

Definition new_centroids (inputCentroids : list Centroid)
    (t : CentroidTracker) : list Centroid :=
  map (fun c => nth c inputCentroids (0, 0))
      (unused (matched_cols inputCentroids t) (length inputCentroids)).

(** An identity is left unmatched by one [update], and by each of a list
    of successive [update]s. *)
Definition unmatched (k : Z) (inputCentroids : list Centroid)
    (t : CentroidTracker) : bool :=
  negb (existsb (Z.eqb k) (matched_ids inputCentroids t)).

Fixpoint unmatched_throughout (k : Z) (frames : list (list Centroid))
    (t : CentroidTracker) : bool :=
  match frames with
  | [] => true
  | f :: fs =>
      unmatched k f t
      && match update f t with
         | Some t' => unmatched_throughout k fs t'
         | None => false
         end
  end.

(** Successive [update] calls, one per frame. *)
Definition updates (frames : list (list Centroid)) (t : CentroidTracker)
  : option CentroidTracker :=
  foldM (fun t f => update f t) frames t.

(** Two tracked identities, 0 at (0, 0) and 1 at (100, 0), and forty frames
    that alternate one detection next to identity 0 with no detection. *)
Definition tolerance_tracker : CentroidTracker :=
  register (100, 0) (register (0, 0) (new_tracker 40)).

Definition tolerance_frames : list (list Centroid) :=
  concat (repeat [[(1, 0)]; []] 20).






(** The pairs that pass the two tests of the loop, from the used sets
    alone. *)
Fixpoint accepted (pairs : list (nat * nat)) (uR uC : list nat)
  : list (nat * nat) :=
  match pairs with
  | [] => []
  | (r, c) :: ps =>
      if mem_nat r uR || mem_nat c uC then accepted ps uR uC
      else (r, c) :: accepted ps (r :: uR) (c :: uC)
  end.


(** ** Consistency of a tracker *)

(** The state every call sequence keeps: the four dictionaries have the same
    keys in the same order, no key twice, every key below [nextObjectID], and
    the history of registrations is [0, 1, ..., nextObjectID - 1]. *)
Record wf (t : CentroidTracker) : Prop := mkWf {
  wf_disappeared : keys (disappeared t) = keys (objects t);
  wf_previous : keys (previousCentroids t) = keys (objects t);
  wf_counted : keys (counted t) = keys (objects t);
  wf_nodup : NoDup (keys (objects t));
  wf_bound : forall k, In k (keys (objects t)) -> 0 <= k < nextObjectID t;
  wf_next : 0 <= nextObjectID t;
  wf_history : registered t = map Z.of_nat (seq 0 (Z.to_nat (nextObjectID t)))
}.

(** What the tracker holds for one identity, and the fields no identity
    owns. *)
Definition view (t : CentroidTracker) (k : Z)
  : option Centroid * option Z * option Centroid * option bool :=
  (dict_get k (objects t), dict_get k (disappeared t),
   dict_get k (previousCentroids t), dict_get k (counted t)).

Definition header (t : CentroidTracker) : Z * Z * list Z :=
  (nextObjectID t, maxDisappeared t, registered t).

(** The view of an identity after one ageing step on it. *)
Definition aged (t t' : CentroidTracker) (k n : Z) : Prop :=
  if n + 1 >? maxDisappeared t then ~ In k (keys (objects t'))
  else view t' k = (dict_get k (objects t), Some (n + 1),
                    dict_get k (previousCentroids t), dict_get k (counted t)).

(** A call on the tracker, and a sequence of calls. *)
Inductive TrackerCall : Type :=
  | CallRegister (centroid : Centroid)
  | CallDeregister (objectID : Z)
  | CallUpdate (inputCentroids : list Centroid).

Definition call (t : CentroidTracker) (c : TrackerCall)
  : option CentroidTracker :=
  match c with
  | CallRegister centroid => Some (register centroid t)
  | CallDeregister objectID => deregister objectID t
  | CallUpdate inputCentroids => update inputCentroids t
  end.

(** Invariant of a counting run, over the tracker and the identities counted
    so far: no identity is counted twice, and a counted identity never has
    its flag false. *)
Definition counted_inv (t : CentroidTracker) (ids : list Z) : Prop :=
  wf t /\ NoDup ids
  /\ forall k, In k ids ->
       k < nextObjectID t /\ dict_get k (counted t) <> Some false.

(** From [t] to a later [t']: an identity known to [t] whose flag is false
    in [t'] had it false in [t]. *)
Definition flags_back (t t' : CentroidTracker) : Prop :=
  nextObjectID t <= nextObjectID t'
  /\ forall k, k < nextObjectID t ->
       dict_get k (counted t') = Some false ->
       dict_get k (counted t) = Some false.

(** What one step of a counting loop keeps. *)
Definition counting_step (t : CentroidTracker) (ids : list Z) (n : Z)
    (t' : CentroidTracker) (ids' : list Z) (n' : Z) : Prop :=
  counted_inv t' ids'
  /\ keys (objects t') = keys (objects t)
  /\ nextObjectID t' = nextObjectID t
  /\ (forall k, dict_get k (counted t') = Some false ->
        dict_get k (counted t) = Some false)
  /\ (n = Z.of_nat (length ids) -> n' = Z.of_nat (length ids')).



(** The state after a crossing of identity [objectID] is recorded in bucket
    [b]: one more event, the counter of the bucket incremented, the flag
    set. *)
Definition recorded (objectID : Z) (b : Bucket) (st : Counting) : Counting :=
  mkCounting (mark_counted objectID (ct st))
             (if first_bucket b then count1 st + 1 else count1 st)
             (if first_bucket b then count2 st else count2 st + 1)
             (events st ++ [(objectID, b)]).

(** A counting state with one tracked, uncounted identity 0 whose previous
    centroid is [p]. *)
Definition one_object (p : Centroid) : Counting :=
  mkCounting (register p (new_tracker 40)) 0 0 [].

(** Three frames of height 200 with one detection each, at y = 105, 98 and
    120: a short step up across the line y = 100, then a long step down. *)
Definition gating_frames : list Frame :=
  [mkFrame 200 300 [(50, 105)] 0 0 false;
   mkFrame 200 300 [(50, 98)] 40 40 false;
   mkFrame 200 300 [(50, 120)] 80 80 false].

(** A directional session on a horizontal line at half height: an object
    is first seen at y = 110, crosses up to y = 95 and is counted, then the
    decoder fails.  The same session in unique mode. *)
Definition failure_config : Config :=
  mkConfig "rtsp://camera"%string "car"%string true (mkLine Horizontal (1 # 2) Diag1)
           Standard 10 60.

Definition failure_config_unique : Config :=
  mkConfig "rtsp://camera"%string "car"%string false (mkLine Horizontal (1 # 2) Diag1)
           Standard 10 60.

Definition failure_frames : list Frame :=
  [mkFrame 200 300 [(50, 110)] 1000 1000 false;
   mkFrame 200 300 [(50, 95)] 1040 1040 false].

Definition failure_input : SessionInput :=
  mkInput 0 true 500 500 (map Decoded failure_frames ++ [DecodeError]) 2000.

(** A session at 25 frames per second with a record interval of 1 s: the
    launch reads the clock at 0 s, the stream function starts at 1.5 s, sixty
    frames follow in which one object moves up from y = 129 to y = 70 across
    the line y = 100, and [q] is pressed on the next frame.  The interval
    elapses at the 25th and at the 50th frame. *)
Definition flush_config (directional : bool) : Config :=
  mkConfig "rtsp://camera"%string "car"%string directional
           (mkLine Horizontal (1 # 2) Diag1) Standard 10 1.

Definition flush_frames : list StreamItem :=
  map (fun i => Decoded (mkFrame 200 300 [(50, 130 - Z.of_nat i)]
                           (1500 + 40 * Z.of_nat i)
                           (1500 + 40 * Z.of_nat i) false))
      (seq 1 60)
  ++ [Decoded (mkFrame 200 300 [(50, 69)] 3940 3940 true)].

Definition flush_input : SessionInput :=
  mkInput 0 true 1500 1500 flush_frames 4000.

(** The two counting runs over a list of decoded frames. *)
Definition run_directional (lo : LineOptions) (alg : CountingAlgorithm)
    (min_disp : Z) (frames : list Frame) (st : Counting) : option Counting :=
  foldM (process_frame_directional lo alg min_disp) frames st.

Definition run_unique (frames : list Frame) (st : UniqueCounting)
  : option UniqueCounting :=
  foldM process_frame_unique frames st.

(** ** Further definitions *)

(** The centroid [(cX, cY)] of a box: [int((x1 + x2) / 2)] and
    [int((y1 + y2) / 2)], true division followed by truncation. *)
Definition box_centroid (x1 y1 x2 y2 : Z) : Centroid :=
  (Z.quot (x1 + x2) 2, Z.quot (y1 + y2) 2).

(** A point of the frame of height [H] and width [W]. *)
Definition in_frame (H W : Z) (p : Centroid) : Prop :=
  0 <= fst p <= W /\ 0 <= snd p <= H.

(** The identities [first, first + 1, ...] given to [n] registrations. *)
Definition fresh_ids (first : Z) (n : nat) : list Z :=
  map (fun i => first + Z.of_nat i) (seq 0 n).

(** A tracker with identities 0 at (0, 0) and 1 at (3, 0), and two
    detections. *)
Definition sample_tracker : CentroidTracker :=
  register (3, 0) (register (0, 0) (new_tracker 40)).

Definition sample_inputs : list Centroid := [(1, 0); (100, 0)].

(** The primary key [(stream_url, session_start)] of a row. *)
Definition row_key (r : SessionRow) : String.string * Z :=
  (stream_url r, session_start r).

(** Order of two snapshots of one session: no counter is lower in the
    later one. *)
Definition row_le (a b : SessionRow) : Prop :=
  direction1 a <= direction1 b /\ direction2 a <= direction2 b
  /\ total a <= total b.

(** [prev = ct.previousCentroids.get(objectID, centroid)] *)
Definition previous_or (t : CentroidTracker) (objectID : Z)
    (centroid : Centroid) : Centroid :=
  match dict_get objectID (previousCentroids t) with
  | Some p => p
  | None => centroid
  end.

(** A stream item whose clock reading [time.time()] is at most [tmax]. *)
Definition read_by (tmax : Z) (item : StreamItem) : Prop :=
  match item with
  | Decoded f => time_now f <= tmax
  | DecodeError => True
  end.

(** Invariant of a unique-mode run: the identities counted so far are
    exactly those registered so far. *)
Definition all_counted (st : UniqueCounting) : Prop :=
  counted_inv (uct st) (counted_ids st)
  /\ total_count st = Z.of_nat (length (counted_ids st))
  /\ forall k, In k (counted_ids st) <-> 0 <= k < nextObjectID (uct st).

(** A stream item that ends the frame loop: a decode failure, caught by
    [except Exception] and followed by [break], or a frame on which [q] is
    pressed. *)
Definition ends_stream (item : StreamItem) : Prop :=
  match item with
  | Decoded f => quit_pressed f = true
  | DecodeError => True
  end.

(** ** The stream overview ([webapp.py]) *)

(** Python dictionaries with string keys, in insertion order. *)
Section StringDict.
Context {V : Type}.

Definition sdict := list (String.string * V).

Fixpoint sdict_get (k : String.string) (d : sdict) : option V :=
  match d with
  | [] => None
  | (k', v) :: d' => if String.eqb k k' then Some v else sdict_get k d'
  end.

Fixpoint sdict_set (k : String.string) (v : V) (d : sdict) : sdict :=
  match d with
  | [] => [(k, v)]
  | (k', v') :: d' =>
      if String.eqb k k' then (k, v) :: d' else (k', v') :: sdict_set k v d'
  end.
End StringDict.

Arguments sdict V : clear implicits.

(** One value of [streams_dict]: the keys ["object_type"],
    ["session_count"] and ["first_session"]. *)
Record StreamSummary : Type := mkSummary {
  summary_object_type : String.string;
  session_count : Z;
  first_session : Z
}.

(** Body of [for row in streams] in [index]. *)
Definition index_row (streams_dict : sdict StreamSummary) (row : SessionRow)
  : option (sdict StreamSummary) :=
  let stream := stream_url row in
  let streams_dict :=
    match sdict_get stream streams_dict with
    | None =>
        sdict_set stream
          (mkSummary (row_object_type row) 0 (session_start row))
          streams_dict
    | Some _ => streams_dict
    end in
  data <- sdict_get stream streams_dict ;;
  Some (sdict_set stream
          (mkSummary (summary_object_type data) (session_count data + 1)
                     (first_session data))
          streams_dict).

(** [index]: the entries of [streams_list], in the order of
    [streams_dict.items()], from the rows fetched. *)
Definition index (streams : list SessionRow)
  : option (sdict StreamSummary) :=
  foldM index_row streams [].

(** The rows of one stream among the rows fetched. *)
Definition rows_of (stream : String.string) (streams : list SessionRow)
  : list SessionRow :=
  filter (fun r => String.eqb (stream_url r) stream) streams.

(** [sum(entry["session_count"] for entry in streams_list)] *)
Definition sessions_shown (d : sdict StreamSummary) : Z :=
  fold_right (fun e n => session_count (snd e) + n) 0 d.

(** The entry of a stream after one more of its rows. *)
Definition summary_step (acc : option StreamSummary) (row : SessionRow)
  : StreamSummary :=
  match acc with
  | Some data =>
      mkSummary (summary_object_type data) (session_count data + 1)
                (first_session data)
  | None => mkSummary (row_object_type row) 1 (session_start row)
  end.

(** ** Launch settings *)

(** [config["line_options"]] as the settings file holds it. *)
Record LineSettings : Type := mkSettings {
  orientation_setting : String.string;
  position_setting : Q;
  direction_mode_setting : String.string
}.

(** [default_config["line_options"]] *)
Definition default_line_options : LineSettings :=
  mkSettings "horizontal"%string (1 # 2) "vertical"%string.

(** [choose_line_options_setting] as a function of the three answers, each
    stripped.  [pos] is [float(pos)]: [None] when the answer is empty, when
    [float] raises, and for the answers [nan] and [inf], which fail the
    range test like any number outside it.  [d_choice] is read for a
    diagonal line only. *)
Definition choose_line_options_setting (s : LineSettings)
    (orientation_choice : String.string) (pos : option Q)
    (d_choice : String.string) : LineSettings :=
  let o :=
    if String.eqb orientation_choice "1" then "horizontal"%string
    else if String.eqb orientation_choice "2" then "vertical"%string
    else if String.eqb orientation_choice "3" then "diagonal"%string
    else orientation_setting s in
  let p :=
    match pos with
    | Some pos_val =>
        if Qle_bool 0 pos_val && Qle_bool pos_val 1 then pos_val
        else position_setting s
    | None => position_setting s
    end in
  let m :=
    if String.eqb o "diagonal" then
      if String.eqb d_choice "1" then "diag1"%string
      else if String.eqb d_choice "2" then "diag2"%string
      else direction_mode_setting s
    else if String.eqb o "horizontal" then "vertical"%string
    else "horizontal"%string in
  mkSettings o p m.

(** The line options as the string comparisons of [run_stream_directional]
    read them. *)
Definition read_line_options (s : LineSettings) : LineOptions :=
  mkLine
    (if String.eqb (orientation_setting s) "horizontal" then Horizontal
     else if String.eqb (orientation_setting s) "vertical" then Vertical
     else if String.eqb (orientation_setting s) "diagonal" then Diagonal
     else OtherOrientation)
    (position_setting s)
    (if String.eqb (direction_mode_setting s) "diag1" then Diag1
     else OtherMode).

(** The binary64 numbers that Python writes 0.3 and 0.35. *)
Definition float_0_3 : Q := 5404319552844595 # 18014398509481984.
Definition float_0_35 : Q := 3152519739159347 # 9007199254740992.

(** The tracked identities are in ascending order, the order in which
    [register] assigned them, and below [nextObjectID]. *)
Definition keys_ascending (t : CentroidTracker) : Prop :=
  StronglySorted Z.lt (keys (objects t))
  /\ forall k, In k (keys (objects t)) -> k < nextObjectID t.

(** Clock readings each at least [gap] after the one before, the first at
    least [gap] after [last]. *)
Fixpoint spaced (gap last : Z) (times : list Z) : Prop :=
  match times with
  | [] => True
  | t :: ts => gap <= t - last /\ spaced gap t ts
  end.

(** The periodic snapshots [rows] were written at the frames [fs] of the
    stream [items], one per frame and in this order: each row ends at the
    [datetime.now()] reading of its frame. *)
Definition written_at (items : list StreamItem) (rows : list SessionRow)
    (fs : list Frame) : Prop :=
  Forall (fun f => In (Decoded f) items) fs
  /\ map session_end rows = map (fun f => strftime (datetime_now f)) fs.

(** The three kinds of identity after [update inputs t] gave [t']: newly
    registered at a detection; matched to a detection; tracked before and
    left unmatched. *)
Definition newly_registered (inputs : list Centroid) (t t' : CentroidTracker)
    (k : Z) : Prop :=
  nextObjectID t <= k
  /\ exists c, In c inputs
               /\ view t' k = (Some c, Some 0, Some c, Some false).

Definition matched_identity (inputs : list Centroid) (t t' : CentroidTracker)
    (k : Z) : Prop :=
  In k (keys (objects t)) /\ In k (matched_ids inputs t)
  /\ exists p, In p inputs
               /\ view t' k = (Some p, Some 0, dict_get k (objects t),
                               dict_get k (counted t)).

Definition unmatched_survivor (inputs : list Centroid)
    (t t' : CentroidTracker) (k : Z) : Prop :=
  In k (keys (objects t)) /\ ~ In k (matched_ids inputs t)
  /\ exists n, dict_get k (disappeared t) = Some n
               /\ n + 1 <= maxDisappeared t
               /\ view t' k = (dict_get k (objects t), Some (n + 1),
                               dict_get k (previousCentroids t),
                               dict_get k (counted t)).

(** * Properties *)

(** ** Dictionaries *)

Section DictFacts.
Context {V : Type}.
Implicit Types (d : dict V) (k : Z) (v : V).

Lemma dict_get_some_in d k v : dict_get k d = Some v -> In k (keys d).
Proof.
  induction d as [|[k' v'] d IH]; simpl; [discriminate|].
  destruct (Z.eqb_spec k k'); [auto|]. intros H; right; auto.
Qed.

Lemma dict_get_in d k : In k (keys d) -> exists v, dict_get k d = Some v.
Proof.
  induction d as [|[k' v'] d IH]; simpl; [tauto|].
  destruct (Z.eqb_spec k k'); [eauto|].
  intros [E|H]; [congruence|auto].
Qed.

Lemma dict_get_none d k : ~ In k (keys d) -> dict_get k d = None.
Proof.
  intros H. destruct (dict_get k d) eqn:E; [|reflexivity].
  apply dict_get_some_in in E. contradiction.
Qed.

Lemma dict_get_set_same d k v : dict_get k (dict_set k v d) = Some v.
Proof.
  induction d as [|[k' v'] d IH]; simpl.
  - now rewrite Z.eqb_refl.
  - destruct (Z.eqb_spec k k') as [->|N]; simpl.
    + now rewrite Z.eqb_refl.
    + destruct (Z.eqb_spec k k'); [contradiction|exact IH].
Qed.

Lemma dict_get_set_other d k k' v :
  k <> k' -> dict_get k (dict_set k' v d) = dict_get k d.
Proof.
  intros N. induction d as [|[k0 v0] d IH]; simpl.
  - destruct (Z.eqb_spec k k'); [contradiction|reflexivity].
  - destruct (Z.eqb_spec k' k0) as [->|N0]; simpl.
    + destruct (Z.eqb_spec k k0); [contradiction|reflexivity].
    + destruct (Z.eqb_spec k k0); [reflexivity|exact IH].
Qed.

Lemma keys_set_in d k v : In k (keys d) -> keys (dict_set k v d) = keys d.
Proof.
  induction d as [|[k' v'] d IH]; simpl; [tauto|].
  destruct (Z.eqb_spec k k') as [->|N]; simpl; [reflexivity|].
  intros [E|H]; [congruence|]. f_equal. auto.
Qed.

Lemma keys_set_notin d k v :
  ~ In k (keys d) -> keys (dict_set k v d) = keys d ++ [k].
Proof.
  induction d as [|[k' v'] d IH]; simpl; [reflexivity|].
  intros H. destruct (Z.eqb_spec k k') as [->|N]; simpl.
  - exfalso; auto.
  - f_equal. auto.
Qed.

Lemma dict_del_in d k : In k (keys d) -> exists d', dict_del k d = Some d'.
Proof.
  induction d as [|[k' v'] d IH]; simpl; [tauto|].
  destruct (Z.eqb_spec k k'); [eauto|].
  intros [E|H]; [congruence|].
  destruct (IH H) as [d' ->]. simpl. eauto.
Qed.

Lemma dict_del_keys d d' k :
  dict_del k d = Some d' -> keys d' = remove_first k (keys d).
Proof.
  revert d'. induction d as [|[k' v'] d IH]; simpl; [discriminate|].
  intros d'. destruct (Z.eqb_spec k k').
  - now intros [= ->].
  - destruct (dict_del k d) as [d''|]; simpl; [|discriminate].
    intros [= <-]. simpl. f_equal. auto.
Qed.

Lemma dict_get_del_other d d' k k' :
  dict_del k d = Some d' -> k' <> k -> dict_get k' d' = dict_get k' d.
Proof.
  revert d'. induction d as [|[k0 v0] d IH]; simpl; [discriminate|].
  intros d'. destruct (Z.eqb_spec k k0) as [->|N].
  - intros [= ->] N'. destruct (Z.eqb_spec k' k0); [contradiction|reflexivity].
  - destruct (dict_del k d) as [d''|]; simpl; [|discriminate].
    intros [= <-] N'. simpl. destruct (Z.eqb_spec k' k0); [reflexivity|auto].
Qed.
End DictFacts.

Lemma remove_first_in k x l : In x (remove_first k l) -> In x l.
Proof.
  induction l as [|k' l IH]; simpl; [tauto|].
  destruct (Z.eqb_spec k k'); simpl; tauto.
Qed.

Lemma remove_first_in_other k x l :
  x <> k -> In x l -> In x (remove_first k l).
Proof.
  intros N. induction l as [|k' l IH]; simpl; [tauto|].
  destruct (Z.eqb_spec k k') as [->|N']; simpl.
  - intros [E|H]; [congruence|exact H].
  - intros [E|H]; auto.
Qed.

Lemma remove_first_nodup k l : NoDup l -> NoDup (remove_first k l).
Proof.
  induction 1 as [|k' l Hn Hl IH]; simpl; [constructor|].
  destruct (Z.eqb_spec k k'); [exact Hl|].
  constructor; [|exact IH]. intros H. apply Hn. eapply remove_first_in; eauto.
Qed.

Lemma remove_first_gone k l : NoDup l -> ~ In k (remove_first k l).
Proof.
  induction 1 as [|k' l Hn Hl IH]; simpl; [tauto|].
  destruct (Z.eqb_spec k k') as [->|N]; [exact Hn|].
  simpl. intros [E|H]; [congruence|auto].
Qed.

(** ** The primitive operations keep the tracker consistent *)

Lemma new_tracker_wf m : wf (new_tracker m).
Proof. constructor; simpl; try reflexivity; try constructor; try lia; tauto. Qed.

Lemma seq_history n :
  0 <= n ->
  map Z.of_nat (seq 0 (Z.to_nat (n + 1)))
  = map Z.of_nat (seq 0 (Z.to_nat n)) ++ [n].
Proof.
  intros H. replace (Z.to_nat (n + 1)) with (S (Z.to_nat n)) by lia.
  rewrite seq_S, map_app. simpl. now rewrite Z2Nat.id.
Qed.

Lemma fresh_key t : wf t -> ~ In (nextObjectID t) (keys (objects t)).
Proof. intros W H. apply (wf_bound t W) in H. lia. Qed.

Lemma register_wf c t : wf t -> wf (register c t).
Proof.
  intros W. pose proof (fresh_key t W) as F.
  destruct W as [Hd Hp Hc Hn Hb Hx Hh].
  assert (Fd : ~ In (nextObjectID t) (keys (disappeared t))) by now rewrite Hd.
  assert (Fp : ~ In (nextObjectID t) (keys (previousCentroids t)))
    by now rewrite Hp.
  assert (Fc : ~ In (nextObjectID t) (keys (counted t))) by now rewrite Hc.
  constructor; simpl; rewrite ?keys_set_notin by assumption.
  - now rewrite Hd.
  - now rewrite Hp.
  - now rewrite Hc.
  - apply NoDup_app; [assumption|repeat constructor; simpl; tauto|].
    intros k Hk [<-|[]]. contradiction.
  - intros k Hk. apply in_app_or in Hk as [Hk|[<-|[]]]; [|lia].
    apply Hb in Hk. lia.
  - lia.
  - rewrite Hh. symmetry. now apply seq_history.
Qed.

Lemma register_view_other c t k :
  k <> nextObjectID t -> view (register c t) k = view t k.
Proof.
  intros N. unfold view, register; simpl.
  now rewrite !dict_get_set_other by assumption.
Qed.

Lemma register_view_new c t :
  view (register c t) (nextObjectID t)
  = (Some c, Some 0, Some c, Some false).
Proof. unfold view, register; simpl. now rewrite !dict_get_set_same. Qed.

Lemma deregister_spec id t :
  wf t ->
  exists t',
    deregister id t = Some t' /\ wf t' /\ header t' = header t
    /\ (forall k, k <> id -> view t' k = view t k)
    /\ ~ In id (keys (objects t')).
Proof.
  intros W. unfold deregister, dict_mem.
  destruct (dict_get id (objects t)) as [c|] eqn:G.
  - apply dict_get_some_in in G.
    destruct W as [Hd Hp Hc Hn Hb Hx Hh].
    destruct (dict_del_in (objects t) id G) as [o Eo].
    destruct (dict_del_in (disappeared t) id) as [d Ed]; [now rewrite Hd|].
    destruct (dict_del_in (previousCentroids t) id) as [p Ep];
      [now rewrite Hp|].
    destruct (dict_del_in (counted t) id) as [b Eb]; [now rewrite Hc|].
    rewrite Eo, Ed, Ep, Eb. simpl. eexists; split; [reflexivity|].
    pose proof (dict_del_keys _ _ _ Eo) as Ko.
    pose proof (dict_del_keys _ _ _ Ed) as Kd.
    pose proof (dict_del_keys _ _ _ Ep) as Kp.
    pose proof (dict_del_keys _ _ _ Eb) as Kb.
    split; [|split; [reflexivity|split]].
    + constructor; simpl.
      * now rewrite Kd, Ko, Hd.
      * now rewrite Kp, Ko, Hp.
      * now rewrite Kb, Ko, Hc.
      * rewrite Ko. now apply remove_first_nodup.
      * intros k Hk. rewrite Ko in Hk. apply remove_first_in in Hk. auto.
      * assumption.
      * assumption.
    + intros k N. unfold view; simpl.
      now rewrite (dict_get_del_other _ _ _ _ Eo N),
        (dict_get_del_other _ _ _ _ Ed N), (dict_get_del_other _ _ _ _ Ep N),
        (dict_get_del_other _ _ _ _ Eb N).
    + simpl. rewrite Ko. now apply remove_first_gone.
  - exists t. split; [reflexivity|]. split; [assumption|].
    split; [reflexivity|]. split; [reflexivity|].
    intros H. apply dict_get_in in H as [v E]. congruence.
Qed.

Lemma in_keys_get {V : Type} (d : dict V) k :
  In k (keys d) <-> dict_get k d <> None.
Proof.
  split.
  - intros H. apply dict_get_in in H as [v E]. congruence.
  - intros H. destruct (dict_get k d) eqn:E; [|congruence].
    eapply dict_get_some_in; eauto.
Qed.

Lemma view_fields t t' k :
  view t' k = view t k ->
  dict_get k (objects t') = dict_get k (objects t)
  /\ dict_get k (disappeared t') = dict_get k (disappeared t)
  /\ dict_get k (previousCentroids t') = dict_get k (previousCentroids t)
  /\ dict_get k (counted t') = dict_get k (counted t).
Proof. unfold view. intros [= -> -> -> ->]. auto. Qed.

Lemma view_live t t' k :
  view t' k = view t k ->
  (In k (keys (objects t')) <-> In k (keys (objects t))).
Proof.
  intros H. apply view_fields in H as (H & _). now rewrite !in_keys_get, H.
Qed.

Lemma header_fields t t' :
  header t' = header t ->
  nextObjectID t' = nextObjectID t /\ maxDisappeared t' = maxDisappeared t
  /\ registered t' = registered t.
Proof. unfold header. intros [= -> -> ->]. auto. Qed.

Lemma mark_disappeared_spec id t :
  wf t -> In id (keys (objects t)) ->
  exists t' n,
    dict_get id (disappeared t) = Some n
    /\ mark_disappeared t id = Some t' /\ wf t' /\ header t' = header t
    /\ (forall k, k <> id -> view t' k = view t k)
    /\ aged t t' id n.
Proof.
  intros W Hin. unfold mark_disappeared, aged.
  assert (Hd : In id (keys (disappeared t))) by now rewrite (wf_disappeared t W).
  destruct (dict_get_in _ _ Hd) as [n En]. rewrite En. simpl.
  set (t1 := mkTracker _ _ _ _ _ _ _).
  assert (W1 : wf t1).
  { destruct W as [H1 H2 H3 H4 H5 H6 H7].
    constructor; simpl; try assumption. now rewrite keys_set_in. }
  assert (V1 : forall k, k <> id -> view t1 k = view t k).
  { intros k N. unfold view; simpl. now rewrite dict_get_set_other. }
  destruct (n + 1 >? maxDisappeared t) eqn:C.
  - destruct (deregister_spec id t1 W1) as (t' & E & W' & Hh & Hv & Hg).
    exists t', n. split; [reflexivity|]. split; [assumption|].
    split; [assumption|]. split; [exact Hh|]. split; [|now rewrite C].
    intros k N. rewrite Hv by assumption. now apply V1.
  - exists t1, n. split; [reflexivity|]. split; [reflexivity|].
    split; [assumption|]. split; [reflexivity|]. split; [assumption|].
    rewrite C. unfold view; simpl. now rewrite dict_get_set_same.
Qed.

Lemma age_all_spec ids :
  forall t, wf t -> NoDup ids ->
    (forall id, In id ids -> In id (keys (objects t))) ->
    exists t',
      foldM mark_disappeared ids t = Some t' /\ wf t'
      /\ header t' = header t
      /\ (forall k, ~ In k ids -> view t' k = view t k)
      /\ (forall k n, In k ids -> dict_get k (disappeared t) = Some n ->
            aged t t' k n).
Proof.
  induction ids as [|id ids IH]; intros t W Hn Hin; simpl.
  - exists t. split; [reflexivity|]. split; [assumption|].
    split; [reflexivity|]. split; [reflexivity|]. intros k n [].
  - inversion Hn as [|? ? Hnot Hn']; subst.
    destruct (mark_disappeared_spec id t W (Hin id (or_introl eq_refl)))
      as (t1 & n & En & E1 & W1 & Hh1 & Hv1 & Ha1).
    rewrite E1. simpl.
    destruct (IH t1 W1 Hn') as (t' & E' & W' & Hh' & Hv' & Ha').
    { intros id' H'. apply (view_live t t1 id').
      - apply Hv1. intros ->. contradiction.
      - apply Hin. now right. }
    exists t'. split; [assumption|]. split; [assumption|].
    split; [congruence|]. split.
    + intros k Hk. rewrite Hv' by tauto. apply Hv1. intros ->. apply Hk.
      now left.
    + intros k m [<-|Hk] Em.
      * assert (m = n) by congruence. subst m.
        pose proof (Hv' id Hnot) as Hv. unfold aged in *.
        destruct (n + 1 >? maxDisappeared t).
        -- now rewrite (view_live t1 t' id Hv).
        -- congruence.
      * assert (N : k <> id) by (intros ->; contradiction).
        pose proof (Hv1 k N) as Hv. apply view_fields in Hv as (Ho & Hd & Hp & Hc).
        apply header_fields in Hh1 as (_ & Hm & _).
        specialize (Ha' k m Hk). rewrite Hd in Ha'. specialize (Ha' Em).
        unfold aged in *. rewrite Hm, Ho, Hp, Hc in Ha'. exact Ha'.
Qed.

(** ** Registration of a list of centroids *)

Lemma register_header c t :
  nextObjectID (register c t) = nextObjectID t + 1
  /\ maxDisappeared (register c t) = maxDisappeared t.
Proof. split; reflexivity. Qed.

Lemma register_all_spec cs :
  forall t, wf t ->
    let t' := fold_left (fun t c => register c t) cs t in
    wf t'
    /\ nextObjectID t' = nextObjectID t + Z.of_nat (length cs)
    /\ maxDisappeared t' = maxDisappeared t
    /\ (forall k, k < nextObjectID t -> view t' k = view t k)
    /\ (forall i c, nth_error cs i = Some c ->
          view t' (nextObjectID t + Z.of_nat i)
          = (Some c, Some 0, Some c, Some false)).
Proof.
  induction cs as [|c cs IH]; intros t W; simpl.
  - split; [assumption|]. split; [lia|]. split; [reflexivity|].
    split; [reflexivity|]. intros [|i] c; discriminate.
  - destruct (IH (register c t) (register_wf c t W)) as (W' & Hn & Hm & Hv & Hr).
    pose proof (wf_next t W) as Hx.
    split; [assumption|]. split; [rewrite Hn; simpl; lia|].
    split; [rewrite Hm; reflexivity|]. split.
    + intros k Hk. rewrite Hv by (simpl; lia).
      apply register_view_other. lia.
    + intros [|i] c' E; simpl in E.
      * injection E as <-. rewrite Z.add_0_r, Hv by (simpl; lia).
        apply register_view_new.
      * specialize (Hr i c' E). simpl nextObjectID in Hr.
        replace (nextObjectID t + Z.of_nat (S i))
          with (nextObjectID t + 1 + Z.of_nat i) by lia.
        exact Hr.
Qed.

Lemma register_cols_eq (inputs : list Centroid) cols :
  forall t, (forall col, In col cols -> (col < length inputs)%nat) ->
    foldM (fun t col => c <- nth_error inputs col ;; Some (register c t))
          cols t
    = Some (fold_left (fun t c => register c t)
              (map (fun col => nth col inputs (0, 0)) cols) t).
Proof.
  induction cols as [|col cols IH]; intros t H; simpl; [reflexivity|].
  rewrite (nth_error_nth' inputs (0, 0)) by (apply H; now left). simpl.
  apply IH. intros c Hc. apply H. now right.
Qed.

(** ** [argmin] and [argsort] *)

Lemma argmin_from_spec (d : Z) l :
  forall bi b i,
    let r := argmin_from bi b i l in
    (r = bi /\ forall j, (j < length l)%nat -> b <= nth j l d)
    \/ ((i <= r < i + length l)%nat /\ nth (r - i) l d < b
        /\ forall j, (j < length l)%nat -> nth (r - i) l d <= nth j l d).
Proof.
  induction l as [|x l IH]; intros bi b i; simpl.
  - left. split; [reflexivity|]. intros j Hj. lia.
  - destruct (Z.ltb_spec x b) as [Hlt|Hge].
    + right. destruct (IH i x (S i)) as [[E Hall]|(Hr & Hv & Hall)].
      * rewrite E, Nat.sub_diag. split; [lia|]. split; [assumption|].
        intros [|j] Hj; [lia|]. apply Hall. lia.
      * remember (argmin_from i x (S i) l) as r.
        replace (r - i)%nat with (S (r - S i)) by lia.
        split; [lia|]. split; [lia|].
        intros [|j] Hj; [lia|]. apply Hall. lia.
    + destruct (IH bi b (S i)) as [[E Hall]|(Hr & Hv & Hall)].
      * left. split; [assumption|].
        intros [|j] Hj; [lia|]. apply Hall. lia.
      * right. remember (argmin_from bi b (S i) l) as r.
        replace (r - i)%nat with (S (r - S i)) by lia.
        split; [lia|]. split; [lia|].
        intros [|j] Hj; [lia|]. apply Hall. lia.
Qed.

Lemma argmin_spec (d : Z) l :
  l <> [] ->
  (argmin l < length l)%nat
  /\ forall j, (j < length l)%nat -> nth (argmin l) l d <= nth j l d.
Proof.
  destruct l as [|x l]; [congruence|]. intros _. unfold argmin.
  destruct (argmin_from_spec d l 0%nat x 1%nat) as [[E Hall]|(Hr & Hv & Hall)].
  - rewrite E. simpl. split; [lia|].
    intros [|j] Hj; [lia|]. apply Hall. lia.
  - remember (argmin_from 0 x 1 l) as r. simpl length.
    destruct r as [|r]; [lia|].
    replace (S r - 1)%nat with r in * by lia. simpl.
    split; [lia|]. intros [|j] Hj; [lia|]. apply Hall. lia.
Qed.

Lemma fold_min_le l : forall a, fold_left Z.min l a <= a.
Proof.
  induction l as [|x l IH]; intros a; simpl; [lia|].
  specialize (IH (Z.min a x)). lia.
Qed.

Lemma fold_min_lower l :
  forall a x, In x l -> fold_left Z.min l a <= x.
Proof.
  induction l as [|y l IH]; intros a x; simpl; [tauto|].
  intros [->|H]; [|now apply IH].
  pose proof (fold_min_le l (Z.min a x)). lia.
Qed.

Lemma fold_min_in l : forall a, fold_left Z.min l a = a \/ In (fold_left Z.min l a) l.
Proof.
  induction l as [|x l IH]; intros a; simpl; [now left|].
  destruct (IH (Z.min a x)) as [E|H]; [|now right; right].
  rewrite E. destruct (Z.min_spec a x) as [[_ ->]|[_ ->]]; auto.
Qed.

Lemma list_min_spec l :
  l <> [] -> In (list_min l) l /\ forall x, In x l -> list_min l <= x.
Proof.
  destruct l as [|a l]; [congruence|]. intros _. simpl. split.
  - destruct (fold_min_in l a) as [->|H]; auto.
  - intros x [<-|H]; [apply fold_min_le|now apply fold_min_lower].
Qed.

Lemma insert_index_perm ks i l : Permutation (insert_index ks i l) (i :: l).
Proof.
  induction l as [|j l IH]; simpl; [reflexivity|].
  destruct (nth j ks 0 <=? nth i ks 0); [|reflexivity].
  rewrite IH. apply perm_swap.
Qed.

Lemma fold_insert_perm ks l :
  forall acc,
    Permutation (fold_left (fun acc i => insert_index ks i acc) l acc)
                (l ++ acc).
Proof.
  induction l as [|i l IH]; intros acc; simpl; [reflexivity|].
  rewrite IH, insert_index_perm. symmetry. apply Permutation_middle.
Qed.

Lemma argsort_perm ks : Permutation (argsort ks) (seq 0 (length ks)).
Proof. unfold argsort. rewrite fold_insert_perm. now rewrite app_nil_r. Qed.



Lemma argsort_in ks r : In r (argsort ks) <-> (r < length ks)%nat.
Proof.
  split; intros H.
  - apply (Permutation_in _ (argsort_perm ks)) in H.
    apply in_seq in H. lia.
  - apply (Permutation_in _ (Permutation_sym (argsort_perm ks))).
    apply in_seq. lia.
Qed.


(** ** The matching loop *)

Lemma mem_nat_in n s : mem_nat n s = true <-> In n s.
Proof.
  unfold mem_nat. rewrite existsb_exists. split.
  - intros (x & H & E). apply Nat.eqb_eq in E. now subst.
  - intros H. exists n. split; [assumption|apply Nat.eqb_refl].
Qed.

Lemma mem_nat_not_in n s : mem_nat n s = false <-> ~ In n s.
Proof.
  rewrite <- mem_nat_in. destruct (mem_nat n s); split; congruence.
Qed.

Lemma accepted_fresh pairs :
  forall uR uC r c,
    In (r, c) (accepted pairs uR uC) ->
    In (r, c) pairs /\ ~ In r uR /\ ~ In c uC.
Proof.
  induction pairs as [|[r0 c0] ps IH]; intros uR uC r c; simpl; [tauto|].
  destruct (mem_nat r0 uR || mem_nat c0 uC) eqn:T.
  - intros H. destruct (IH _ _ _ _ H) as (H1 & H2 & H3). auto.
  - apply orb_false_iff in T as [T1 T2].
    apply mem_nat_not_in in T1, T2.
    intros [[= <- <-]|H]; [auto|].
    destruct (IH _ _ _ _ H) as (H1 & H2 & H3). simpl in H2, H3. tauto.
Qed.

Section Matching.
Variable ids : list Z.
Variable inputs : list Centroid.
Hypothesis ids_nodup : NoDup ids.

Lemma same_row r r' k :
  nth_error ids r = Some k -> nth_error ids r' = Some k -> r = r'.
Proof.
  intros H H'. apply (proj1 (NoDup_nth_error ids) ids_nodup).
  - apply nth_error_Some. congruence.
  - congruence.
Qed.

Lemma match_loop_spec pairs :
  forall st,
    wf (tracker st) -> keys (objects (tracker st)) = ids ->
    (forall r c, In (r, c) pairs ->
       (r < length ids)%nat /\ (c < length inputs)%nat) ->
    let acc := accepted pairs (usedRows st) (usedCols st) in
    exists st',
      foldM (match_step ids inputs) pairs st = Some st'
      /\ wf (tracker st') /\ keys (objects (tracker st')) = ids
      /\ header (tracker st') = header (tracker st)
      /\ counted (tracker st') = counted (tracker st)
      /\ usedRows st' = rev (map fst acc) ++ usedRows st
      /\ usedCols st' = rev (map snd acc) ++ usedCols st
      /\ (forall k, (forall r c, In (r, c) acc -> nth_error ids r <> Some k) ->
            view (tracker st') k = view (tracker st) k)
      /\ (forall r c k p,
            In (r, c) acc -> nth_error ids r = Some k ->
            nth_error inputs c = Some p ->
            view (tracker st') k
            = (Some p, Some 0, dict_get k (objects (tracker st)),
               dict_get k (counted (tracker st)))).
Proof.
  induction pairs as [|[r0 c0] ps IH]; intros st W K R; simpl.
  - exists st. repeat (split; [reflexivity || assumption|]).
    intros r c k p [].
  - destruct (mem_nat r0 (usedRows st) || mem_nat c0 (usedCols st)) eqn:T.
    + simpl. apply IH; try assumption. intros r c H. apply R. now right.
    + destruct (R r0 c0 (or_introl eq_refl)) as [Hr Hc].
      destruct (nth_error ids r0) as [k0|] eqn:Ek;
        [|apply nth_error_None in Ek; lia].
      destruct (nth_error inputs c0) as [p0|] eqn:Ep;
        [|apply nth_error_None in Ep; lia].
      assert (Hin : In k0 (keys (objects (tracker st)))).
      { rewrite K. eapply nth_error_In; eauto. }
      destruct (dict_get_in _ _ Hin) as [cur Ecur].
      cbn [bind]. rewrite Ecur. cbn [bind].
      set (t := tracker st) in *.
      set (t1 := mkTracker _ _ _ _ _ _ _).
      set (st1 := mkMatch _ _ t1).
      assert (K1 : keys (objects t1) = keys (objects t))
        by (simpl; now rewrite keys_set_in).
      assert (W1 : wf t1).
      { destruct W as [H1 H2 H3 H4 H5 H6 H7].
        constructor; simpl; rewrite ?keys_set_in; auto; congruence. }
      assert (V1 : forall k, k <> k0 -> view t1 k = view t k).
      { intros k N. unfold view; simpl.
        now rewrite !dict_get_set_other by assumption. }
      destruct (IH st1 W1) as (st' & E & W' & K' & Hh & Hc' & HR & HC & Hv & Hm).
      { rewrite <- K. exact K1. }
      { intros r c H. apply R. now right. }
      simpl in HR, HC, Hv, Hm.
      set (acc' := accepted ps (r0 :: usedRows st) (c0 :: usedCols st)) in *.
      assert (F : forall r c, In (r, c) acc' -> r <> r0).
      { intros r c H. apply accepted_fresh in H as (_ & H & _).
        simpl in H. intros ->. tauto. }
      exists st'. split; [assumption|]. split; [assumption|].
      split; [assumption|]. split; [exact Hh|]. split; [exact Hc'|].
      split; [simpl; rewrite HR, <- app_assoc; reflexivity|].
      split; [simpl; rewrite HC, <- app_assoc; reflexivity|]. split.
      * intros k Hk. simpl in Hk.
        rewrite Hv by (intros r c H; apply (Hk r c); now right).
        apply V1. intros ->. apply (Hk r0 c0); [now left|assumption].
      * intros r c k p [[= <- <-]|H] Er Ec.
        -- assert (k = k0) by congruence. assert (p = p0) by congruence.
           subst k p. rewrite Hv.
           ++ unfold view; simpl. rewrite !dict_get_set_same.
              fold t. now rewrite Ecur.
           ++ intros r c H Er'. apply (F r c H). eapply same_row; eauto.
        -- assert (N : k <> k0).
           { intros ->. apply (F r c H). eapply same_row; eauto. }
           rewrite (Hm r c k p H Er Ec). simpl.
           now rewrite dict_get_set_other by assumption.
Qed.
End Matching.

(** ** List facts used by [update] *)

Lemma in_combine_map {A B : Type} (f : A -> B) (l : list A) a b :
  In (a, b) (combine l (map f l)) -> In a l /\ b = f a.
Proof.
  induction l as [|x l IH]; simpl; [tauto|].
  intros [[= <- <-]|H]; [auto|]. destruct (IH H). auto.
Qed.

Lemma map_nth_seq {A : Type} (d : A) (l : list A) :
  map (fun i => nth i l d) (seq 0 (length l)) = l.
Proof.
  induction l as [|x l IH]; simpl; [reflexivity|].
  f_equal. rewrite <- seq_shift, map_map. exact IH.
Qed.

Lemma combine_snoc {A B : Type} (l : list A) (l' : list B) a b :
  length l = length l' ->
  combine (l ++ [a]) (l' ++ [b]) = combine l l' ++ [(a, b)].
Proof.
  revert l'. induction l as [|x l IH]; intros [|y l'] H; simpl in *;
    try discriminate; [reflexivity|].
  f_equal. apply IH. lia.
Qed.

Lemma combine_rev_split {A B : Type} (l : list (A * B)) :
  combine (rev (map fst l)) (rev (map snd l)) = rev l.
Proof.
  induction l as [|[a b] l IH]; simpl; [reflexivity|].
  rewrite combine_snoc by now rewrite !length_rev, !length_map.
  now rewrite IH.
Qed.

Lemma unused_in used n r :
  In r (unused used n) <-> (r < n)%nat /\ ~ In r used.
Proof.
  unfold unused. rewrite filter_In, in_seq, negb_true_iff, mem_nat_not_in.
  intuition lia.
Qed.

Lemma unused_nodup used n : NoDup (unused used n).
Proof. apply NoDup_filter, seq_NoDup. Qed.

Lemma nodup_map_nth (ids : list Z) rows :
  NoDup ids -> NoDup rows ->
  (forall r, In r rows -> (r < length ids)%nat) ->
  NoDup (map (fun r => nth r ids 0) rows).
Proof.
  intros Hi. induction 1 as [|r rows Hn Hr IH]; intros Hb; simpl;
    constructor.
  - intros H. apply in_map_iff in H as (r' & E & H').
    assert (r' = r); [|subst; contradiction].
    apply (proj1 (NoDup_nth ids 0) Hi); [apply Hb; now right| |assumption].
    apply Hb. now left.
  - apply IH. intros r' H'. apply Hb. now right.
Qed.

Lemma age_rows_eq (ids : list Z) rows :
  forall t, (forall r, In r rows -> (r < length ids)%nat) ->
    foldM (fun t row => objectID <- nth_error ids row ;;
                        mark_disappeared t objectID) rows t
    = foldM mark_disappeared (map (fun r => nth r ids 0) rows) t.
Proof.
  induction rows as [|r rows IH]; intros t H; simpl; [reflexivity|].
  rewrite (nth_error_nth' ids 0) by (apply H; now left). cbn [bind].
  destruct (mark_disappeared t (nth r ids 0)); [|reflexivity].
  cbn [bind]. apply IH. intros r' H'. apply H. now right.
Qed.

Lemma cdist_row (A B : list Centroid) r :
  (r < length A)%nat ->
  nth r (cdist A B) [] = map (sqdist (nth r A (0, 0))) B.
Proof.
  intros H. unfold cdist.
  rewrite (nth_indep _ [] (map (sqdist (0, 0)) B)) by now rewrite length_map.
  apply (map_nth (fun a => map (sqdist a) B)).
Qed.

Lemma pairing_spec inputs t r c :
  inputs <> [] -> In (r, c) (pairing inputs t) ->
  (r < length (keys (objects t)))%nat /\ (c < length inputs)%nat
  /\ c = argmin (nth r (cdist (values (objects t)) inputs) []).
Proof.
  intros Hne H. unfold pairing, match_cols in H.
  apply in_combine_map in H as [Hr ->].
  apply argsort_in in Hr. unfold cdist in Hr.
  rewrite !length_map in Hr. unfold keys. rewrite length_map.
  split; [unfold values in Hr; now rewrite length_map in Hr|].
  split; [|reflexivity].
  rewrite cdist_row by assumption.
  destruct (argmin_spec 0 (map (sqdist (nth r (values (objects t)) (0, 0)))
                              inputs)) as [Hlt _].
  - destruct inputs; [congruence|discriminate].
  - now rewrite length_map in Hlt.
Qed.

(** ** What [update] does to every identity *)

Lemma update_unfold inputs t :
  inputs <> [] -> objects t <> [] ->
  update inputs t
  = (st <- matching inputs t ;;
     t2 <- foldM (fun u row => objectID <- nth_error (keys (objects t)) row ;;
                                mark_disappeared u objectID)
                 (unused (usedRows st) (length (keys (objects t))))
                 (tracker st) ;;
     foldM (fun u col => c <- nth_error inputs col ;; Some (register c u))
           (unused (usedCols st) (length inputs)) t2).
Proof.
  intros Hi Ho. unfold update, matching, pairing.
  destruct inputs as [|p ps]; [congruence|].
  destruct (objects t) as [|o os] eqn:E; [congruence|].
  unfold cdist, keys, values. now rewrite !length_map.
Qed.

Lemma matching_spec inputs t :
  wf t -> inputs <> [] ->
  let acc := accepted (pairing inputs t) [] [] in
  exists st,
    matching inputs t = Some st
    /\ wf (tracker st) /\ keys (objects (tracker st)) = keys (objects t)
    /\ header (tracker st) = header t
    /\ counted (tracker st) = counted t
    /\ usedRows st = rev (map fst acc)
    /\ usedCols st = rev (map snd acc)
    /\ (forall k, (forall r c, In (r, c) acc ->
                     nth_error (keys (objects t)) r <> Some k) ->
          view (tracker st) k = view t k)
    /\ (forall r c k p,
          In (r, c) acc -> nth_error (keys (objects t)) r = Some k ->
          nth_error inputs c = Some p ->
          view (tracker st) k
          = (Some p, Some 0, dict_get k (objects t), dict_get k (counted t))).
Proof.
  intros W Hne acc.
  destruct (match_loop_spec (keys (objects t)) inputs (wf_nodup t W)
              (pairing inputs t) (mkMatch [] [] t) W eq_refl)
    as (st & E & W' & K & Hh & Hc & HR & HC & Hv & Hm).
  { intros r c H. destruct (pairing_spec inputs t r c Hne H) as (? & ? & _).
    auto. }
  simpl in HR, HC, Hv, Hm. rewrite app_nil_r in HR, HC.
  exists st. unfold matching. repeat (split; [assumption|]). assumption.
Qed.

Lemma matches_accepted inputs t :
  wf t -> inputs <> [] ->
  matches inputs t = rev (accepted (pairing inputs t) [] []).
Proof.
  intros W Hne.
  destruct (matching_spec inputs t W Hne)
    as (st & E & _ & _ & _ & _ & HR & HC & _).
  unfold matches, matched_rows, matched_cols.
  destruct inputs; [congruence|]. rewrite E, HR, HC.
  apply combine_rev_split.
Qed.

Lemma matched_rows_accepted inputs t :
  wf t -> inputs <> [] ->
  matched_rows inputs t = rev (map fst (accepted (pairing inputs t) [] []))
  /\ matched_cols inputs t
     = rev (map snd (accepted (pairing inputs t) [] [])).
Proof.
  intros W Hne.
  destruct (matching_spec inputs t W Hne)
    as (st & E & _ & _ & _ & _ & HR & HC & _).
  unfold matched_rows, matched_cols.
  destruct inputs; [congruence|]. now rewrite E, HR, HC.
Qed.

Lemma unused_nil n : unused [] n = seq 0 n.
Proof.
  unfold unused. generalize 0%nat as a.
  induction n as [|n IH]; intros a; simpl; [reflexivity|]. now rewrite IH.
Qed.

Lemma matching_no_objects inputs t :
  objects t = [] -> matching inputs t = Some (mkMatch [] [] t).
Proof. intros E. unfold matching, pairing. rewrite E. reflexivity. Qed.

Lemma update_spec inputs t :
  wf t ->
  exists t',
    update inputs t = Some t' /\ wf t'
    /\ maxDisappeared t' = maxDisappeared t
    /\ nextObjectID t'
       = nextObjectID t + Z.of_nat (length (new_centroids inputs t))
    /\ (forall k, ~ In k (keys (objects t)) -> k < nextObjectID t ->
          view t' k = view t k)
    /\ (forall k n, In k (keys (objects t)) ->
          ~ In k (matched_ids inputs t) ->
          dict_get k (disappeared t) = Some n -> aged t t' k n)
    /\ (forall r c k p, In (r, c) (matches inputs t) ->
          nth_error (keys (objects t)) r = Some k ->
          nth_error inputs c = Some p ->
          view t' k
          = (Some p, Some 0, dict_get k (objects t), dict_get k (counted t)))
    /\ (forall i c, nth_error (new_centroids inputs t) i = Some c ->
          view t' (nextObjectID t + Z.of_nat i)
          = (Some c, Some 0, Some c, Some false)).
Proof.
  intros W. destruct inputs as [|p ps].
  - (* empty input *)
    destruct (age_all_spec (keys (objects t)) t W (wf_nodup t W))
      as (t' & E & W' & Hh & Hv & Ha); [auto|].
    apply header_fields in Hh as (Hn & Hm & _).
    exists t'. simpl update. rewrite (wf_disappeared t W).
    split; [assumption|]. split; [assumption|]. split; [assumption|].
    split; [simpl; lia|]. split; [auto|]. split; [auto|].
    split; [intros r c k q []|]. intros [|i] c; discriminate.
  - destruct (objects t) as [|o os] eqn:Eo.
    + (* no identity yet *)
      destruct (register_all_spec (p :: ps) t W) as (W' & Hn & Hm & Hv & Hr).
      assert (En : new_centroids (p :: ps) t = p :: ps).
      { unfold new_centroids, matched_cols.
        rewrite (matching_no_objects _ _ Eo). simpl usedCols.
        rewrite unused_nil. apply map_nth_seq. }
      assert (Em : matches (p :: ps) t = []).
      { unfold matches, matched_rows, matched_cols.
        now rewrite (matching_no_objects _ _ Eo). }
      exists (fold_left (fun t c => register c t) (p :: ps) t).
      split; [unfold update; now rewrite Eo|].
      split; [assumption|]. split; [assumption|].
      split; [now rewrite En|]. split; [auto|].
      split; [intros k n []|]. rewrite Em, En.
      split; [intros r c k q []|]. exact Hr.
    + (* matching, ageing, registration *)
      assert (Hobj : objects t <> []) by (rewrite Eo; discriminate).
      rewrite <- Eo in *. clear Eo o os.
      set (inputs := p :: ps) in *.
      assert (Hne : inputs <> []) by discriminate.
      set (ids := keys (objects t)).
      destruct (matching_spec inputs t W Hne)
        as (st & E & W1 & K1 & Hh1 & Hc1 & HR & HC & Hv1 & Hm1).
      destruct (matched_rows_accepted inputs t W Hne) as [ER EC].
      rewrite <- ER in HR. rewrite <- EC in HC. clear ER EC.
      fold ids in K1, Hv1, Hm1.
      assert (Hacc : forall r c, In (r, c) (matches inputs t) ->
                (r < length ids)%nat /\ In r (usedRows st)).
      { intros r c H. split.
        - rewrite matches_accepted in H by assumption.
          apply in_rev, accepted_fresh in H as (H & _).
          now apply pairing_spec in H.
        - rewrite HR. unfold matches in H. eapply in_combine_l; eauto. }
      assert (Hrows : forall r, In r (usedRows st) ->
                exists c, In (r, c) (matches inputs t)).
      { intros r H. rewrite matches_accepted by assumption.
        rewrite HR in H.
        destruct (matched_rows_accepted inputs t W Hne) as [ER _].
        rewrite ER in H. apply in_rev, in_map_iff in H as ([r' c] & <- & H).
        exists c. now apply -> in_rev. }
      set (rows := unused (usedRows st) (length ids)).
      assert (Hrange : forall r, In r rows -> (r < length ids)%nat).
      { intros r H. now apply unused_in in H. }
      set (aids := map (fun r => nth r ids 0) rows).
      destruct (age_all_spec aids (tracker st) W1)
        as (t2 & E2 & W2 & Hh2 & Hv2 & Ha2).
      { apply nodup_map_nth; [apply W|apply unused_nodup|assumption]. }
      { intros id H. apply in_map_iff in H as (r & <- & H).
        rewrite K1. apply nth_In. auto. }
      set (cols := unused (usedCols st) (length inputs)).
      assert (Ecs : new_centroids inputs t
                    = map (fun c => nth c inputs (0, 0)) cols).
      { unfold new_centroids, cols. now rewrite HC. }
      destruct (register_all_spec (new_centroids inputs t) t2 W2)
        as (W3 & Hn3 & Hm3 & Hv3 & Hr3).
      apply header_fields in Hh1 as (Hn1 & Hmx1 & _).
      apply header_fields in Hh2 as (Hn2 & Hmx2 & _).
      exists (fold_left (fun t c => register c t) (new_centroids inputs t) t2).
      split.
      { rewrite update_unfold by assumption.
        rewrite E. cbn [bind]. fold ids. fold rows.
        rewrite age_rows_eq by assumption. fold aids. rewrite E2. cbn [bind].
        fold cols. rewrite register_cols_eq, Ecs; [reflexivity|].
        intros c H. now apply unused_in in H. }
      split; [assumption|]. split; [congruence|]. split; [congruence|].
      assert (Hlive : forall k, In k aids -> In k ids).
      { intros k H. apply in_map_iff in H as (r & <- & H).
        apply nth_In. auto. }
      assert (Hbound : forall k, In k ids -> k < nextObjectID t2).
      { intros k H. apply (wf_bound t W) in H. lia. }
      split; [|split; [|split]].
      * intros k Hk Hlt. rewrite Hv3 by lia.
        rewrite Hv2 by (intros H; apply Hk, Hlive, H).
        apply Hv1. intros r c _ H. apply Hk. eapply nth_error_In; eauto.
      * intros k n Hk Hun En.
        destruct (In_nth_error _ _ Hk) as [r Er].
        assert (Hr : (r < length ids)%nat)
          by (apply nth_error_Some; fold ids; congruence).
        assert (Hnot : ~ In r (usedRows st)).
        { intros H. apply Hun. unfold matched_ids. rewrite <- HR.
          apply in_map_iff. exists r. split; [|assumption].
          fold ids. apply nth_error_nth. exact Er. }
        assert (Hk1 : view (tracker st) k = view t k).
        { apply Hv1. intros r' c H Er'. apply Hnot.
          rewrite matches_accepted in Hacc by assumption.
          destruct (Hacc r' c) as [_ Hu]; [now apply -> in_rev|].
          now rewrite (same_row ids (wf_nodup t W) r r' k Er Er'). }
        apply view_fields in Hk1 as (Ho & Hd & Hp & Hc).
        assert (Ha : aged (tracker st) t2 k n).
        { apply Ha2; [|congruence]. apply in_map_iff. exists r.
          split; [apply nth_error_nth; exact Er|].
          apply unused_in. auto. }
        unfold aged in *. rewrite Hmx1, Ho, Hp, Hc in Ha.
        destruct (n + 1 >? maxDisappeared t).
        -- rewrite (view_live t2 _ k); [assumption|].
           apply Hv3, Hbound, Hk.
        -- rewrite Hv3 by (apply Hbound, Hk). exact Ha.
      * intros r c k q H Er Ec. destruct (Hacc r c H) as [Hr Hu].
        rewrite Hv3 by (apply Hbound; eapply nth_error_In; eauto).
        rewrite Hv2.
        -- apply (Hm1 r c); [|assumption|assumption].
           rewrite matches_accepted in H by assumption. now apply in_rev.
        -- intros Hin. apply in_map_iff in Hin as (r' & E' & H').
           apply unused_in in H' as [Hr' Hn'].
           assert (r' = r); [|subst; contradiction].
           apply (same_row ids (wf_nodup t W) r' r k); [|assumption].
           rewrite <- E'. now apply nth_error_nth'.
      * intros i c H. specialize (Hr3 i c H). now rewrite Hn2, Hn1 in Hr3.
Qed.

(** ** Sequences of calls *)

Lemma call_spec t c :
  wf t ->
  exists t',
    call t c = Some t' /\ wf t' /\ nextObjectID t <= nextObjectID t'.
Proof.
  intros W. destruct c as [centroid|objectID|inputs]; simpl.
  - exists (register centroid t).
    split; [reflexivity|]. split; [now apply register_wf|]. simpl. lia.
  - destruct (deregister_spec objectID t W) as (t' & E & W' & Hh & _).
    apply header_fields in Hh as (Hn & _). exists t'.
    split; [assumption|]. split; [assumption|]. lia.
  - destruct (update_spec inputs t W) as (t' & E & W' & _ & Hn & _).
    exists t'. split; [assumption|]. split; [assumption|]. lia.
Qed.

Lemma calls_spec cs :
  forall t, wf t ->
    exists t',
      foldM call cs t = Some t' /\ wf t'
      /\ nextObjectID t <= nextObjectID t'.
Proof.
  induction cs as [|c cs IH]; intros t W; simpl.
  - exists t. split; [reflexivity|]. split; [assumption|]. lia.
  - destruct (call_spec t c W) as (t1 & E1 & W1 & H1). rewrite E1.
    cbn [bind]. destruct (IH t1 W1) as (t' & E' & W' & H').
    exists t'. split; [assumption|]. split; [assumption|]. lia.
Qed.

Lemma history_sorted n : StronglySorted Z.lt (map Z.of_nat (seq 0 n)).
Proof.
  generalize 0%nat as a. induction n as [|n IH]; intros a; simpl;
    constructor; [apply IH|].
  apply Forall_forall. intros k H.
  apply in_map_iff in H as (i & <- & H). apply in_seq in H. lia.
Qed.

Lemma history_prefix n n' :
  (n <= n')%nat ->
  map Z.of_nat (seq 0 n')
  = map Z.of_nat (seq 0 n) ++ map Z.of_nat (seq n (n' - n)).
Proof.
  intros H. rewrite <- map_app, <- seq_app. f_equal. f_equal. lia.
Qed.

(** ** Keys across calls *)

Lemma matched_id_pair inputs t k :
  wf t -> In k (matched_ids inputs t) ->
  exists r c p,
    In (r, c) (matches inputs t)
    /\ nth_error (keys (objects t)) r = Some k
    /\ nth_error inputs c = Some p.
Proof.
  intros W H. destruct inputs as [|q qs]; [contradiction|].
  assert (Hne : q :: qs <> []) by discriminate.
  unfold matched_ids in H. apply in_map_iff in H as (r & <- & H).
  destruct (matched_rows_accepted _ t W Hne) as [ER _]. rewrite ER in H.
  apply in_rev, in_map_iff in H as ([r' c] & E & H). simpl in E. subst r'.
  pose proof H as Hacc. apply accepted_fresh in H as (H & _).
  destruct (pairing_spec _ t r c Hne H) as (Hr & Hc & _).
  exists r, c, (nth c (q :: qs) (0, 0)).
  split; [rewrite matches_accepted by assumption; now apply -> in_rev|].
  split; now apply nth_error_nth'.
Qed.

Lemma new_centroids_in inputs t c :
  In c (new_centroids inputs t) -> In c inputs.
Proof.
  unfold new_centroids. intros H. apply in_map_iff in H as (col & <- & H).
  apply unused_in in H as [H _]. now apply nth_In.
Qed.

Lemma update_cases inputs t :
  wf t ->
  exists t',
    update inputs t = Some t' /\ wf t'
    /\ maxDisappeared t' = maxDisappeared t
    /\ nextObjectID t <= nextObjectID t'
    /\ forall k, In k (keys (objects t')) ->
         (nextObjectID t <= k
          /\ exists c, In c inputs
                       /\ view t' k = (Some c, Some 0, Some c, Some false))
         \/ (In k (keys (objects t))
             /\ exists p, In p inputs
                          /\ view t' k = (Some p, Some 0,
                                          dict_get k (objects t),
                                          dict_get k (counted t)))
         \/ (In k (keys (objects t))
             /\ exists n, dict_get k (disappeared t) = Some n
                          /\ n + 1 <= maxDisappeared t
                          /\ view t' k = (dict_get k (objects t), Some (n + 1),
                                          dict_get k (previousCentroids t),
                                          dict_get k (counted t))).
Proof.
  intros W.
  destruct (update_spec inputs t W)
    as (t' & E & W' & Hmax & Hn & Hdead & Hage & Hm & Hnew).
  exists t'. split; [assumption|]. split; [assumption|].
  split; [assumption|]. split; [lia|]. intros k Hk.
  destruct (Z_lt_le_dec k (nextObjectID t)) as [Hlt|Hge].
  - right. destruct (in_dec Z.eq_dec k (keys (objects t))) as [Hin|Hout].
    + destruct (in_dec Z.eq_dec k (matched_ids inputs t)) as [Hmat|Hun].
      * left. split; [assumption|].
        destruct (matched_id_pair inputs t k W Hmat)
          as (r & c & p & H & Er & Ec).
        exists p. split; [eapply nth_error_In; eauto|eauto].
      * right. split; [assumption|].
        destruct (dict_get_in (disappeared t) k) as [n En];
          [now rewrite (wf_disappeared t W)|].
        specialize (Hage k n Hin Hun En). unfold aged in Hage.
        exists n. split; [assumption|].
        destruct (Z.gtb_spec (n + 1) (maxDisappeared t)) as [Hgt|Hle];
          [contradiction|]. split; [lia|assumption].
    + exfalso. apply Hout. apply (view_live t t' k); auto.
  - left. split; [assumption|].
    pose proof (wf_bound t' W' k Hk) as Hb.
    assert (Hi : (Z.to_nat (k - nextObjectID t)
                  < length (new_centroids inputs t))%nat) by lia.
    destruct (nth_error (new_centroids inputs t)
                (Z.to_nat (k - nextObjectID t))) as [c|] eqn:Ec;
      [|apply nth_error_None in Ec; lia].
    exists c. split.
    + eapply new_centroids_in, nth_error_In; eauto.
    + specialize (Hnew _ c Ec).
      now replace (nextObjectID t + Z.of_nat (Z.to_nat (k - nextObjectID t)))
        with k in Hnew by lia.
Qed.

Lemma sorted_snoc {A : Type} (R : A -> A -> Prop) l x :
  StronglySorted R l -> Forall (fun a => R a x) l ->
  StronglySorted R (l ++ [x]).
Proof.
  induction 1 as [|a l S IH F]; intros H; simpl.
  - repeat constructor.
  - inversion H as [|? ? Ha Hl]; subst. constructor; [auto|].
    apply Forall_app. split; [assumption|]. now constructor.
Qed.

Lemma call_keys t c :
  wf t ->
  exists t',
    call t c = Some t' /\ wf t' /\ nextObjectID t <= nextObjectID t'
    /\ forall k, In k (keys (objects t')) ->
         In k (keys (objects t)) \/ nextObjectID t <= k.
Proof.
  intros W. destruct c as [centroid|objectID|inputs]; simpl.
  - exists (register centroid t).
    split; [reflexivity|]. split; [now apply register_wf|].
    split; [simpl; lia|]. intros k Hk. simpl in Hk.
    rewrite keys_set_notin in Hk by now apply fresh_key.
    apply in_app_iff in Hk as [Hk|[<-|[]]]; [now left|right; lia].
  - destruct (deregister_spec objectID t W) as (t' & E & W' & Hh & Hv & Hn).
    apply header_fields in Hh as (Hnext & _). exists t'.
    split; [assumption|]. split; [assumption|]. split; [lia|].
    intros k Hk. left. apply (view_live t t' k); [|assumption].
    apply Hv. intros ->. contradiction.
  - destruct (update_cases inputs t W) as (t' & E & W' & _ & Hn & Hk).
    exists t'. split; [assumption|]. split; [assumption|].
    split; [assumption|]. intros k Hin.
    destruct (Hk k Hin) as [(H & _)|[(H & _)|(H & _)]]; auto.
Qed.

Lemma calls_keys cs :
  forall t, wf t ->
    exists t',
      foldM call cs t = Some t' /\ wf t'
      /\ nextObjectID t <= nextObjectID t'
      /\ forall k, In k (keys (objects t')) ->
           In k (keys (objects t)) \/ nextObjectID t <= k.
Proof.
  induction cs as [|c cs IH]; intros t W; simpl.
  - exists t. split; [reflexivity|]. split; [assumption|].
    split; [lia|auto].
  - destruct (call_keys t c W) as (t1 & E1 & W1 & H1 & K1). rewrite E1.
    cbn [bind]. destruct (IH t1 W1) as (t' & E' & W' & H' & K').
    exists t'. split; [assumption|]. split; [assumption|].
    split; [lia|]. intros k Hk.
    destruct (K' k Hk) as [Hk1|Hk1]; [|right; lia].
    destruct (K1 k Hk1); auto.
Qed.

Lemma remove_first_sorted k l :
  StronglySorted Z.lt l -> StronglySorted Z.lt (remove_first k l).
Proof.
  induction 1 as [|a l S IH F]; simpl; [constructor|].
  destruct (k =? a); [assumption|]. constructor; [assumption|].
  apply Forall_forall. intros x Hx. rewrite Forall_forall in F.
  apply F. eapply remove_first_in; eauto.
Qed.

Lemma register_ascending c t : keys_ascending t -> keys_ascending (register c t).
Proof.
  intros [S B].
  assert (F : ~ In (nextObjectID t) (keys (objects t))).
  { intros H. apply B in H. lia. }
  unfold keys_ascending. simpl. rewrite keys_set_notin by assumption. split.
  - apply sorted_snoc; [assumption|]. apply Forall_forall. exact B.
  - intros k Hk. apply in_app_iff in Hk as [Hk|[<-|[]]]; [|lia].
    apply B in Hk. lia.
Qed.

Lemma deregister_ascending id t t' :
  deregister id t = Some t' -> keys_ascending t -> keys_ascending t'.
Proof.
  unfold deregister. destruct (dict_mem id (objects t)); [|now intros [= <-]].
  destruct (dict_del id (objects t)) as [o|] eqn:Eo; [|discriminate].
  destruct (dict_del id (disappeared t)) as [d|]; [|discriminate].
  destruct (dict_del id (previousCentroids t)) as [p|]; [|discriminate].
  destruct (dict_del id (counted t)) as [c|]; [|discriminate].
  cbn [bind]. intros [= <-] [S B]. unfold keys_ascending. simpl.
  rewrite (dict_del_keys _ _ _ Eo). split.
  - now apply remove_first_sorted.
  - intros k Hk. apply B. eapply remove_first_in; eauto.
Qed.

Lemma mark_disappeared_ascending t id t' :
  mark_disappeared t id = Some t' -> keys_ascending t -> keys_ascending t'.
Proof.
  unfold mark_disappeared.
  destruct (dict_get id (disappeared t)) as [n|]; [|discriminate].
  cbn [bind]. destruct (n + 1 >? maxDisappeared t).
  - intros E A. apply deregister_ascending in E; [assumption|]. exact A.
  - intros [= <-] A. exact A.
Qed.

Lemma foldM_invariant {A S : Type} (P : S -> Prop) (f : S -> A -> option S)
    (l : list A) :
  (forall s a s', f s a = Some s' -> P s -> P s') ->
  forall s s', foldM f l s = Some s' -> P s -> P s'.
Proof.
  intros Hf. induction l as [|a l IH]; intros s s'; cbn [foldM].
  - now intros [= <-].
  - destruct (f s a) as [s1|] eqn:E; [|discriminate]. cbn [bind].
    intros H Hs. apply (IH s1 s' H). eapply Hf; eauto.
Qed.

Lemma match_step_ascending ids inputs st rc st' :
  match_step ids inputs st rc = Some st' ->
  keys_ascending (tracker st) -> keys_ascending (tracker st').
Proof.
  destruct rc as [r c]. unfold match_step.
  destruct (mem_nat r (usedRows st) || mem_nat c (usedCols st));
    [now intros [= <-]|].
  destruct (nth_error ids r) as [id|]; [|discriminate]. cbn [bind].
  destruct (dict_get id (objects (tracker st))) as [cur|] eqn:G;
    [|discriminate]. cbn [bind].
  destruct (nth_error inputs c) as [inp|]; [|discriminate]. cbn [bind].
  intros [= <-] [S B]. unfold keys_ascending. simpl.
  rewrite keys_set_in by (eapply dict_get_some_in; eauto). split; assumption.
Qed.

Lemma register_all_ascending l :
  forall u, keys_ascending u ->
    keys_ascending (fold_left (fun t c => register c t) l u).
Proof.
  induction l as [|c l IHl]; intros u Hu; simpl; [assumption|].
  apply IHl. now apply register_ascending.
Qed.

Lemma update_ascending inputs t t' :
  update inputs t = Some t' -> keys_ascending t -> keys_ascending t'.
Proof.
  unfold update. destruct inputs as [|p ps].
  - apply foldM_invariant. intros s a s'. apply mark_disappeared_ascending.
  - destruct (objects t) as [|o os] eqn:Eo.
    + intros [= <-] A. apply (register_all_ascending (p :: ps)). exact A.
    + rewrite <- Eo. clear Eo o os. cbv zeta.
      destruct (foldM (match_step (keys (objects t)) (p :: ps)) _ _)
        as [st|] eqn:E1; [|discriminate]. cbn [bind].
      destruct (foldM _ (unused (usedRows st) _) (tracker st))
        as [t2|] eqn:E2; [|discriminate]. cbn [bind].
      intros E3 A.
      assert (A1 : keys_ascending (tracker st)).
      { refine (foldM_invariant (fun s => keys_ascending (tracker s)) _ _ _
                  _ _ E1 A).
        intros s a s'. apply match_step_ascending. }
      assert (A2 : keys_ascending t2).
      { refine (foldM_invariant keys_ascending _ _ _ _ _ E2 A1).
        intros s r s'. destruct (nth_error (keys (objects t)) r);
          [|discriminate]. cbn [bind]. apply mark_disappeared_ascending. }
      refine (foldM_invariant keys_ascending _ _ _ _ _ E3 A2).
      intros s c s'. destruct (nth_error (p :: ps) c); [|discriminate].
      cbn [bind]. intros [= <-]. apply register_ascending.
Qed.

Lemma calls_ascending cs :
  forall t t', foldM call cs t = Some t' ->
    keys_ascending t -> keys_ascending t'.
Proof.
  apply foldM_invariant. intros t c t'. destruct c; simpl.
  - intros [= <-]. apply register_ascending.
  - apply deregister_ascending.
  - apply update_ascending.
Qed.

(** ** Identity assignment and the key sets *)

(** C9. For any sequence of [register], [deregister] and [update] calls on a
    fresh tracker, split at any point: the calls return; [register] writes
    the key [nextObjectID] and increments it, and that counter never goes
    down, so the identities assigned are 0, 1, 2, ... in this order; the
    tracked identities are non-negative, below [nextObjectID] and in
    strictly increasing dictionary order; every identity tracked after the
    split point that was not tracked at it is at least the [nextObjectID]
    of the split point, so that an identity deregistered by then, or ever
    before, is never tracked again; the identities that [update] newly
    tracks are the consecutive ones from [nextObjectID] on.  The history of
    assigned identities (the keys that [register] wrote, in order) only
    grows, is strictly increasing and non-negative, and its part after the
    split point holds the identities from the [nextObjectID] of the split
    point on. *)
Theorem identities_strictly_increasing (m : Z) (calls1 calls2 : list TrackerCall) :
  exists t1 t2 fresh,
    foldM call calls1 (new_tracker m) = Some t1
    /\ foldM call calls2 t1 = Some t2
    /\ registered t2 = registered t1 ++ fresh
    /\ StronglySorted Z.lt (registered t2)
    /\ Forall (fun k => 0 <= k) (registered t2)
    /\ (forall k, In k fresh -> ~ In k (registered t1))
    /\ (forall k, In k (keys (objects t2)) -> In k (registered t2))
    /\ nextObjectID t1 <= nextObjectID t2
    /\ (forall k, In k fresh <-> nextObjectID t1 <= k < nextObjectID t2)
    /\ StronglySorted Z.lt (keys (objects t2))
    /\ (forall k, In k (keys (objects t2)) -> 0 <= k < nextObjectID t2)
    /\ (forall k, In k (keys (objects t2)) ->
          In k (keys (objects t1)) \/ nextObjectID t1 <= k)
    /\ (forall k, k < nextObjectID t1 -> ~ In k (keys (objects t1)) ->
          ~ In k (keys (objects t2)))
    /\ (forall c,
          keys (objects (register c t2))
          = keys (objects t2) ++ [nextObjectID t2]
          /\ dict_get (nextObjectID t2) (objects (register c t2)) = Some c
          /\ nextObjectID (register c t2) = nextObjectID t2 + 1
          /\ registered (register c t2)
             = registered t2 ++ [nextObjectID t2])
    /\ (forall inputs,
          exists t3,
            update inputs t2 = Some t3
            /\ forall k,
                 In k (keys (objects t3)) /\ ~ In k (keys (objects t2))
                 <-> nextObjectID t2 <= k < nextObjectID t3).
Proof.
  destruct (calls_spec calls1 _ (new_tracker_wf m)) as (t1 & E1 & W1 & _).
  destruct (calls_keys calls2 t1 W1) as (t2 & E2 & W2 & Hle & Hkeys).
  pose proof (wf_next t1 W1) as H1. pose proof (wf_next t2 W2) as H2.
  assert (A2 : keys_ascending t2).
  { apply (calls_ascending calls2 t1 t2 E2).
    apply (calls_ascending calls1 (new_tracker m) t1 E1).
    split; [constructor|intros k []]. }
  exists t1, t2,
    (map Z.of_nat (seq (Z.to_nat (nextObjectID t1))
                       (Z.to_nat (nextObjectID t2)
                        - Z.to_nat (nextObjectID t1)))).
  split; [assumption|]. split; [assumption|].
  rewrite (wf_history t1 W1), (wf_history t2 W2).
  split; [apply history_prefix; lia|].
  split; [apply history_sorted|].
  split.
  { apply Forall_forall. intros k H. apply in_map_iff in H as (i & <- & _).
    lia. }
  split.
  { intros k H H'. apply in_map_iff in H as (i & <- & H).
    apply in_map_iff in H' as (j & E & H'). apply in_seq in H, H'. lia. }
  split.
  { intros k H. apply (wf_bound t2 W2) in H. apply in_map_iff.
    exists (Z.to_nat k). split; [lia|]. apply in_seq. lia. }
  split; [assumption|].
  split.
  { intros k. split.
    - intros H. apply in_map_iff in H as (i & <- & H). apply in_seq in H.
      lia.
    - intros H. apply in_map_iff. exists (Z.to_nat k). split; [lia|].
      apply in_seq. lia. }
  split; [apply A2|].
  split; [apply (wf_bound t2 W2)|].
  split; [assumption|].
  split.
  { intros k Hk Hout Hin. destruct (Hkeys k Hin); [contradiction|lia]. }
  split.
  { intros c. simpl.
    rewrite keys_set_notin by now apply fresh_key.
    split; [reflexivity|]. split; [apply dict_get_set_same|].
    split; [reflexivity|now rewrite (wf_history t2 W2)]. }
  intros inputs.
  destruct (update_spec inputs t2 W2)
    as (t3 & E3 & W3 & _ & Hn & _ & _ & _ & Hnew).
  destruct (update_cases inputs t2 W2) as (t3' & E3' & _ & _ & _ & Hk).
  rewrite E3 in E3'. injection E3' as <-.
  exists t3. split; [assumption|]. intros k. split.
  - intros [Hin Hout]. split; [|apply (wf_bound t3 W3 k Hin)].
    destruct (Hk k Hin) as [(H & _)|[(H & _)|(H & _)]];
      [assumption|contradiction|contradiction].
  - intros [Hge Hlt]. rewrite Hn in Hlt.
    destruct (nth_error (new_centroids inputs t2)
                (Z.to_nat (k - nextObjectID t2))) as [c|] eqn:Ec;
      [|apply nth_error_None in Ec; lia].
    specialize (Hnew _ c Ec).
    replace (nextObjectID t2 + Z.of_nat (Z.to_nat (k - nextObjectID t2)))
      with k in Hnew by lia.
    unfold view in Hnew. injection Hnew as Ho _ _ _. split.
    + eapply dict_get_some_in; eauto.
    + intros Hin. apply (wf_bound t2 W2) in Hin. lia.
Qed.

(** C10. After any sequence of [register], [deregister] and [update] calls
    on a fresh tracker the four dictionaries have the same keys, in the same
    order, so every identity of the returned mapping has a disappearance
    count, a previous centroid and a counted flag. *)
Theorem dictionaries_share_keys (m : Z) (calls : list TrackerCall) :
  exists t,
    foldM call calls (new_tracker m) = Some t
    /\ keys (disappeared t) = keys (objects t)
    /\ keys (previousCentroids t) = keys (objects t)
    /\ keys (counted t) = keys (objects t)
    /\ forall k c, dict_get k (objects t) = Some c ->
         exists n p b,
           dict_get k (disappeared t) = Some n
           /\ dict_get k (previousCentroids t) = Some p
           /\ dict_get k (counted t) = Some b.
Proof.
  destruct (calls_spec calls _ (new_tracker_wf m)) as (t & E & W & _).
  exists t. split; [assumption|]. destruct W as [Hd Hp Hc _ _ _ _].
  repeat (split; [assumption|]).
  intros k c H. apply dict_get_some_in in H.
  destruct (dict_get_in (disappeared t) k) as [n En]; [now rewrite Hd|].
  destruct (dict_get_in (previousCentroids t) k) as [p Ep]; [now rewrite Hp|].
  destruct (dict_get_in (counted t) k) as [b Eb]; [now rewrite Hc|].
  eauto 7.
Qed.

(** ** Disappearance tolerance *)

Lemma unmatched_not_in k inputs t :
  unmatched k inputs t = true -> ~ In k (matched_ids inputs t).
Proof.
  unfold unmatched. rewrite negb_true_iff. intros H Hin.
  assert (E : existsb (Z.eqb k) (matched_ids inputs t) = true);
    [|congruence].
  apply existsb_exists. exists k. split; [assumption|apply Z.eqb_refl].
Qed.

Lemma unmatched_step k n f t :
  wf t -> dict_get k (disappeared t) = Some n -> unmatched k f t = true ->
  exists t',
    update f t = Some t' /\ wf t' /\ maxDisappeared t' = maxDisappeared t
    /\ aged t t' k n.
Proof.
  intros W En Hu.
  destruct (update_spec f t W) as (t' & E & W' & Hm & _ & _ & Ha & _).
  exists t'. split; [assumption|]. split; [assumption|].
  split; [assumption|]. apply Ha; [|now apply unmatched_not_in|assumption].
  rewrite <- (wf_disappeared t W). eapply dict_get_some_in; eauto.
Qed.

Lemma unmatched_run k frames :
  forall t n,
    wf t -> dict_get k (disappeared t) = Some n ->
    n + Z.of_nat (length frames) <= maxDisappeared t ->
    unmatched_throughout k frames t = true ->
    exists t',
      updates frames t = Some t' /\ wf t'
      /\ maxDisappeared t' = maxDisappeared t
      /\ dict_get k (disappeared t') = Some (n + Z.of_nat (length frames)).
Proof.
  unfold updates.
  induction frames as [|f fs IH]; intros t n W En Hle Hu.
  - exists t. simpl. rewrite Z.add_0_r. auto.
  - simpl in Hu. apply andb_true_iff in Hu as [Hu Hrest].
    destruct (unmatched_step k n f t W En Hu) as (t1 & E1 & W1 & Hm1 & Ha).
    rewrite E1 in Hrest. simpl. rewrite E1. cbn [bind].
    unfold aged in Ha. simpl length in Hle.
    destruct (Z.gtb_spec (n + 1) (maxDisappeared t)) as [Hgt|_]; [lia|].
    unfold view in Ha. injection Ha as _ Hd _ _.
    destruct (IH t1 (n + 1) W1) as (t' & E' & W' & Hm' & Hd');
      [assumption|lia|assumption|].
    exists t'. split; [assumption|]. split; [assumption|].
    split; [congruence|]. rewrite Hd'. f_equal. simpl length. lia.
Qed.

(** C7. With tolerance 40, an identity with count 0 that stays unmatched
    through 40 successive [update] calls, with empty or non-empty input, is
    still tracked after the 40th, with count 40, and is gone after a 41st
    call that leaves it unmatched. *)
Theorem disappearance_tolerance_40 (t : CentroidTracker) (k : Z)
    (frames : list (list Centroid)) (last : list Centroid) :
  wf t -> maxDisappeared t = 40 ->
  dict_get k (disappeared t) = Some 0 ->
  length frames = 40%nat ->
  unmatched_throughout k (frames ++ [last]) t = true ->
  exists t40 t41,
    updates frames t = Some t40
    /\ In k (keys (objects t40))
    /\ dict_get k (disappeared t40) = Some 40
    /\ update last t40 = Some t41
    /\ ~ In k (keys (objects t41)).
Proof.
  intros W Hm E0 Hlen Hu.
  assert (Hsplit : forall fs u,
            unmatched_throughout k (fs ++ [last]) u = true ->
            unmatched_throughout k fs u = true
            /\ forall u', updates fs u = Some u' -> unmatched k last u' = true).
  { unfold updates. induction fs as [|f fs IH]; intros u H; simpl in *.
    - apply andb_true_iff in H as [H _]. split; [reflexivity|].
      now intros u' [= <-].
    - apply andb_true_iff in H as [H1 H2].
      destruct (update f u) as [u1|]; [|discriminate].
      destruct (IH u1 H2) as [H3 H4]. rewrite H1, H3. auto. }
  destruct (Hsplit frames t Hu) as [Hfs Hlast].
  destruct (unmatched_run k frames t 0 W E0) as (t40 & E & W40 & Hm40 & Hd);
    [rewrite Hlen, Hm; lia|assumption|].
  rewrite Hlen in Hd. change (0 + Z.of_nat 40) with 40 in Hd.
  destruct (unmatched_step k 40 last t40 W40 Hd (Hlast t40 E))
    as (t41 & E41 & _ & _ & Ha).
  unfold aged in Ha. rewrite Hm40, Hm in Ha.
  change (40 + 1 >? 40) with true in Ha.
  exists t40, t41. split; [assumption|]. split; [|auto].
  rewrite <- (wf_disappeared t40 W40). eapply dict_get_some_in; eauto.
Qed.

Lemma disappearance_tolerance_40_witness :
  wf tolerance_tracker
  /\ maxDisappeared tolerance_tracker = 40
  /\ dict_get 1 (disappeared tolerance_tracker) = Some 0
  /\ length tolerance_frames = 40%nat
  /\ unmatched_throughout 1 (tolerance_frames ++ [[(1, 0)]])
       tolerance_tracker = true
  /\ exists t40 t41,
       updates tolerance_frames tolerance_tracker = Some t40
       /\ In 1 (keys (objects t40))
       /\ dict_get 1 (disappeared t40) = Some 40
       /\ update [(1, 0)] t40 = Some t41
       /\ ~ In 1 (keys (objects t41)).
Proof.
  assert (W : wf tolerance_tracker)
    by apply register_wf, register_wf, new_tracker_wf.
  assert (U : unmatched_throughout 1 (tolerance_frames ++ [[(1, 0)]])
                tolerance_tracker = true) by (vm_compute; reflexivity).
  split; [exact W|]. split; [reflexivity|]. split; [reflexivity|].
  split; [reflexivity|]. split; [exact U|].
  exact (disappearance_tolerance_40 tolerance_tracker 1 tolerance_frames
           [(1, 0)] W eq_refl eq_refl eq_refl U).
Defined.

(** ** The greedy pairing *)










Lemma matched_col_has_row inputs t c :
  wf t -> inputs <> [] ->
  In c (matched_cols inputs t) -> exists r, In (r, c) (matches inputs t).
Proof.
  intros W Hne H. rewrite matches_accepted by assumption.
  destruct (matched_rows_accepted inputs t W Hne) as [_ EC].
  rewrite EC in H. apply in_rev, in_map_iff in H as ([r c'] & <- & H).
  exists r. now apply -> in_rev.
Qed.



(** ** The counted flag *)

Lemma update_flags inputs t :
  wf t ->
  exists t',
    update inputs t = Some t' /\ wf t'
    /\ nextObjectID t <= nextObjectID t'
    /\ (forall k, k < nextObjectID t ->
          dict_get k (counted t') = Some false ->
          dict_get k (counted t) = Some false).
Proof.
  intros W.
  destruct (update_spec inputs t W)
    as (t' & E & W' & _ & Hn & Hdead & Hage & Hm & _).
  exists t'. split; [assumption|]. split; [assumption|]. split; [lia|].
  intros k Hk Hf.
  destruct (in_dec Z.eq_dec k (keys (objects t))) as [Hin|Hout].
  - destruct (in_dec Z.eq_dec k (matched_ids inputs t)) as [Hmat|Hun].
    + destruct (matched_id_pair inputs t k W Hmat) as (r & c & p & H & Er & Ec).
      specialize (Hm r c k p H Er Ec). unfold view in Hm.
      injection Hm as _ _ _ Hc. congruence.
    + destruct (dict_get_in (disappeared t) k) as [n En];
        [now rewrite (wf_disappeared t W)|].
      specialize (Hage k n Hin Hun En). unfold aged in Hage.
      destruct (n + 1 >? maxDisappeared t).
      * exfalso. apply Hage. rewrite <- (wf_counted t' W').
        eapply dict_get_some_in; eauto.
      * unfold view in Hage. injection Hage as _ _ _ Hc. congruence.
  - specialize (Hdead k Hout Hk). apply view_fields in Hdead as (_ & _ & _ & Hc).
    congruence.
Qed.

Lemma mark_counted_wf k t :
  wf t -> In k (keys (objects t)) -> wf (mark_counted k t).
Proof.
  intros [H1 H2 H3 H4 H5 H6 H7] Hin.
  constructor; simpl; try assumption.
  rewrite keys_set_in; [assumption|now rewrite H3].
Qed.

Lemma flags_back_refl t : flags_back t t.
Proof. split; [lia|auto]. Qed.

Lemma flags_back_trans t1 t2 t3 :
  flags_back t1 t2 -> flags_back t2 t3 -> flags_back t1 t3.
Proof.
  intros [H1 B1] [H2 B2]. split; [lia|].
  intros k Hk Hf. apply B1; [assumption|]. apply B2; [lia|assumption].
Qed.

Lemma counted_inv_update inputs t ids :
  counted_inv t ids ->
  exists t',
    update inputs t = Some t' /\ counted_inv t' ids /\ flags_back t t'.
Proof.
  intros (W & Hn & Hc).
  destruct (update_flags inputs t W) as (t' & E & W' & Hle & Hb).
  exists t'. split; [assumption|]. split; [|split; assumption].
  split; [assumption|]. split; [assumption|].
  intros k Hk. destruct (Hc k Hk) as [Hlt Hf]. split; [lia|].
  intros H. apply Hf. now apply Hb.
Qed.

Lemma counted_inv_mark t ids k :
  counted_inv t ids -> In k (keys (objects t)) ->
  dict_get k (counted t) = Some false ->
  counted_inv (mark_counted k t) ids
  /\ counted_inv (mark_counted k t) (ids ++ [k]).
Proof.
  intros (W & Hn & Hc) Hin Hf.
  assert (W' : wf (mark_counted k t)) by now apply mark_counted_wf.
  assert (Hnot : ~ In k ids).
  { intros H. destruct (Hc k H) as [_ H']. contradiction. }
  assert (Hold : forall j, In j ids ->
            j < nextObjectID (mark_counted k t)
            /\ dict_get j (counted (mark_counted k t)) <> Some false).
  { intros j Hj. destruct (Hc j Hj) as [Hlt Hj']. split; [assumption|].
    simpl. rewrite dict_get_set_other; [assumption|].
    intros ->. contradiction. }
  split; (split; [assumption|]); split; try assumption.
  - apply NoDup_app; [assumption|repeat constructor; simpl; tauto|].
    intros j Hj [<-|[]]. contradiction.
  - intros j Hj. apply in_app_iff in Hj as [Hj|[<-|[]]]; [auto|].
    split; [apply (wf_bound t W), Hin|].
    simpl. rewrite dict_get_set_same. discriminate.
Qed.

Lemma mark_counted_back k t j :
  dict_get j (counted (mark_counted k t)) = Some false ->
  dict_get j (counted t) = Some false.
Proof.
  simpl. destruct (Z.eq_dec j k) as [->|N].
  - rewrite dict_get_set_same. discriminate.
  - now rewrite dict_get_set_other.
Qed.

Lemma counting_step_refl t ids n :
  counted_inv t ids -> counting_step t ids n t ids n.
Proof.
  intros H. split; [assumption|]. split; [reflexivity|].
  split; [reflexivity|]. split; auto.
Qed.

Lemma counting_step_mark t ids n k :
  counted_inv t ids -> In k (keys (objects t)) ->
  dict_get k (counted t) = Some false ->
  counting_step t ids n (mark_counted k t) ids n
  /\ counting_step t ids n (mark_counted k t) (ids ++ [k]) (n + 1).
Proof.
  intros I Hin Hf. destruct (counted_inv_mark t ids k I Hin Hf) as [I1 I2].
  split; (split; [assumption|]); (split; [reflexivity|]);
    (split; [reflexivity|]); (split; [apply mark_counted_back|]); auto.
  intros ->. rewrite length_app. simpl. lia.
Qed.

Lemma count_crossing_step o alg md pt1 pt2 st id c :
  counted_inv (ct st) (map fst (events st)) ->
  In id (keys (objects (ct st))) ->
  exists st',
    count_crossing o alg md pt1 pt2 st (id, c) = Some st'
    /\ counting_step (ct st) (map fst (events st)) (count1 st + count2 st)
         (ct st') (map fst (events st')) (count1 st' + count2 st').
Proof.
  intros I Hin. unfold count_crossing.
  destruct (dict_get_in (counted (ct st)) id) as [b Eb];
    [now rewrite (wf_counted _ (proj1 I))|].
  rewrite Eb. cbn [bind].
  destruct b; [exists st; split; [reflexivity|now apply counting_step_refl]|].
  match goal with |- context [crossed o pt1 pt2 ?p c] =>
    set (prev := p) end.
  destruct (crossed o pt1 pt2 prev c);
    [|exists st; split; [reflexivity|now apply counting_step_refl]].
  destruct (below_threshold alg md (displacement o prev c));
    [exists st; split; [reflexivity|now apply counting_step_refl]|].
  destruct (counting_step_mark (ct st) (map fst (events st))
              (count1 st + count2 st) id I Hin Eb) as [S1 S2].
  eexists. split; [reflexivity|].
  destruct (bucket_of o pt1 pt2 prev c) as [bk|]; simpl.
  - rewrite map_app. simpl.
    replace ((if first_bucket bk then count1 st + 1 else count1 st)
             + (if first_bucket bk then count2 st else count2 st + 1))
      with (count1 st + count2 st + 1)
      by (destruct (first_bucket bk); lia).
    exact S2.
  - exact S1.
Qed.

Lemma count_unique_step st id c :
  counted_inv (uct st) (counted_ids st) ->
  In id (keys (objects (uct st))) ->
  exists st',
    count_unique st (id, c) = Some st'
    /\ counting_step (uct st) (counted_ids st) (total_count st)
         (uct st') (counted_ids st') (total_count st').
Proof.
  intros I Hin. unfold count_unique.
  destruct (dict_get_in (counted (uct st)) id) as [b Eb];
    [now rewrite (wf_counted _ (proj1 I))|].
  rewrite Eb. cbn [bind].
  destruct b; [exists st; split; [reflexivity|now apply counting_step_refl]|].
  eexists. split; [reflexivity|]. simpl.
  now apply counting_step_mark.
Qed.

Lemma counting_step_trans t ids n t1 ids1 n1 t2 ids2 n2 :
  counting_step t ids n t1 ids1 n1 ->
  counting_step t1 ids1 n1 t2 ids2 n2 ->
  counting_step t ids n t2 ids2 n2.
Proof.
  intros (_ & K1 & N1 & B1 & C1) (I2 & K2 & N2 & B2 & C2).
  split; [assumption|]. split; [congruence|]. split; [congruence|].
  split; auto.
Qed.

Lemma count_crossing_loop o alg md pt1 pt2 items :
  forall st,
    counted_inv (ct st) (map fst (events st)) ->
    (forall id c, In (id, c) items -> In id (keys (objects (ct st)))) ->
    exists st',
      foldM (count_crossing o alg md pt1 pt2) items st = Some st'
      /\ counting_step (ct st) (map fst (events st)) (count1 st + count2 st)
           (ct st') (map fst (events st')) (count1 st' + count2 st').
Proof.
  induction items as [|[id c] items IH]; intros st I Hin; cbn [foldM].
  - exists st. split; [reflexivity|now apply counting_step_refl].
  - destruct (count_crossing_step o alg md pt1 pt2 st id c I)
      as (st1 & E1 & S1); [apply (Hin id c); now left|].
    rewrite E1. cbn [bind].
    destruct (IH st1) as (st' & E' & S'); [apply S1| |].
    + intros id' c' H. destruct S1 as (_ & K & _). rewrite K.
      apply (Hin id' c'). now right.
    + exists st'. split; [assumption|].
      eapply counting_step_trans; eauto.
Qed.

Lemma count_unique_loop items :
  forall st,
    counted_inv (uct st) (counted_ids st) ->
    (forall id c, In (id, c) items -> In id (keys (objects (uct st)))) ->
    exists st',
      foldM count_unique items st = Some st'
      /\ counting_step (uct st) (counted_ids st) (total_count st)
           (uct st') (counted_ids st') (total_count st').
Proof.
  induction items as [|[id c] items IH]; intros st I Hin; cbn [foldM].
  - exists st. split; [reflexivity|now apply counting_step_refl].
  - destruct (count_unique_step st id c I) as (st1 & E1 & S1);
      [apply (Hin id c); now left|].
    rewrite E1. cbn [bind].
    destruct (IH st1) as (st' & E' & S'); [apply S1| |].
    + intros id' c' H. destruct S1 as (_ & K & _). rewrite K.
      apply (Hin id' c'). now right.
    + exists st'. split; [assumption|].
      eapply counting_step_trans; eauto.
Qed.

Lemma items_live (t : CentroidTracker) id (c : Centroid) :
  In (id, c) (objects t) -> In id (keys (objects t)).
Proof. intros H. apply in_map_iff. now exists (id, c). Qed.

Lemma frame_directional lo alg md st f :
  counted_inv (ct st) (map fst (events st)) ->
  exists st',
    process_frame_directional lo alg md st f = Some st'
    /\ counted_inv (ct st') (map fst (events st'))
    /\ flags_back (ct st) (ct st')
    /\ (count1 st + count2 st = Z.of_nat (length (map fst (events st))) ->
        count1 st' + count2 st'
        = Z.of_nat (length (map fst (events st')))).
Proof.
  intros I. unfold process_frame_directional.
  destruct (line_points lo (frame_height f) (frame_width f)) as [pt1 pt2].
  destruct (counted_inv_update (detections f) _ _ I) as (t1 & E1 & I1 & B1).
  rewrite E1. cbn [bind].
  destruct (count_crossing_loop (orientation lo) alg md pt1 pt2 (objects t1)
              (mkCounting t1 (count1 st) (count2 st) (events st)) I1)
    as (st' & E' & I' & K' & N' & B' & C'); [apply items_live|].
  simpl in *. exists st'. split; [assumption|]. split; [assumption|].
  split; [|assumption].
  destruct B1 as [Hle Hb]. split; [lia|]. intros k Hk Hf. auto.
Qed.

Lemma frame_unique st f :
  counted_inv (uct st) (counted_ids st) ->
  exists st',
    process_frame_unique st f = Some st'
    /\ counted_inv (uct st') (counted_ids st')
    /\ flags_back (uct st) (uct st')
    /\ (total_count st = Z.of_nat (length (counted_ids st)) ->
        total_count st' = Z.of_nat (length (counted_ids st'))).
Proof.
  intros I. unfold process_frame_unique.
  destruct (counted_inv_update (detections f) _ _ I) as (t1 & E1 & I1 & B1).
  rewrite E1. cbn [bind].
  destruct (count_unique_loop (objects t1)
              (mkUnique t1 (total_count st) (counted_ids st)) I1)
    as (st' & E' & I' & K' & N' & B' & C'); [apply items_live|].
  simpl in *. exists st'. split; [assumption|]. split; [assumption|].
  split; [|assumption].
  destruct B1 as [Hle Hb]. split; [lia|]. intros k Hk Hf. auto.
Qed.

Lemma run_directional_spec lo alg md frames :
  forall st,
    counted_inv (ct st) (map fst (events st)) ->
    exists st',
      run_directional lo alg md frames st = Some st'
      /\ counted_inv (ct st') (map fst (events st'))
      /\ flags_back (ct st) (ct st')
      /\ (count1 st + count2 st = Z.of_nat (length (map fst (events st))) ->
          count1 st' + count2 st'
          = Z.of_nat (length (map fst (events st')))).
Proof.
  unfold run_directional.
  induction frames as [|f frames IH]; intros st I; cbn [foldM].
  - exists st. split; [reflexivity|]. split; [assumption|].
    split; [apply flags_back_refl|auto].
  - destruct (frame_directional lo alg md st f I) as (s1 & E1 & I1 & B1 & C1).
    rewrite E1. cbn [bind].
    destruct (IH s1 I1) as (st' & E' & I' & B' & C').
    exists st'. split; [assumption|]. split; [assumption|].
    split; [eapply flags_back_trans; eauto|auto].
Qed.

Lemma run_unique_spec frames :
  forall st,
    counted_inv (uct st) (counted_ids st) ->
    exists st',
      run_unique frames st = Some st'
      /\ counted_inv (uct st') (counted_ids st')
      /\ flags_back (uct st) (uct st')
      /\ (total_count st = Z.of_nat (length (counted_ids st)) ->
          total_count st' = Z.of_nat (length (counted_ids st'))).
Proof.
  unfold run_unique.
  induction frames as [|f frames IH]; intros st I; cbn [foldM].
  - exists st. split; [reflexivity|]. split; [assumption|].
    split; [apply flags_back_refl|auto].
  - destruct (frame_unique st f I) as (s1 & E1 & I1 & B1 & C1).
    rewrite E1. cbn [bind].
    destruct (IH s1 I1) as (st' & E' & I' & B' & C').
    exists st'. split; [assumption|]. split; [assumption|].
    split; [eapply flags_back_trans; eauto|auto].
Qed.

Lemma counted_inv_new m : counted_inv (new_tracker m) [].
Proof.
  split; [apply new_tracker_wf|]. split; [constructor|]. intros k [].
Qed.

Lemma flag_never_back t t' k :
  wf t -> flags_back t t' ->
  dict_get k (counted t) = Some true ->
  dict_get k (counted t') <> Some false.
Proof.
  intros W [_ Hb] Ht Hf.
  assert (Hk : k < nextObjectID t).
  { apply (wf_bound t W). rewrite <- (wf_counted t W).
    eapply dict_get_some_in; eauto. }
  specialize (Hb k Hk Hf). congruence.
Qed.

(** C8. In both counting modes and for every sequence of frames, split at
    any point: the run returns, no identity has more than one counted event,
    the counters add up to the number of events, and an identity whose flag
    is true at the split point never has it false afterwards. *)
Theorem counted_at_most_once (lo : LineOptions) (alg : CountingAlgorithm)
    (min_disp : Z) (frames1 frames2 : list Frame) :
  (exists s1 s2,
      run_directional lo alg min_disp frames1
        (mkCounting (new_tracker 40) 0 0 []) = Some s1
      /\ run_directional lo alg min_disp frames2 s1 = Some s2
      /\ NoDup (map fst (events s2))
      /\ count1 s2 + count2 s2 = Z.of_nat (length (events s2))
      /\ forall k, dict_get k (counted (ct s1)) = Some true ->
           dict_get k (counted (ct s2)) <> Some false)
  /\ (exists u1 u2,
        run_unique frames1 (mkUnique (new_tracker 40) 0 []) = Some u1
        /\ run_unique frames2 u1 = Some u2
        /\ NoDup (counted_ids u2)
        /\ total_count u2 = Z.of_nat (length (counted_ids u2))
        /\ forall k, dict_get k (counted (uct u1)) = Some true ->
             dict_get k (counted (uct u2)) <> Some false).
Proof.
  split.
  - destruct (run_directional_spec lo alg min_disp frames1
                (mkCounting (new_tracker 40) 0 0 []) (counted_inv_new 40))
      as (s1 & E1 & I1 & _ & C1).
    destruct (run_directional_spec lo alg min_disp frames2 s1 I1)
      as (s2 & E2 & I2 & B2 & C2).
    exists s1, s2. split; [assumption|]. split; [assumption|].
    split; [apply I2|]. split.
    + rewrite <- (length_map fst (events s2)). apply C2, C1. reflexivity.
    + intros k. apply flag_never_back; [apply I1|assumption].
  - destruct (run_unique_spec frames1 (mkUnique (new_tracker 40) 0 [])
                (counted_inv_new 40)) as (u1 & E1 & I1 & _ & C1).
    destruct (run_unique_spec frames2 u1 I1) as (u2 & E2 & I2 & B2 & C2).
    exists u1, u2. split; [assumption|]. split; [assumption|].
    split; [apply I2|]. split.
    + apply C2, C1. reflexivity.
    + intros k. apply flag_never_back; [apply I1|assumption].
Qed.

(** ** The crossing decision for one identity *)

Lemma count_crossing_uncounted o alg md pt1 pt2 st id c prev :
  dict_get id (counted (ct st)) = Some false ->
  dict_get id (previousCentroids (ct st)) = Some prev ->
  count_crossing o alg md pt1 pt2 st (id, c)
  = Some (if crossed o pt1 pt2 prev c
             && negb (below_threshold alg md (displacement o prev c))
          then match bucket_of o pt1 pt2 prev c with
               | Some b => recorded id b st
               | None => mkCounting (mark_counted id (ct st)) (count1 st)
                                    (count2 st) (events st)
               end
          else st).
Proof.
  intros Hc Hp. unfold count_crossing. rewrite Hc, Hp. cbn [bind].
  destruct (crossed o pt1 pt2 prev c); [|reflexivity].
  destruct (below_threshold alg md (displacement o prev c)); [reflexivity|].
  simpl. destruct (bucket_of o pt1 pt2 prev c); reflexivity.
Qed.

Lemma crossed_bucket o pt1 pt2 prev c :
  crossed o pt1 pt2 prev c = true ->
  exists b, bucket_of o pt1 pt2 prev c = Some b.
Proof.
  destruct o; simpl.
  - destruct (crosses_up pt1 prev c); [eauto|]. simpl. intros ->. eauto.
  - destruct (crosses_left pt1 prev c); [eauto|]. simpl. intros ->. eauto.
  - intros _. destruct (cross_num pt1 pt2 prev >? 0); eauto.
  - discriminate.
Qed.

Lemma app_one_neq {A : Type} (l : list A) x : l <> l ++ [x].
Proof.
  intros H. apply (f_equal (@length A)) in H. rewrite length_app in H.
  simpl in H. lia.
Qed.

Lemma recorded_events id b b' st :
  events (recorded id b st) = events st ++ [(id, b')] <-> b = b'.
Proof.
  simpl. split; [|now intros ->].
  intros H. apply app_inv_head in H. congruence.
Qed.

(** The events after the loop body ran on an uncounted identity: bucket [b]
    is appended exactly when the crossing is detected, passes the gate and
    goes to [b]. *)
Lemma count_crossing_event o alg md pt1 pt2 st id c prev b :
  dict_get id (counted (ct st)) = Some false ->
  dict_get id (previousCentroids (ct st)) = Some prev ->
  exists st',
    count_crossing o alg md pt1 pt2 st (id, c) = Some st'
    /\ (events st' = events st ++ [(id, b)]
        <-> crossed o pt1 pt2 prev c = true
            /\ below_threshold alg md (displacement o prev c) = false
            /\ bucket_of o pt1 pt2 prev c = Some b).
Proof.
  intros Hc Hp. eexists.
  split; [apply (count_crossing_uncounted _ _ _ _ _ _ _ _ prev Hc Hp)|].
  destruct (crossed o pt1 pt2 prev c) eqn:Ec; simpl.
  - destruct (below_threshold alg md (displacement o prev c)); simpl.
    + split; [intros H; now apply app_one_neq in H|].
      intros (_ & H & _). discriminate.
    + destruct (crossed_bucket _ _ _ _ _ Ec) as [b' Eb]. rewrite Eb.
      rewrite recorded_events. split; [intros ->; auto|].
      intros (_ & _ & [= ->]). reflexivity.
  - split; [intros H; now apply app_one_neq in H|].
    intros (H & _). discriminate.
Qed.







(** The state after the loop body ran on an uncounted identity: a crossing
    that passes the gate is recorded in its bucket, with the counter of
    the bucket incremented and the flag set; otherwise nothing changes. *)
Lemma count_crossing_cases o alg md pt1 pt2 st id c prev :
  dict_get id (counted (ct st)) = Some false ->
  dict_get id (previousCentroids (ct st)) = Some prev ->
  exists st',
    count_crossing o alg md pt1 pt2 st (id, c) = Some st'
    /\ (forall b,
          crossed o pt1 pt2 prev c = true ->
          below_threshold alg md (displacement o prev c) = false ->
          bucket_of o pt1 pt2 prev c = Some b -> st' = recorded id b st)
    /\ (crossed o pt1 pt2 prev c = false
        \/ below_threshold alg md (displacement o prev c) = true ->
        st' = st).
Proof.
  intros Hc Hp. eexists.
  split; [apply (count_crossing_uncounted _ _ _ _ _ _ _ _ prev Hc Hp)|].
  split.
  - intros b -> -> ->. reflexivity.
  - intros [-> | ->]; [reflexivity|].
    now destruct (crossed o pt1 pt2 prev c).
Qed.

(** ** Horizontal and vertical lines *)




(** ** Displacement gate *)

(** C5. For an uncounted identity with a detected crossing: the
    displacement is the absolute change of y (horizontal line), of x
    (vertical line) or of x + y (otherwise); under the threshold algorithm
    a displacement below the minimum leaves the state as it was, with no
    event and the flag false, and a displacement of at least the minimum is
    recorded, so that a later crossing of the same identity still counts;
    under the standard algorithm the crossing is recorded at once. *)
Theorem displacement_gating (o : Orientation) (min_disp : Z)
    (pt1 pt2 : Centroid) (st : Counting) (id : Z)
    (centroid prev : Centroid) :
  dict_get id (counted (ct st)) = Some false ->
  dict_get id (previousCentroids (ct st)) = Some prev ->
  crossed o pt1 pt2 prev centroid = true ->
  displacement o prev centroid
  = match o with
    | Horizontal => Z.abs (snd centroid - snd prev)
    | Vertical => Z.abs (fst centroid - fst prev)
    | _ => Z.abs ((fst centroid + snd centroid) - (fst prev + snd prev))
    end
  /\ (displacement o prev centroid < min_disp ->
      count_crossing o Threshold min_disp pt1 pt2 st (id, centroid) = Some st)
  /\ exists b,
       bucket_of o pt1 pt2 prev centroid = Some b
       /\ dict_get id (counted (ct (recorded id b st))) = Some true
       /\ (min_disp <= displacement o prev centroid ->
           count_crossing o Threshold min_disp pt1 pt2 st (id, centroid)
           = Some (recorded id b st))
       /\ count_crossing o Standard min_disp pt1 pt2 st (id, centroid)
          = Some (recorded id b st).
Proof.
  intros Hc Hp Hx. split; [now destruct o|].
  pose proof (count_crossing_uncounted o Threshold min_disp pt1 pt2 st id
                centroid prev Hc Hp) as HT.
  pose proof (count_crossing_uncounted o Standard min_disp pt1 pt2 st id
                centroid prev Hc Hp) as HS.
  rewrite Hx in HT, HS. cbn [andb negb below_threshold] in HT, HS.
  destruct (crossed_bucket _ _ _ _ _ Hx) as [b Eb]. rewrite Eb in HT, HS.
  split.
  - intros Hlt. rewrite HT.
    now destruct (Z.ltb_spec (displacement o prev centroid) min_disp);
      [|lia].
  - exists b. split; [exact Eb|]. split.
    + simpl. apply dict_get_set_same.
    + split; [|exact HS]. intros Hge. rewrite HT.
      now destruct (Z.ltb_spec (displacement o prev centroid) min_disp);
        [lia|].
Qed.

(** The gating example of the spec, with minimum 15: the step from y = 105
    to y = 98 crosses the line y = 100 with displacement 7 and is not
    recorded; over the three frames of [gating_frames] the identity is then
    counted once, DOWN, on its later step of displacement 22. *)
Lemma displacement_gating_witness :
  dict_get 0 (counted (ct (one_object (50, 105)))) = Some false
  /\ dict_get 0 (previousCentroids (ct (one_object (50, 105))))
     = Some (50, 105)
  /\ crossed Horizontal (0, 100) (300, 100) (50, 105) (50, 98) = true
  /\ count_crossing Horizontal Threshold 15 (0, 100) (300, 100)
       (one_object (50, 105)) (0, (50, 98)) = Some (one_object (50, 105))
  /\ option_map events
       (run_directional (mkLine Horizontal (1 # 2) Diag1) Threshold 15
          gating_frames (mkCounting (new_tracker 40) 0 0 []))
     = Some [(0, DOWN)].
Proof.
  split; [reflexivity|]. split; [reflexivity|]. split; [reflexivity|].
  split; [|reflexivity].
  destruct (displacement_gating Horizontal 15 (0, 100) (300, 100)
              (one_object (50, 105)) 0 (50, 98) (50, 105)
              eq_refl eq_refl eq_refl) as (_ & Hgate & _).
  apply Hgate. reflexivity.
Defined.

(** ** Diagonal line *)

Lemma line_norm_pos pt1 pt2 : (0 < line_norm pt1 pt2)%R.
Proof.
  unfold line_norm.
  set (x := sqrt _).
  destruct (Req_dec_T x 0%R) as [E|N]; [lra|].
  pose proof (sqrt_pos
    (IZR (fst pt2 - fst pt1) * IZR (fst pt2 - fst pt1)
     + IZR (snd pt2 - snd pt1) * IZR (snd pt2 - snd pt1))%R) as H.
  fold x in H. lra.
Qed.

Lemma line_norm_spec pt1 pt2 :
  let len := sqrt (IZR (fst pt2 - fst pt1) * IZR (fst pt2 - fst pt1)
                   + IZR (snd pt2 - snd pt1) * IZR (snd pt2 - snd pt1))%R in
  (len = 0%R -> line_norm pt1 pt2 = 1%R)
  /\ (len <> 0%R -> line_norm pt1 pt2 = len).
Proof.
  simpl. unfold line_norm.
  destruct (Req_dec_T _ 0%R) as [E|N]; split; intros H; try reflexivity;
    contradiction.
Qed.

Lemma signed_distance_sign pt1 pt2 p :
  ((signed_distance pt1 pt2 p > 0)%R <-> cross_num pt1 pt2 p > 0)
  /\ ((signed_distance pt1 pt2 p < 0)%R <-> cross_num pt1 pt2 p < 0).
Proof.
  unfold signed_distance. pose proof (line_norm_pos pt1 pt2) as HN.
  set (N := line_norm pt1 pt2) in *. set (n := cross_num pt1 pt2 p).
  assert (Hi : (0 < / N)%R) by now apply Rinv_0_lt_compat.
  unfold Rdiv. split; split; intros H.
  - apply Z.lt_gt, lt_IZR. destruct (Rle_or_lt (IZR n) 0) as [Hle|Hgt]; [|lra].
    exfalso. assert (IZR n * / N <= 0)%R by nra. lra.
  - apply Z.gt_lt, IZR_lt in H. apply Rlt_gt. now apply Rmult_lt_0_compat.
  - apply lt_IZR. destruct (Rle_or_lt 0 (IZR n)) as [Hle|Hgt]; [|lra].
    exfalso. assert (0 <= IZR n * / N)%R by nra. lra.
  - apply IZR_lt in H. nra.
Qed.

Lemma signed_distance_product pt1 pt2 p q :
  (signed_distance pt1 pt2 p * signed_distance pt1 pt2 q < 0)%R
  <-> cross_num pt1 pt2 p * cross_num pt1 pt2 q < 0.
Proof.
  unfold signed_distance. pose proof (line_norm_pos pt1 pt2) as HN.
  set (N := line_norm pt1 pt2) in *.
  set (a := cross_num pt1 pt2 p). set (b := cross_num pt1 pt2 q).
  assert (Hi : (0 < / N * / N)%R)
    by (apply Rmult_lt_0_compat; now apply Rinv_0_lt_compat).
  replace (IZR a / N * (IZR b / N))%R with (IZR (a * b) * (/ N * / N))%R
    by (rewrite mult_IZR; unfold Rdiv; ring).
  split; intros H.
  - apply lt_IZR. destruct (Rle_or_lt 0 (IZR (a * b))) as [Hle|Hgt]; [|lra].
    exfalso. assert (0 <= IZR (a * b) * (/ N * / N))%R by nra. lra.
  - apply IZR_lt in H. nra.
Qed.

(** C6. For a diagonal line with endpoints [pt1], [pt2], the signed distance
    of a point is the cross product of (p - pt1) with v = pt2 - pt1 divided
    by |v|, with |v| = 0 taken as 1.  For an uncounted identity a crossing is
    detected exactly when the distances of the previous and the current
    centroid have a negative product; it is recorded, when the displacement
    gate passes, in bucket Diagonal1 when the previous distance is positive
    and in bucket Diagonal2 otherwise.  Recording in Diagonal1 appends the
    event, increments [diag1_count], the first counter, and sets the flag;
    recording in Diagonal2 increments [diag2_count], the second counter;
    without a crossing that passes the gate the state is unchanged. *)
Theorem diagonal_line_crossing (alg : CountingAlgorithm) (min_disp : Z)
    (pt1 pt2 : Centroid) (st : Counting) (id : Z)
    (centroid prev : Centroid) :
  dict_get id (counted (ct st)) = Some false ->
  dict_get id (previousCentroids (ct st)) = Some prev ->
  let d_prev := signed_distance pt1 pt2 prev in
  let d_curr := signed_distance pt1 pt2 centroid in
  let passes :=
    below_threshold alg min_disp
      (Z.abs ((fst centroid + snd centroid) - (fst prev + snd prev)))
    = false in
  let len :=
    sqrt (IZR (fst pt2 - fst pt1) * IZR (fst pt2 - fst pt1)
          + IZR (snd pt2 - snd pt1) * IZR (snd pt2 - snd pt1))%R in
  (len = 0%R -> line_norm pt1 pt2 = 1%R)
  /\ (len <> 0%R -> line_norm pt1 pt2 = len)
  /\ (d_prev * line_norm pt1 pt2
      = IZR ((fst prev - fst pt1) * (snd pt2 - snd pt1)
             - (snd prev - snd pt1) * (fst pt2 - fst pt1)))%R
  /\ (crossed Diagonal pt1 pt2 prev centroid = true
      <-> (d_prev * d_curr < 0)%R)
  /\ exists st',
       count_crossing Diagonal alg min_disp pt1 pt2 st (id, centroid)
       = Some st'
       /\ (events st' = events st ++ [(id, Diagonal1)]
           <-> (d_prev * d_curr < 0)%R /\ (d_prev > 0)%R /\ passes)
       /\ (events st' = events st ++ [(id, Diagonal2)]
           <-> (d_prev * d_curr < 0)%R /\ ~ (d_prev > 0)%R /\ passes)
       /\ ((d_prev * d_curr < 0)%R /\ (d_prev > 0)%R /\ passes ->
           st' = mkCounting (mark_counted id (ct st))
                   (count1 st + 1) (count2 st)
                   (events st ++ [(id, Diagonal1)]))
       /\ ((d_prev * d_curr < 0)%R /\ ~ (d_prev > 0)%R /\ passes ->
           st' = mkCounting (mark_counted id (ct st))
                   (count1 st) (count2 st + 1)
                   (events st ++ [(id, Diagonal2)]))
       /\ (~ ((d_prev * d_curr < 0)%R /\ passes) -> st' = st).
Proof.
  intros Hc Hp d_prev d_curr passes len.
  assert (Hx : crossed Diagonal pt1 pt2 prev centroid = true
               <-> (d_prev * d_curr < 0)%R).
  { simpl. rewrite Z.ltb_lt. symmetry. apply signed_distance_product. }
  assert (Hb : forall b,
            bucket_of Diagonal pt1 pt2 prev centroid = Some b
            <-> (if first_bucket b then (d_prev > 0)%R else ~ (d_prev > 0)%R)
                /\ (b = Diagonal1 \/ b = Diagonal2)).
  { intros b. simpl.
    destruct (signed_distance_sign pt1 pt2 prev) as [Hpos _].
    fold d_prev in Hpos.
    destruct (Z.gtb_spec (cross_num pt1 pt2 prev) 0) as [Hgt|Hle].
    - assert (d_prev > 0)%R by (apply Hpos; lia).
      split; [intros [= <-]; simpl; auto|].
      intros [H1 [->| ->]]; simpl in H1; [reflexivity|contradiction].
    - assert (~ (d_prev > 0)%R) by (intros H; apply Hpos in H; lia).
      split; [intros [= <-]; simpl; auto|].
      intros [H1 [->| ->]]; simpl in H1; [contradiction|reflexivity]. }
  split; [apply line_norm_spec|]. split; [apply line_norm_spec|]. split.
  { unfold d_prev, signed_distance, cross_num, Rdiv.
    rewrite Rmult_assoc, Rinv_l, Rmult_1_r; [reflexivity|].
    pose proof (line_norm_pos pt1 pt2). lra. }
  split; [exact Hx|].
  destruct (count_crossing_event Diagonal alg min_disp pt1 pt2 st id
              centroid prev Diagonal1 Hc Hp) as (st' & E & H1).
  destruct (count_crossing_event Diagonal alg min_disp pt1 pt2 st id
              centroid prev Diagonal2 Hc Hp) as (st2 & E2 & H2).
  assert (st2 = st') by congruence. subst st2.
  destruct (count_crossing_cases Diagonal alg min_disp pt1 pt2 st id
              centroid prev Hc Hp) as (st3 & E3 & Hrec & Hsame).
  assert (st3 = st') by congruence. subst st3.
  exists st'. split; [exact E|].
  simpl displacement in H1, H2, Hrec, Hsame.
  fold passes in H1, H2.
  split; [rewrite H1, Hx, (Hb Diagonal1); simpl; tauto|].
  split; [rewrite H2, Hx, (Hb Diagonal2); simpl; tauto|].
  split; [|split].
  - intros (Hcr & Hpos & Hpass).
    apply (Hrec Diagonal1); [now apply Hx|exact Hpass|].
    apply Hb. simpl. auto.
  - intros (Hcr & Hneg & Hpass).
    apply (Hrec Diagonal2); [now apply Hx|exact Hpass|].
    apply Hb. simpl. auto.
  - intros Hn. apply Hsame.
    destruct (crossed Diagonal pt1 pt2 prev centroid) eqn:Ex; [|now left].
    right. unfold passes in Hn.
    destruct (below_threshold alg min_disp
                (Z.abs (fst centroid + snd centroid
                        - (fst prev + snd prev)))) eqn:Et;
      [reflexivity|exfalso].
    apply Hn. split; [now apply Hx|reflexivity].
Qed.

(** The diagonal example of the spec: line from (0, 0) to (10, 10), identity
    0 moving from (2, 8) to (8, 2): one event in bucket Diagonal2, the
    second counter at 1, the first at 0. *)
Lemma diagonal_line_crossing_witness :
  dict_get 0 (counted (ct (one_object (2, 8)))) = Some false
  /\ dict_get 0 (previousCentroids (ct (one_object (2, 8)))) = Some (2, 8)
  /\ Rlt (Rmult (signed_distance (0, 0) (10, 10) (2, 8))
                (signed_distance (0, 0) (10, 10) (8, 2))) 0%R
  /\ option_map (fun st' => (count1 st', count2 st', events st'))
       (count_crossing Diagonal Standard 10 (0, 0) (10, 10)
          (one_object (2, 8)) (0, (8, 2)))
     = Some (0, 1, [(0, Diagonal2)]).
Proof.
  split; [reflexivity|]. split; [reflexivity|]. split; [|reflexivity].
  destruct (diagonal_line_crossing Standard 10 (0, 0) (10, 10)
              (one_object (2, 8)) 0 (8, 2) (2, 8) eq_refl eq_refl)
    as (_ & _ & _ & Hx & _).
  apply Hx. reflexivity.
Defined.

(** ** Sessions: keys of the snapshots and decode failures *)

Lemma directional_loop_keys cfg start items :
  forall st last calls,
    Forall (fun r => session_start r = strftime start
                     /\ stream_url r = rtsp_url cfg) calls ->
    Forall (fun r => session_start r = strftime start
                     /\ stream_url r = rtsp_url cfg)
           (fst (directional_loop cfg start items st last calls)).
Proof.
  induction items as [|[f|] items IH]; intros st last calls H; simpl;
    try assumption.
  destruct (process_frame_directional _ _ _ st f) as [st'|]; [|assumption].
  assert (H' : Forall (fun r => session_start r = strftime start
                                /\ stream_url r = rtsp_url cfg)
                 (if due cfg (time_now f) last
                  then calls ++
                       [mkRow (rtsp_url cfg) (object_type cfg)
                          (if match orientation (line_options cfg) with
                              | OtherOrientation => false | _ => true end
                           then count1 st' else 0)
                          (if match orientation (line_options cfg) with
                              | OtherOrientation => false | _ => true end
                           then count2 st' else 0)
                          (if match orientation (line_options cfg) with
                              | OtherOrientation => false | _ => true end
                           then count1 st' + count2 st' else 0)
                          (strftime start) (strftime (datetime_now f))]
                  else calls)).
  { destruct (due cfg (time_now f) last); [|assumption].
    apply Forall_app. split; [assumption|]. repeat constructor. }
  destruct (quit_pressed f); [exact H'|]. now apply IH.
Qed.

Lemma directional_failure cfg start frames rest :
  forall st last calls,
    (forall f, In f frames -> quit_pressed f = false) ->
    snd (directional_loop cfg start (map Decoded frames ++ DecodeError :: rest)
           st last calls)
    = Some ((0, 0), 0).
Proof.
  induction frames as [|f frames IH]; intros st last calls Hq; simpl;
    [reflexivity|].
  destruct (process_frame_directional _ _ _ st f) as [st'|]; [|reflexivity].
  rewrite (Hq f (or_introl eq_refl)). apply IH.
  intros g Hg. apply Hq. now right.
Qed.

Lemma unique_failure cfg frames rest :
  forall st last calls st',
    (forall f, In f frames -> quit_pressed f = false) ->
    run_unique frames st = Some st' ->
    snd (unique_loop cfg (map Decoded frames ++ DecodeError :: rest)
           st last calls)
    = Some (total_count st').
Proof.
  unfold run_unique.
  induction frames as [|f frames IH]; intros st last calls st' Hq E;
    cbn [foldM] in E; simpl.
  - now injection E as <-.
  - destruct (process_frame_unique st f) as [s1|]; [|discriminate].
    cbn [bind] in E. rewrite (Hq f (or_introl eq_refl)).
    apply IH; [|assumption]. intros g Hg. apply Hq. now right.
Qed.

(** C3: the code at a decode failure.  In directional mode the stream
    function returns ((0, 0), 0) after any decode failure, whatever was
    counted, and the final snapshot carries zeros: in the session
    [failure_input] one UP crossing is counted before the failure and the
    final row has total 0.  In unique mode the accumulated total is returned
    and persisted. *)
Theorem decode_failure_discards_directional_counts :
  (forall cfg start frames rest st last calls,
      (forall f, In f frames -> quit_pressed f = false) ->
      snd (directional_loop cfg start
             (map Decoded frames ++ DecodeError :: rest) st last calls)
      = Some ((0, 0), 0))
  /\ option_map (fun st => (count1 st, count2 st, events st))
       (run_directional (line_options failure_config) Standard 10
          failure_frames (mkCounting (new_tracker 40) 0 0 []))
     = Some (1, 0, [(0, UP)])
  /\ launch_analysis_and_flask failure_config failure_input
     = ([mkRow "rtsp://camera"%string "car"%string 0 0 0 0 2], true)
  /\ launch_analysis_and_flask failure_config_unique failure_input
     = ([mkRow "rtsp://camera"%string "car"%string 0 0 1 0 2], true).
Proof.
  split; [intros; now apply directional_failure|].
  repeat split; reflexivity.
Qed.

(** C1: the code's snapshot keys.  Within [run_stream_directional] every
    periodic snapshot is keyed by the start time read when the stream
    function starts.  In unique mode each periodic snapshot is keyed by the
    time of the previous flush, and in both modes the final snapshot is keyed
    by the start time read at launch: over the session [flush_input] the
    unique mode writes the keys 1, 2 and 0 and leaves three rows, the
    directional mode writes 1, 1 and 0 and leaves two. *)
Theorem snapshot_keys_differ :
  (forall cfg inp,
      Forall (fun r => session_start r = strftime (start_datetime inp)
                       /\ stream_url r = rtsp_url cfg)
             (fst (run_stream_directional cfg inp)))
  /\ map (fun r => (session_start r, session_end r, total r))
       (fst (launch_analysis_and_flask (flush_config false) flush_input))
     = [(1, 2, 1); (2, 3, 1); (0, 4, 1)]
  /\ length (stored (fst (launch_analysis_and_flask (flush_config false)
                            flush_input))) = 3%nat
  /\ map (fun r => (session_start r, session_end r, total r))
       (fst (launch_analysis_and_flask (flush_config true) flush_input))
     = [(1, 2, 0); (1, 3, 1); (0, 4, 1)]
  /\ length (stored (fst (launch_analysis_and_flask (flush_config true)
                            flush_input))) = 2%nat.
Proof.
  split.
  - intros cfg inp. unfold run_stream_directional.
    destruct (stream_opens inp); [|constructor].
    apply directional_loop_keys. constructor.
  - repeat split; vm_compute; reflexivity.
Qed.

(** ** The examples of the spec *)

(** Line at y = 100: (50, 110) to (50, 95) is one UP event, (50, 90) to
    (50, 105) one DOWN event, (50, 80) to (50, 70) no event. *)
Example horizontal_examples :
  option_map events
    (count_crossing Horizontal Standard 10 (0, 100) (300, 100)
       (one_object (50, 110)) (0, (50, 95))) = Some [(0, UP)]
  /\ option_map events
       (count_crossing Horizontal Standard 10 (0, 100) (300, 100)
          (one_object (50, 90)) (0, (50, 105))) = Some [(0, DOWN)]
  /\ option_map events
       (count_crossing Horizontal Standard 10 (0, 100) (300, 100)
          (one_object (50, 80)) (0, (50, 70))) = Some [].
Proof. repeat split; reflexivity. Qed.

(** [update] on an empty input creates no identity. *)
Lemma empty_input_stability t :
  wf t ->
  exists t',
    update [] t = Some t' /\ nextObjectID t' = nextObjectID t
    /\ forall k, In k (keys (objects t')) -> In k (keys (objects t)).
Proof.
  intros W.
  destruct (update_spec [] t W) as (t' & E & W' & _ & Hn & Hdead & _).
  exists t'. split; [assumption|]. split; [simpl in Hn; lia|].
  intros k Hk. destruct (in_dec Z.eq_dec k (keys (objects t))) as [H|H];
    [assumption|].
  apply (view_live t t' k); [|assumption].
  apply Hdead; [assumption|]. apply (wf_bound t' W') in Hk. simpl in Hn. lia.
Qed.

(** Writing two snapshots under one key leaves one row, the second. *)
Lemma upsert_idempotent a b :
  same_key b a = true -> stored [a; b] = [b].
Proof. intros H. unfold stored. simpl. now rewrite H. Qed.

(** * Further properties of the code *)

(** ** [register] and [deregister] *)

Lemma dict_set_fresh {V : Type} (d : dict V) k v :
  ~ In k (keys d) -> dict_set k v d = d ++ [(k, v)].
Proof.
  induction d as [|[k' v'] d IH]; simpl; [reflexivity|].
  intros H. destruct (Z.eqb_spec k k') as [->|N]; [exfalso; auto|].
  f_equal. auto.
Qed.

Lemma dict_del_last {V : Type} (d : dict V) k v :
  ~ In k (keys d) -> dict_del k (d ++ [(k, v)]) = Some d.
Proof.
  induction d as [|[k' v'] d IH]; simpl.
  - now rewrite Z.eqb_refl.
  - intros H. destruct (Z.eqb_spec k k') as [->|N]; [exfalso; auto|].
    rewrite IH by tauto. reflexivity.
Qed.

Lemma view_absent t k :
  wf t -> ~ In k (keys (objects t)) -> view t k = (None, None, None, None).
Proof.
  intros W H. unfold view.
  rewrite (dict_get_none (objects t)) by assumption.
  rewrite (dict_get_none (disappeared t)) by now rewrite (wf_disappeared t W).
  rewrite (dict_get_none (previousCentroids t))
    by now rewrite (wf_previous t W).
  rewrite (dict_get_none (counted t)) by now rewrite (wf_counted t W).
  reflexivity.
Qed.

(** X1. [deregister] on a consistent tracker returns, erases the identity
    from all four dictionaries, leaves every other identity and
    [nextObjectID] as they were, and does nothing when applied again (or to
    an identity that is not tracked). *)
Theorem deregister_erases_one_identity (t : CentroidTracker) (id : Z) :
  wf t ->
  exists t',
    deregister id t = Some t'
    /\ wf t'
    /\ view t' id = (None, None, None, None)
    /\ (forall k, k <> id -> view t' k = view t k)
    /\ nextObjectID t' = nextObjectID t
    /\ deregister id t' = Some t'
    /\ (~ In id (keys (objects t)) -> t' = t).
Proof.
  intros W. destruct (deregister_spec id t W) as (t' & E & W' & Hh & Hv & Hg).
  exists t'. split; [assumption|]. split; [assumption|].
  split; [now apply view_absent|]. split; [assumption|].
  split; [now apply header_fields in Hh|]. split.
  - unfold deregister, dict_mem.
    now rewrite (dict_get_none (objects t')) by assumption.
  - intros H. unfold deregister, dict_mem in E.
    rewrite (dict_get_none (objects t)) in E by assumption. congruence.
Qed.

Lemma deregister_erases_one_identity_witness :
  wf sample_tracker
  /\ exists t',
       deregister 0 sample_tracker = Some t'
       /\ view t' 0 = (None, None, None, None)
       /\ view t' 1 = view sample_tracker 1.
Proof.
  assert (W : wf sample_tracker)
    by apply register_wf, register_wf, new_tracker_wf.
  split; [exact W|].
  destruct (deregister_erases_one_identity sample_tracker 0 W)
    as (t' & E & _ & H0 & Hk & _).
  exists t'. split; [exact E|]. split; [exact H0|]. apply Hk. discriminate.
Defined.

(** X2. [register] followed by [deregister] of the identity it assigned
    restores the four dictionaries exactly, and the identity is not given
    back: [nextObjectID] stays incremented. *)
Theorem register_then_deregister (c : Centroid) (t : CentroidTracker) :
  wf t ->
  exists t',
    deregister (nextObjectID t) (register c t) = Some t'
    /\ objects t' = objects t
    /\ disappeared t' = disappeared t
    /\ previousCentroids t' = previousCentroids t
    /\ counted t' = counted t
    /\ nextObjectID t' = nextObjectID t + 1.
Proof.
  intros W. pose proof (fresh_key t W) as F.
  assert (Fd : ~ In (nextObjectID t) (keys (disappeared t)))
    by now rewrite (wf_disappeared t W).
  assert (Fp : ~ In (nextObjectID t) (keys (previousCentroids t)))
    by now rewrite (wf_previous t W).
  assert (Fc : ~ In (nextObjectID t) (keys (counted t)))
    by now rewrite (wf_counted t W).
  unfold deregister, register, dict_mem. simpl.
  rewrite dict_get_set_same.
  rewrite !dict_set_fresh by assumption.
  rewrite !dict_del_last by assumption. simpl.
  eexists. split; [reflexivity|]. simpl. auto.
Qed.

Lemma register_then_deregister_witness :
  wf sample_tracker
  /\ exists t',
       deregister 2 (register (9, 9) sample_tracker) = Some t'
       /\ objects t' = objects sample_tracker
       /\ nextObjectID t' = 3.
Proof.
  assert (W : wf sample_tracker)
    by apply register_wf, register_wf, new_tracker_wf.
  split; [exact W|].
  destruct (register_then_deregister (9, 9) sample_tracker W)
    as (t' & E & Ho & _ & _ & _ & Hn).
  exists t'. split; [exact E|]. split; [exact Ho|exact Hn].
Defined.

(** ** [update] on an empty input and on an empty tracker *)

(** X3. [update] on an empty input returns, registers nothing
    ([nextObjectID] and the history of registrations are unchanged, no new
    key appears), and ages every tracked identity by one: the identity is
    erased when its count passes the tolerance and otherwise keeps its
    centroids and its flag. *)
Theorem update_empty_input_ages (t : CentroidTracker) :
  wf t ->
  exists t',
    update [] t = Some t'
    /\ wf t'
    /\ nextObjectID t' = nextObjectID t
    /\ registered t' = registered t
    /\ (forall k, ~ In k (keys (objects t)) -> ~ In k (keys (objects t')))
    /\ (forall k n, dict_get k (disappeared t) = Some n -> aged t t' k n).
Proof.
  intros W.
  destruct (age_all_spec (keys (objects t)) t W (wf_nodup t W))
    as (t' & E & W' & Hh & Hv & Ha); [auto|].
  apply header_fields in Hh as (Hn & _ & Hr).
  exists t'. simpl update. rewrite (wf_disappeared t W).
  split; [assumption|]. split; [assumption|]. split; [assumption|].
  split; [assumption|]. split.
  - intros k Hk. now rewrite (view_live t t' k (Hv k Hk)).
  - intros k n En. apply Ha; [|assumption].
    rewrite <- (wf_disappeared t W). eapply dict_get_some_in; eauto.
Qed.

Lemma update_empty_input_ages_witness :
  wf sample_tracker
  /\ exists t',
       update [] sample_tracker = Some t'
       /\ nextObjectID t' = 2
       /\ view t' 1 = (Some (3, 0), Some 1, Some (3, 0), Some false).
Proof.
  assert (W : wf sample_tracker)
    by apply register_wf, register_wf, new_tracker_wf.
  split; [exact W|].
  destruct (update_empty_input_ages sample_tracker W)
    as (t' & E & _ & Hn & _ & _ & Ha).
  exists t'. split; [exact E|]. split; [exact Hn|].
  exact (Ha 1 0 eq_refl).
Defined.

Lemma fresh_ids_cons first n :
  fresh_ids first (S n) = first :: fresh_ids (first + 1) n.
Proof.
  unfold fresh_ids. simpl. rewrite Z.add_0_r. f_equal.
  rewrite <- seq_shift, map_map. apply map_ext. intros i. lia.
Qed.

Lemma register_all_layout cs :
  forall t, wf t ->
    let t' := fold_left (fun t c => register c t) cs t in
    let ids := fresh_ids (nextObjectID t) (length cs) in
    objects t' = objects t ++ combine ids cs
    /\ disappeared t' = disappeared t ++ map (fun k => (k, 0)) ids
    /\ previousCentroids t' = previousCentroids t ++ combine ids cs
    /\ counted t' = counted t ++ map (fun k => (k, false)) ids.
Proof.
  induction cs as [|c cs IH]; intros t W; cbv zeta; cbn [fold_left length].
  - simpl. now rewrite !app_nil_r.
  - destruct (IH (register c t) (register_wf c t W)) as (Ho & Hd & Hp & Hc).
    pose proof (fresh_key t W) as F.
    assert (Fd : ~ In (nextObjectID t) (keys (disappeared t)))
      by now rewrite (wf_disappeared t W).
    assert (Fp : ~ In (nextObjectID t) (keys (previousCentroids t)))
      by now rewrite (wf_previous t W).
    assert (Fc : ~ In (nextObjectID t) (keys (counted t)))
      by now rewrite (wf_counted t W).
    rewrite fresh_ids_cons, Ho, Hd, Hp, Hc. simpl.
    rewrite !dict_set_fresh by assumption.
    now rewrite <- !app_assoc.
Qed.

(** X4. On a consistent tracker with no tracked identity and a non-empty
    input, [update] registers every detection in input order under the
    consecutive identities [nextObjectID, nextObjectID + 1, ...], each with
    count 0, flag false and previous centroid equal to the detection. *)
Theorem update_first_frame (inputs : list Centroid) (t : CentroidTracker) :
  wf t -> objects t = [] -> inputs <> [] ->
  let ids := fresh_ids (nextObjectID t) (length inputs) in
  exists t',
    update inputs t = Some t'
    /\ objects t' = combine ids inputs
    /\ previousCentroids t' = combine ids inputs
    /\ disappeared t' = map (fun k => (k, 0)) ids
    /\ counted t' = map (fun k => (k, false)) ids
    /\ nextObjectID t' = nextObjectID t + Z.of_nat (length inputs).
Proof.
  intros W Eo Hne ids.
  destruct (register_all_layout inputs t W) as (Ho & Hd & Hp & Hc).
  destruct (register_all_spec inputs t W) as (_ & Hn & _).
  assert (Ed : disappeared t = []).
  { apply (map_eq_nil fst). fold (keys (disappeared t)).
    now rewrite (wf_disappeared t W), Eo. }
  assert (Ep : previousCentroids t = []).
  { apply (map_eq_nil fst). fold (keys (previousCentroids t)).
    now rewrite (wf_previous t W), Eo. }
  assert (Ec : counted t = []).
  { apply (map_eq_nil fst). fold (keys (counted t)).
    now rewrite (wf_counted t W), Eo. }
  rewrite Eo in Ho. rewrite Ed in Hd. rewrite Ep in Hp. rewrite Ec in Hc.
  exists (fold_left (fun t c => register c t) inputs t).
  split; [|auto].
  unfold update. destruct inputs; [congruence|]. now rewrite Eo.
Qed.

Lemma update_first_frame_witness :
  wf (new_tracker 40) /\ objects (new_tracker 40) = []
  /\ [(5, 5); (7, 7)] <> ([] : list Centroid)
  /\ exists t',
       update [(5, 5); (7, 7)] (new_tracker 40) = Some t'
       /\ objects t' = [(0, (5, 5)); (1, (7, 7))].
Proof.
  assert (H : [(5, 5); (7, 7)] <> ([] : list Centroid)) by discriminate.
  split; [apply new_tracker_wf|]. split; [reflexivity|]. split; [exact H|].
  destruct (update_first_frame [(5, 5); (7, 7)] (new_tracker 40)
              (new_tracker_wf 40) eq_refl H) as (t' & E & Ho & _).
  exists t'. split; [exact E|exact Ho].
Defined.

(** ** What [update] keeps for every detection and every identity *)

Lemma matches_range inputs t r c :
  wf t -> In (r, c) (matches inputs t) ->
  (r < length (keys (objects t)))%nat /\ (c < length inputs)%nat.
Proof.
  intros W H. destruct inputs as [|q qs]; [contradiction|].
  assert (Hne : q :: qs <> []) by discriminate.
  rewrite matches_accepted in H by assumption.
  apply in_rev, accepted_fresh in H as (H & _).
  destruct (pairing_spec _ t r c Hne H) as (Hr & Hc & _). auto.
Qed.

Lemma accepted_nodup pairs :
  forall uR uC,
    NoDup (map fst (accepted pairs uR uC))
    /\ NoDup (map snd (accepted pairs uR uC)).
Proof.
  induction pairs as [|[r c] ps IH]; intros uR uC; simpl.
  - split; constructor.
  - destruct (mem_nat r uR || mem_nat c uC); [apply IH|].
    destruct (IH (r :: uR) (c :: uC)) as [H1 H2]. simpl.
    split; constructor; try assumption.
    + intros H. apply in_map_iff in H as ([r' c'] & E & H). simpl in E.
      subst r'. apply accepted_fresh in H as (_ & H & _). apply H. now left.
    + intros H. apply in_map_iff in H as ([r' c'] & E & H). simpl in E.
      subst c'. apply accepted_fresh in H as (_ & _ & H). apply H. now left.
Qed.

Lemma nodup_bounded_length (l : list nat) n :
  NoDup l -> (forall x, In x l -> (x < n)%nat) -> (length l <= n)%nat.
Proof.
  intros Hn Hb. rewrite <- (length_seq n 0).
  apply NoDup_incl_length; [assumption|].
  intros x Hx. apply in_seq. specialize (Hb x Hx). lia.
Qed.

(** X5. The matching of [update] is one to one: no identity row and no
    detection column is matched twice, there are as many matched rows as
    matched columns, and no more than there are identities or detections. *)
Theorem matching_one_to_one (inputs : list Centroid) (t : CentroidTracker) :
  wf t ->
  NoDup (matched_rows inputs t)
  /\ NoDup (matched_cols inputs t)
  /\ length (matched_rows inputs t) = length (matched_cols inputs t)
  /\ (length (matched_rows inputs t) <= length (objects t))%nat
  /\ (length (matched_cols inputs t) <= length inputs)%nat.
Proof.
  intros W. destruct inputs as [|q qs].
  - simpl. repeat split; try constructor. apply Nat.le_0_l.
  - assert (Hne : q :: qs <> []) by discriminate.
    destruct (matched_rows_accepted _ t W Hne) as [ER EC].
    destruct (accepted_nodup (pairing (q :: qs) t) [] []) as [N1 N2].
    assert (NR : NoDup (matched_rows (q :: qs) t))
      by (rewrite ER; now apply NoDup_rev).
    assert (NC : NoDup (matched_cols (q :: qs) t))
      by (rewrite EC; now apply NoDup_rev).
    assert (Hin : forall r c, In (r, c) (accepted (pairing (q :: qs) t) [] [])
              -> (r < length (objects t))%nat /\ (c < length (q :: qs))%nat).
    { intros r c H. apply accepted_fresh in H as (H & _).
      destruct (pairing_spec _ t r c Hne H) as (Hr & Hc & _).
      unfold keys in Hr. rewrite length_map in Hr. auto. }
    split; [assumption|]. split; [assumption|].
    split; [rewrite ER, EC, !length_rev, !length_map; reflexivity|].
    split; apply nodup_bounded_length; try assumption.
    + intros r H. rewrite ER in H.
      apply in_rev, in_map_iff in H as ([r' c] & E & H). simpl in E. subst r'.
      now apply Hin in H.
    + intros c H. rewrite EC in H.
      apply in_rev, in_map_iff in H as ([r c'] & E & H). simpl in E. subst c'.
      now apply Hin in H.
Qed.

Lemma matching_one_to_one_witness :
  wf sample_tracker
  /\ matched_rows sample_inputs sample_tracker = [0%nat]
  /\ (length (matched_cols sample_inputs sample_tracker) <= 2)%nat.
Proof.
  assert (W : wf sample_tracker)
    by apply register_wf, register_wf, new_tracker_wf.
  split; [exact W|]. split; [reflexivity|].
  apply (matching_one_to_one sample_inputs sample_tracker W).
Defined.

(** X6. After [update], every detection of the input is the current
    centroid of a tracked identity whose disappearance count is 0: a
    detection is either taken over by the identity it was matched to or
    registered, never dropped. *)
Theorem update_tracks_every_detection (inputs : list Centroid)
    (t : CentroidTracker) :
  wf t ->
  exists t',
    update inputs t = Some t'
    /\ forall c p, nth_error inputs c = Some p ->
         exists k,
           dict_get k (objects t') = Some p
           /\ dict_get k (disappeared t') = Some 0.
Proof.
  intros W.
  destruct (update_spec inputs t W)
    as (t' & E & W' & _ & _ & _ & _ & Hm & Hnew).
  exists t'. split; [assumption|]. intros c p Ep.
  assert (Hne : inputs <> []) by (intros ->; destruct c; discriminate).
  assert (Hc : (c < length inputs)%nat) by (apply nth_error_Some; congruence).
  destruct (in_dec Nat.eq_dec c (matched_cols inputs t)) as [Hin|Hout].
  - destruct (matched_col_has_row inputs t c W Hne Hin) as [r Hrc].
    destruct (matches_range inputs t r c W Hrc) as [Hr _].
    pose proof (nth_error_nth' (keys (objects t)) 0 Hr) as Ek.
    specialize (Hm r c _ p Hrc Ek Ep). unfold view in Hm.
    injection Hm as Ho Hd _ _. eauto.
  - assert (Hp : In p (new_centroids inputs t)).
    { unfold new_centroids. apply in_map_iff. exists c.
      split; [now apply nth_error_nth|]. now apply unused_in. }
    destruct (In_nth_error _ _ Hp) as [i Ei].
    specialize (Hnew i p Ei). unfold view in Hnew.
    injection Hnew as Ho Hd _ _. eauto.
Qed.

Lemma update_tracks_every_detection_witness :
  wf sample_tracker
  /\ exists t',
       update sample_inputs sample_tracker = Some t'
       /\ exists k, dict_get k (objects t') = Some (100, 0)
                    /\ dict_get k (disappeared t') = Some 0.
Proof.
  assert (W : wf sample_tracker)
    by apply register_wf, register_wf, new_tracker_wf.
  split; [exact W|].
  destruct (update_tracks_every_detection sample_inputs sample_tracker W)
    as (t' & E & H).
  exists t'. split; [exact E|]. exact (H 1%nat (100, 0) eq_refl).
Defined.

Lemma update_kinds inputs t :
  wf t ->
  exists t',
    update inputs t = Some t'
    /\ forall k, In k (keys (objects t')) ->
         (newly_registered inputs t t' k
          /\ ~ matched_identity inputs t t' k
          /\ ~ unmatched_survivor inputs t t' k)
         \/ (~ newly_registered inputs t t' k
             /\ matched_identity inputs t t' k
             /\ ~ unmatched_survivor inputs t t' k)
         \/ (~ newly_registered inputs t t' k
             /\ ~ matched_identity inputs t t' k
             /\ unmatched_survivor inputs t t' k).
Proof.
  intros W.
  destruct (update_spec inputs t W)
    as (t' & E & W' & Hmax & Hn & Hdead & Hage & Hm & Hnew).
  exists t'. split; [assumption|]. intros k Hk.
  assert (Hold : forall j, In j (keys (objects t)) -> j < nextObjectID t)
    by (intros j Hj; apply (wf_bound t W j Hj)).
  destruct (Z_lt_le_dec k (nextObjectID t)) as [Hlt|Hge].
  - assert (Nn : ~ newly_registered inputs t t' k)
      by (intros [H _]; lia).
    destruct (in_dec Z.eq_dec k (keys (objects t))) as [Hin|Hout].
    + destruct (in_dec Z.eq_dec k (matched_ids inputs t)) as [Hmat|Hun].
      * right. left. split; [assumption|]. split.
        -- split; [assumption|]. split; [assumption|].
           destruct (matched_id_pair inputs t k W Hmat)
             as (r & c & p & H & Er & Ec).
           exists p. split; [eapply nth_error_In; eauto|eauto].
        -- intros (_ & H & _). contradiction.
      * right. right. split; [assumption|]. split.
        -- intros (_ & H & _). contradiction.
        -- split; [assumption|]. split; [assumption|].
           destruct (dict_get_in (disappeared t) k) as [n En];
             [now rewrite (wf_disappeared t W)|].
           specialize (Hage k n Hin Hun En). unfold aged in Hage.
           exists n. split; [assumption|].
           destruct (Z.gtb_spec (n + 1) (maxDisappeared t)) as [Hgt|Hle];
             [contradiction|]. split; [lia|assumption].
    + exfalso. apply Hout. apply (view_live t t' k); auto.
  - left. split; [|split].
    + split; [assumption|].
      pose proof (wf_bound t' W' k Hk) as Hb.
      assert (Hi : (Z.to_nat (k - nextObjectID t)
                    < length (new_centroids inputs t))%nat) by lia.
      destruct (nth_error (new_centroids inputs t)
                  (Z.to_nat (k - nextObjectID t))) as [c|] eqn:Ec;
        [|apply nth_error_None in Ec; lia].
      exists c. split.
      * eapply new_centroids_in, nth_error_In; eauto.
      * specialize (Hnew _ c Ec).
        now replace (nextObjectID t
                     + Z.of_nat (Z.to_nat (k - nextObjectID t)))
          with k in Hnew by lia.
    + intros (H & _). apply Hold in H. lia.
    + intros (H & _). apply Hold in H. lia.
Qed.

(** X7. After [update], every tracked identity is of exactly one of three
    kinds: newly registered at a detection, with an identity from the
    former [nextObjectID] on, count 0 and flag false; matched, a formerly
    tracked identity whose row the matching loop used, now at a detection
    with count 0, its previous centroid the former current one and its flag
    as before; or unmatched, a formerly tracked identity whose row was not
    used, with its centroids and flag as before and its count one higher
    and within the tolerance.  [update] never changes a flag and never sets
    one. *)
Theorem update_identity_kinds (inputs : list Centroid) (t : CentroidTracker) :
  wf t ->
  exists t',
    update inputs t = Some t'
    /\ forall k, In k (keys (objects t')) ->
         (newly_registered inputs t t' k
          /\ ~ matched_identity inputs t t' k
          /\ ~ unmatched_survivor inputs t t' k)
         \/ (~ newly_registered inputs t t' k
             /\ matched_identity inputs t t' k
             /\ ~ unmatched_survivor inputs t t' k)
         \/ (~ newly_registered inputs t t' k
             /\ ~ matched_identity inputs t t' k
             /\ unmatched_survivor inputs t t' k).
Proof. exact (update_kinds inputs t). Qed.

(** On the sample tracker identity 0 is matched, identity 1 is left
    unmatched and identity 2 is new. *)
Lemma update_identity_kinds_witness :
  wf sample_tracker
  /\ option_map objects (update sample_inputs sample_tracker)
     = Some [(0, (1, 0)); (1, (3, 0)); (2, (100, 0))]
  /\ matched_ids sample_inputs sample_tracker = [0]
  /\ exists t',
       update sample_inputs sample_tracker = Some t'
       /\ matched_identity sample_inputs sample_tracker t' 0
       /\ unmatched_survivor sample_inputs sample_tracker t' 1
       /\ newly_registered sample_inputs sample_tracker t' 2.
Proof.
  assert (W : wf sample_tracker)
    by apply register_wf, register_wf, new_tracker_wf.
  assert (M : matched_ids sample_inputs sample_tracker = [0])
    by reflexivity.
  split; [exact W|]. split; [reflexivity|]. split; [exact M|].
  destruct (update_identity_kinds sample_inputs sample_tracker W)
    as (t' & E & H).
  assert (Ek : option_map (fun u => keys (objects u))
                 (update sample_inputs sample_tracker) = Some [0; 1; 2])
    by reflexivity.
  rewrite E in Ek. injection Ek as Ek.
  exists t'. split; [exact E|].
  assert (N0 : ~ newly_registered sample_inputs sample_tracker t' 0)
    by (intros [Hn _]; vm_compute in Hn; apply Hn; reflexivity).
  assert (N1 : ~ newly_registered sample_inputs sample_tracker t' 1)
    by (intros [Hn _]; vm_compute in Hn; apply Hn; reflexivity).
  assert (M1 : ~ matched_identity sample_inputs sample_tracker t' 1).
  { intros (_ & Hm & _). rewrite M in Hm. destruct Hm as [Hm|[]].
    discriminate. }
  assert (S0 : ~ unmatched_survivor sample_inputs sample_tracker t' 0).
  { intros (_ & Hm & _). apply Hm. rewrite M. now left. }
  assert (O2 : ~ In 2 (keys (objects sample_tracker))).
  { intros [Hx|[Hx|[]]]; discriminate. }
  split; [|split].
  - destruct (H 0) as [(Hx & _)|[(_ & Hx & _)|(_ & _ & Hx)]];
      [rewrite Ek; simpl; auto|contradiction|exact Hx|contradiction].
  - destruct (H 1) as [(Hx & _)|[(_ & Hx & _)|(_ & _ & Hx)]];
      [rewrite Ek; simpl; auto|contradiction|contradiction|exact Hx].
  - destruct (H 2) as [(Hx & _)|[(_ & (Hx & _) & _)|(_ & _ & (Hx & _))]];
      [rewrite Ek; simpl; auto|exact Hx|contradiction|contradiction].
Defined.

(** Invariant of X8: counts between 0 and the tolerance [m]. *)
Lemma counts_bounded_step m t c :
  0 <= m -> wf t -> maxDisappeared t = m ->
  (forall k n, dict_get k (disappeared t) = Some n -> 0 <= n <= m) ->
  exists t',
    call t c = Some t' /\ wf t' /\ maxDisappeared t' = m
    /\ forall k n, dict_get k (disappeared t') = Some n -> 0 <= n <= m.
Proof.
  intros Hm W Hmax Hb. destruct c as [centroid|objectID|inputs]; simpl.
  - exists (register centroid t). split; [reflexivity|].
    split; [now apply register_wf|]. split; [assumption|].
    intros k n. simpl. destruct (Z.eq_dec k (nextObjectID t)) as [->|N].
    + rewrite dict_get_set_same. intros [= <-]. lia.
    + rewrite dict_get_set_other by assumption. apply Hb.
  - destruct (deregister_spec objectID t W) as (t' & E & W' & Hh & Hv & Hg).
    apply header_fields in Hh as (_ & Hmx & _).
    exists t'. split; [assumption|]. split; [assumption|].
    split; [congruence|]. intros k n En.
    destruct (Z.eq_dec k objectID) as [->|N].
    + exfalso. apply Hg. rewrite <- (wf_disappeared t' W').
      eapply dict_get_some_in; eauto.
    + apply (Hb k). destruct (view_fields _ _ _ (Hv k N)) as (_ & Hd & _).
      congruence.
  - destruct (update_cases inputs t W) as (t' & E & W' & Hmx & _ & Hk).
    exists t'. split; [assumption|]. split; [assumption|].
    split; [congruence|]. intros k n En.
    assert (Hin : In k (keys (objects t'))).
    { rewrite <- (wf_disappeared t' W'). eapply dict_get_some_in; eauto. }
    destruct (Hk k Hin)
      as [(_ & c & _ & Hv)|[(_ & p & _ & Hv)|(_ & n0 & E0 & Hle & Hv)]];
      unfold view in Hv; injection Hv as _ Hd _ _;
      rewrite Hd in En; injection En as <-; try lia.
    specialize (Hb k n0 E0). lia.
Qed.

(** X8. With a non-negative tolerance, after any sequence of [register],
    [deregister] and [update] calls on a fresh tracker every tracked
    identity has a disappearance count between 0 and the tolerance. *)
Theorem disappeared_within_tolerance (m : Z) (calls : list TrackerCall) :
  0 <= m ->
  exists t,
    foldM call calls (new_tracker m) = Some t
    /\ forall k n, dict_get k (disappeared t) = Some n -> 0 <= n <= m.
Proof.
  intros Hm.
  assert (H : forall cs t,
            wf t -> maxDisappeared t = m ->
            (forall k n, dict_get k (disappeared t) = Some n -> 0 <= n <= m) ->
            exists t',
              foldM call cs t = Some t'
              /\ forall k n, dict_get k (disappeared t') = Some n ->
                   0 <= n <= m).
  { induction cs as [|c cs IH]; intros t W Hmax Hb; cbn [foldM].
    - exists t. auto.
    - destruct (counts_bounded_step m t c Hm W Hmax Hb)
        as (t1 & E1 & W1 & Hmax1 & Hb1).
      rewrite E1. cbn [bind]. now apply IH. }
  apply H; [apply new_tracker_wf|reflexivity|]. intros k n. discriminate.
Qed.

Lemma disappeared_within_tolerance_witness :
  0 <= 40
  /\ exists t,
       foldM call [CallRegister (0, 0); CallUpdate []; CallUpdate [(1, 1)]]
         (new_tracker 40) = Some t
       /\ forall k n, dict_get k (disappeared t) = Some n -> 0 <= n <= 40.
Proof.
  assert (H : 0 <= 40) by discriminate.
  split; [exact H|].
  exact (disappeared_within_tolerance 40
           [CallRegister (0, 0); CallUpdate []; CallUpdate [(1, 1)]] H).
Defined.

(** ** The counting line and the centroid of a box *)

Lemma nearest_even_nonneg N D : 0 < D -> 0 <= N -> 0 <= nearest_even N D.
Proof.
  intros HD HN. unfold nearest_even.
  assert (0 <= N / D) by (apply Z.div_pos; lia).
  destruct (2 * (N mod D) ?= D); [destruct (Z.even (N / D))| |]; lia.
Qed.

Lemma nearest_even_le N D M : 0 < D -> N <= M * D -> nearest_even N D <= M.
Proof.
  intros HD HN. unfold nearest_even.
  pose proof (Z.div_mod N D ltac:(lia)) as E.
  pose proof (Z.mod_pos_bound N D HD) as B.
  assert (Hq : N / D <= M) by (apply Z.div_le_upper_bound; lia).
  destruct (Z.compare_spec (2 * (N mod D)) D) as [C|C|C];
    [destruct (Z.even (N / D)); [lia|]| lia |];
    (destruct (Z.eq_dec (N / D) M) as [Eq|Ne]; [|lia]);
    rewrite Eq in E; nia.
Qed.

Lemma binary_exponent_lower a b :
  0 < a -> 0 < b -> 0 <= binary_exponent a b ->
  b * 2 ^ binary_exponent a b <= a.
Proof.
  intros Ha Hb. unfold binary_exponent.
  set (e := Z.log2 a - Z.log2 b).
  pose proof (Z.log2_spec a Ha) as [La _].
  pose proof (Z.log2_spec b Hb) as [_ Lb].
  pose proof (Z.log2_nonneg a) as Na. pose proof (Z.log2_nonneg b) as Nb.
  destruct (Z.ltb_spec (a * 2 ^ Z.max 0 (- e)) (b * 2 ^ Z.max 0 e))
    as [Hlt|Hge]; intros He.
  - assert (E : 2 ^ Z.log2 a = 2 ^ (e - 1) * 2 ^ Z.succ (Z.log2 b)).
    { rewrite <- Z.pow_add_r by lia. f_equal. unfold e. lia. }
    assert (0 < 2 ^ (e - 1)) by (apply Z.pow_pos_nonneg; lia).
    nia.
  - rewrite (Z.max_l 0 (- e)) in Hge by lia.
    rewrite (Z.max_r 0 e) in Hge by lia. simpl in Hge. lia.
Qed.

Lemma round_binary64_int n :
  0 < n < 2 ^ 53 ->
  round_binary64 (inject_Z n)
  = Qmake (n * 2 ^ (52 - Z.log2 n)) (Z.to_pos (2 ^ (52 - Z.log2 n))).
Proof.
  intros [H0 H1]. unfold round_binary64. cbn [Qnum Qden inject_Z].
  destruct (Z.compare_spec n 0) as [C|C|C]; try lia.
  unfold round_binary64_pos, binary_exponent.
  change (Z.log2 1) with 0. rewrite Z.sub_0_r.
  pose proof (Z.log2_spec n H0) as [La _].
  pose proof (Z.log2_nonneg n) as Na.
  assert (Lb : Z.log2 n < 53) by (apply Z.log2_lt_pow2; lia).
  rewrite (Z.max_l 0 (- Z.log2 n)) by lia.
  rewrite (Z.max_r 0 (Z.log2 n)) by lia.
  destruct (Z.ltb_spec (n * 2 ^ 0) (1 * 2 ^ Z.log2 n)) as [Hlt|Hge];
    [rewrite Z.pow_0_r, Z.mul_1_r, Z.mul_1_l in Hlt; lia|].
  set (s := 52 - Z.log2 n).
  destruct (Z.leb_spec 0 s) as [Hs|Hs]; [|unfold s in Hs; lia].
  rewrite (Z.max_r 0 s) by lia. rewrite (Z.max_l 0 (- s)) by lia.
  unfold nearest_even. change (1 * 2 ^ 0) with 1.
  rewrite Z.mod_1_r, Z.div_1_r. reflexivity.
Qed.

Lemma py_int_mantissa m s n :
  0 <= s -> 0 <= m <= n * 2 ^ s ->
  0 <= py_int (Qmake m (Z.to_pos (2 ^ s))) <= n.
Proof.
  intros Hs Hm. unfold py_int. cbn [Qnum Qden].
  assert (Hp : 0 < 2 ^ s) by (apply Z.pow_pos_nonneg; lia).
  rewrite Z2Pos.id by assumption.
  rewrite Z.quot_div_nonneg by lia. split.
  - apply Z.div_pos; lia.
  - apply Z.div_le_upper_bound; lia.
Qed.

(** [int(n * x)] stays between 0 and [n] for a factor between 0 and 1: the
    product is rounded, but never past the representable number [n]. *)
Lemma int_times_fraction (n : Z) (p : Q) :
  0 <= n < 2 ^ 53 -> (0 <= p)%Q -> (p <= 1)%Q ->
  0 <= py_int (int_times_float n p) <= n.
Proof.
  intros [Hn0 Hn1] H0 H1. unfold int_times_float.
  assert (Hpn : 0 <= Qnum p).
  { unfold Qle in H0. cbn [Qnum Qden] in H0. lia. }
  assert (Hpd : Qnum p <= Z.pos (Qden p)).
  { unfold Qle in H1. cbn [Qnum Qden] in H1. lia. }
  destruct (Z.eq_dec n 0) as [->|Hn].
  { unfold round_binary64 at 2. cbn. unfold round_binary64. cbn.
    unfold py_int. cbn. lia. }
  rewrite round_binary64_int by lia.
  set (s := 52 - Z.log2 n).
  assert (Hs : 0 <= s).
  { unfold s. assert (Z.log2 n < 53) by (apply Z.log2_lt_pow2; lia). lia. }
  assert (Hp : 0 < 2 ^ s) by (apply Z.pow_pos_nonneg; lia).
  unfold round_binary64. cbn [Qnum Qden Qmult].
  rewrite Pos2Z.inj_mul, Z2Pos.id by assumption.
  set (a := n * 2 ^ s * Qnum p). set (b := 2 ^ s * Z.pos (Qden p)).
  assert (Hb : 0 < b) by (unfold b; nia).
  assert (Hab : a <= n * b) by (unfold a, b; nia).
  destruct (Z.compare_spec a 0) as [C|C|C].
  - unfold py_int. cbn. lia.
  - exfalso. unfold a in C. nia.
  - unfold round_binary64_pos.
    set (e := binary_exponent a b).
    assert (He : e <= 52).
    { destruct (Z_le_gt_dec e 52) as [|Hgt]; [assumption|exfalso].
      pose proof (binary_exponent_lower a b C Hb ltac:(fold e; lia)) as L.
      fold e in L.
      assert (2 ^ 53 <= 2 ^ e) by (apply Z.pow_le_mono_r; lia).
      nia. }
    set (s' := 52 - e). assert (Hs' : 0 <= s') by (unfold s'; lia).
    destruct (Z.leb_spec 0 s') as [_|]; [|lia].
    rewrite (Z.max_r 0 s') by lia. rewrite (Z.max_l 0 (- s')) by lia.
    change (2 ^ 0) with 1. rewrite Z.mul_1_r.
    assert (Hp' : 0 < 2 ^ s') by (apply Z.pow_pos_nonneg; lia).
    apply py_int_mantissa; [assumption|]. split.
    + apply nearest_even_nonneg; nia.
    + apply nearest_even_le; [assumption|]. nia.
Qed.

(** Products in binary64: [int(480 * 0.3)] is 144 where the exact product
    of the binary64 number truncates to 143; [int(360 * 0.35)] is 125 where
    the exact product of the decimal 35/100 truncates to 126;
    [int(400 * 0.35)] is 140 where the exact product of the binary64 number
    truncates to 139. *)
Example binary64_line_coordinates :
  map (fun h => py_int (int_times_float h float_0_3)) [480; 360; 400; 720]
  = [144; 108; 120; 216]
  /\ map (fun h => py_int (int_times_float h float_0_35)) [480; 360; 400; 720]
     = [168; 125; 140; 251]
  /\ py_int (inject_Z 480 * float_0_3) = 143
  /\ py_int (inject_Z 360 * (35 # 100)) = 126
  /\ py_int (inject_Z 400 * float_0_35) = 139.
Proof. repeat split; vm_compute; reflexivity. Qed.

Lemma line_points_in_frame (lo : LineOptions) (H W : Z) :
  0 <= H < 2 ^ 53 -> 0 <= W < 2 ^ 53 ->
  (0 <= position lo)%Q -> (position lo <= 1)%Q ->
  in_frame H W (fst (line_points lo H W))
  /\ in_frame H W (snd (line_points lo H W)).
Proof.
  intros HH HW H0 H1.
  pose proof (int_times_fraction H (position lo) HH H0 H1) as PH.
  pose proof (int_times_fraction W (position lo) HW H0 H1) as PW.
  assert (HM : 0 <= Z.min W H < 2 ^ 53) by lia.
  pose proof (int_times_fraction (Z.min W H) (position lo) HM H0 H1) as PM.
  assert (PO : 0 <= Z.quot H 2 <= H) by (Z.quot_rem_to_equations; lia).
  unfold line_points, in_frame.
  destruct (orientation lo); [| |destruct (direction_mode lo)|];
    cbv zeta; cbn [fst snd]; lia.
Qed.

(** X9. For a relative position between 0 and 1 and frame dimensions that
    binary64 holds exactly (below 2^53), the counting line lies in the
    frame, whatever the orientation: both endpoints computed by
    [run_stream_directional], with the product rounded to binary64 and
    truncated, have 0 <= x <= W and 0 <= y <= H. *)
Theorem line_inside_frame (lo : LineOptions) (H W : Z) :
  0 <= H < 2 ^ 53 -> 0 <= W < 2 ^ 53 ->
  (0 <= position lo)%Q -> (position lo <= 1)%Q ->
  in_frame H W (fst (line_points lo H W))
  /\ in_frame H W (snd (line_points lo H W)).
Proof. apply line_points_in_frame; assumption. Qed.

Lemma line_inside_frame_witness :
  0 <= 480 < 2 ^ 53 /\ 0 <= 640 < 2 ^ 53
  /\ line_points (mkLine Diagonal float_0_3 OtherMode) 480 640
     = ((640, 144), (0, 336))
  /\ in_frame 480 640
       (fst (line_points (mkLine Diagonal float_0_3 OtherMode) 480 640)).
Proof.
  assert (HH : 0 <= 480 < 2 ^ 53) by (split; [discriminate|reflexivity]).
  assert (HW : 0 <= 640 < 2 ^ 53) by (split; [discriminate|reflexivity]).
  split; [exact HH|]. split; [exact HW|]. split; [vm_compute; reflexivity|].
  refine (proj1 (line_inside_frame (mkLine Diagonal float_0_3 OtherMode)
                   480 640 HH HW _ _)); discriminate.
Defined.

(** X10. The centroid of a box, computed with true division and truncation
    toward zero, lies in the box and within half a pixel of its centre, for
    boxes with negative coordinates too. *)
Theorem box_centroid_inside_box (x1 y1 x2 y2 : Z) :
  x1 <= x2 -> y1 <= y2 ->
  x1 <= fst (box_centroid x1 y1 x2 y2) <= x2
  /\ y1 <= snd (box_centroid x1 y1 x2 y2) <= y2
  /\ Z.abs (2 * fst (box_centroid x1 y1 x2 y2) - (x1 + x2)) <= 1
  /\ Z.abs (2 * snd (box_centroid x1 y1 x2 y2) - (y1 + y2)) <= 1.
Proof.
  intros Hx Hy. unfold box_centroid. cbn [fst snd].
  Z.quot_rem_to_equations. lia.
Qed.

Lemma box_centroid_inside_box_witness :
  -3 <= -2 /\ 10 <= 15
  /\ box_centroid (-3) 10 (-2) 15 = (-2, 12)
  /\ -3 <= fst (box_centroid (-3) 10 (-2) 15) <= -2.
Proof.
  assert (Hx : -3 <= -2) by discriminate.
  assert (Hy : 10 <= 15) by discriminate.
  split; [exact Hx|]. split; [exact Hy|]. split; [reflexivity|].
  exact (proj1 (box_centroid_inside_box (-3) 10 (-2) 15 Hx Hy)).
Defined.

(** ** The table [analytics] *)

Lemma same_key_spec a b : same_key a b = true <-> row_key a = row_key b.
Proof.
  unfold same_key, row_key. rewrite andb_true_iff, String.eqb_eq, Z.eqb_eq.
  split; [intros [-> ->]; reflexivity|intros [= -> ->]; auto].
Qed.

Lemma same_key_false a b : same_key a b = false <-> row_key a <> row_key b.
Proof.
  rewrite <- same_key_spec. destruct (same_key a b); split; congruence.
Qed.

Lemma upsert_find r db c :
  find (same_key r) (upsert_session db c)
  = if same_key r c then Some c else find (same_key r) db.
Proof.
  induction db as [|r' db IH]; simpl.
  - destruct (same_key r c); reflexivity.
  - destruct (same_key c r') eqn:E; simpl.
    + destruct (same_key r c) eqn:E1; [reflexivity|].
      destruct (same_key r r') eqn:E2; [|reflexivity].
      apply same_key_spec in E, E2. apply same_key_false in E1. congruence.
    + rewrite IH. destruct (same_key r r') eqn:E2; [|reflexivity].
      destruct (same_key r c) eqn:E1; [|reflexivity].
      apply same_key_spec in E1, E2. apply same_key_false in E. congruence.
Qed.

Lemma upsert_keys db c :
  map row_key (upsert_session db c)
  = if existsb (same_key c) db then map row_key db
    else map row_key db ++ [row_key c].
Proof.
  induction db as [|r' db IH]; simpl; [reflexivity|].
  destruct (same_key c r') eqn:E; simpl.
  - apply same_key_spec in E. now rewrite E.
  - rewrite IH. destruct (existsb (same_key c) db); reflexivity.
Qed.

Lemma existsb_same_key c db :
  existsb (same_key c) db = false -> ~ In (row_key c) (map row_key db).
Proof.
  intros H Hin. apply in_map_iff in Hin as (r & Er & Hr).
  assert (existsb (same_key c) db = true); [|congruence].
  apply existsb_exists. exists r. split; [assumption|].
  now apply same_key_spec.
Qed.

Lemma upsert_nodup db c :
  NoDup (map row_key db) -> NoDup (map row_key (upsert_session db c)).
Proof.
  intros H. rewrite upsert_keys.
  destruct (existsb (same_key c) db) eqn:E; [assumption|].
  apply NoDup_app; [assumption|repeat constructor; simpl; tauto|].
  intros k Hk [<-|[]]. now apply existsb_same_key in E.
Qed.

Lemma upsert_length db c :
  (length (upsert_session db c) <= S (length db))%nat.
Proof.
  rewrite <- (length_map row_key), upsert_keys.
  destruct (existsb (same_key c) db); rewrite ?length_app, !length_map;
    simpl; lia.
Qed.

Lemma stored_snoc calls c :
  stored (calls ++ [c]) = upsert_session (stored calls) c.
Proof. unfold stored. now rewrite fold_left_app. Qed.

(** X11. After any sequence of [upsert_session] calls the table holds at
    most one row per key [(stream_url, session_start)], no more rows than
    calls were made, and the row found under a key is the one written by the
    last call with that key. *)
Theorem stored_last_write_wins (calls : list SessionRow) (r : SessionRow) :
  NoDup (map row_key (stored calls))
  /\ find (same_key r) (stored calls) = find (same_key r) (rev calls)
  /\ (length (stored calls) <= length calls)%nat.
Proof.
  induction calls as [|c calls IH] using rev_ind.
  - split; [constructor|]. split; [reflexivity|]. simpl. lia.
  - destruct IH as (N & F & L). rewrite stored_snoc.
    split; [now apply upsert_nodup|]. split.
    + rewrite upsert_find, rev_app_distr. simpl. now rewrite F.
    + pose proof (upsert_length (stored calls) c). rewrite length_app.
      simpl. lia.
Qed.

(** ** Periodic snapshots *)

Lemma count_crossing_mono o alg md pt1 pt2 st item st' :
  count_crossing o alg md pt1 pt2 st item = Some st' ->
  count1 st <= count1 st' /\ count2 st <= count2 st'.
Proof.
  destruct item as [id c]. unfold count_crossing.
  destruct (dict_get id (counted (ct st))) as [b|]; [|discriminate].
  cbn [bind].
  destruct b; [intros [= <-]; lia|].
  match goal with |- context [crossed o pt1 pt2 ?p c] =>
    set (prev := p) end.
  destruct (crossed o pt1 pt2 prev c); [|intros [= <-]; lia].
  destruct (below_threshold alg md (displacement o prev c));
    [intros [= <-]; lia|].
  intros [= <-]. simpl.
  destruct (bucket_of o pt1 pt2 prev c) as [b|]; simpl;
    [destruct (first_bucket b); lia|lia].
Qed.

Lemma count_crossing_loop_mono o alg md pt1 pt2 items :
  forall st st',
    foldM (count_crossing o alg md pt1 pt2) items st = Some st' ->
    count1 st <= count1 st' /\ count2 st <= count2 st'.
Proof.
  induction items as [|item items IH]; intros st st'; cbn [foldM].
  - intros [= <-]. lia.
  - destruct (count_crossing o alg md pt1 pt2 st item) as [s1|] eqn:E;
      [|discriminate]. cbn [bind]. intros H.
    apply count_crossing_mono in E. apply IH in H. lia.
Qed.

Lemma frame_directional_mono lo alg md st f st' :
  process_frame_directional lo alg md st f = Some st' ->
  count1 st <= count1 st' /\ count2 st <= count2 st'.
Proof.
  unfold process_frame_directional.
  destruct (line_points lo (frame_height f) (frame_width f)) as [pt1 pt2].
  destruct (update (detections f) (ct st)) as [t1|]; [|discriminate].
  cbn [bind]. intros H. apply count_crossing_loop_mono in H. exact H.
Qed.

Lemma count_unique_loop_mono items :
  forall st st',
    foldM count_unique items st = Some st' ->
    total_count st <= total_count st'.
Proof.
  induction items as [|[id c] items IH]; intros st st'; cbn [foldM].
  - intros [= <-]. lia.
  - unfold count_unique at 1.
    destruct (dict_get id (counted (uct st))) as [b|]; [|discriminate].
    cbn [bind]. destruct b; intros H; apply IH in H; simpl in H; lia.
Qed.

Lemma frame_unique_mono st f st' :
  process_frame_unique st f = Some st' ->
  total_count st <= total_count st'.
Proof.
  unfold process_frame_unique.
  destruct (update (detections f) (uct st)) as [t1|]; [|discriminate].
  cbn [bind]. intros H. apply count_unique_loop_mono in H. exact H.
Qed.

Lemma directional_loop_cumulative cfg start items :
  forall st last calls,
    0 <= count1 st -> 0 <= count2 st ->
    StronglySorted row_le calls ->
    Forall (fun r => direction1 r <= count1 st /\ direction2 r <= count2 st
                     /\ (orientation (line_options cfg) = OtherOrientation ->
                         direction1 r = 0 /\ direction2 r = 0)
                     /\ 0 <= direction1 r /\ 0 <= direction2 r
                     /\ total r = direction1 r + direction2 r) calls ->
    StronglySorted row_le
      (fst (directional_loop cfg start items st last calls))
    /\ Forall (fun r => 0 <= direction1 r /\ 0 <= direction2 r
                        /\ total r = direction1 r + direction2 r)
         (fst (directional_loop cfg start items st last calls)).
Proof.
  assert (Hweak : forall st calls,
            Forall (fun r => direction1 r <= count1 st
                             /\ direction2 r <= count2 st
                             /\ (orientation (line_options cfg)
                                 = OtherOrientation ->
                                 direction1 r = 0 /\ direction2 r = 0)
                             /\ 0 <= direction1 r /\ 0 <= direction2 r
                             /\ total r = direction1 r + direction2 r) calls ->
            Forall (fun r => 0 <= direction1 r /\ 0 <= direction2 r
                             /\ total r = direction1 r + direction2 r) calls).
  { intros st calls H. eapply Forall_impl; [|exact H]. simpl. tauto. }
  induction items as [|[f|] items IH]; intros st last calls H1 H2 HS HF;
    simpl; try (split; [assumption|eapply Hweak; eassumption]).
  destruct (process_frame_directional _ _ _ st f) as [st'|] eqn:E;
    [|split; [assumption|eapply Hweak; eassumption]].
  apply frame_directional_mono in E as [M1 M2].
  set (known := match orientation (line_options cfg) with
                | OtherOrientation => false | _ => true end).
  assert (Hk : known = false ->
               orientation (line_options cfg) = OtherOrientation).
  { unfold known. destruct (orientation (line_options cfg));
      congruence. }
  assert (Hk' : orientation (line_options cfg) = OtherOrientation ->
                known = false).
  { unfold known. now intros ->. }
  set (row := mkRow (rtsp_url cfg) (object_type cfg)
                (if known then count1 st' else 0)
                (if known then count2 st' else 0)
                (if known then count1 st' + count2 st' else 0)
                (strftime start) (strftime (datetime_now f))).
  set (calls' := if due cfg (time_now f) last then calls ++ [row] else calls).
  assert (HF0 : Forall (fun r => direction1 r <= count1 st'
                           /\ direction2 r <= count2 st'
                           /\ (orientation (line_options cfg)
                               = OtherOrientation ->
                               direction1 r = 0 /\ direction2 r = 0)
                           /\ 0 <= direction1 r /\ 0 <= direction2 r
                           /\ total r = direction1 r + direction2 r) calls).
  { eapply Forall_impl; [|exact HF]. simpl. intros r (A & B & C & D).
    split; [lia|]. split; [lia|]. split; assumption. }
  assert (HS' : StronglySorted row_le calls').
  { unfold calls'. destruct (due cfg (time_now f) last); [|assumption].
    apply sorted_snoc; [assumption|].
    eapply Forall_impl; [|exact HF0]. intros r (A & B & C & D).
    unfold row_le, row. simpl.
    destruct known; [lia|]. destruct (C (Hk eq_refl)). lia. }
  assert (HF' : Forall (fun r => direction1 r <= count1 st'
                           /\ direction2 r <= count2 st'
                           /\ (orientation (line_options cfg)
                               = OtherOrientation ->
                               direction1 r = 0 /\ direction2 r = 0)
                           /\ 0 <= direction1 r /\ 0 <= direction2 r
                           /\ total r = direction1 r + direction2 r) calls').
  { unfold calls'. destruct (due cfg (time_now f) last); [|assumption].
    apply Forall_app. split; [assumption|]. constructor; [|constructor].
    unfold row. simpl. split; [destruct known; lia|].
    split; [destruct known; lia|].
    split; [intros Ho; rewrite (Hk' Ho); auto|]. destruct known; lia. }
  destruct (quit_pressed f).
  - split; [assumption|eapply Hweak; eassumption].
  - apply IH; [lia|lia|assumption|assumption].
Qed.

(** X12. The periodic snapshots written by [run_stream_directional] are
    cumulative: from one snapshot to the next neither direction count nor
    the total decreases, and in every snapshot the direction counts are
    non-negative and add up to the total. *)
Theorem directional_snapshots_cumulative (cfg : Config) (inp : SessionInput) :
  StronglySorted row_le (fst (run_stream_directional cfg inp))
  /\ Forall (fun r => 0 <= direction1 r /\ 0 <= direction2 r
                      /\ total r = direction1 r + direction2 r)
       (fst (run_stream_directional cfg inp)).
Proof.
  unfold run_stream_directional.
  destruct (stream_opens inp); [|split; constructor].
  apply directional_loop_cumulative; simpl; try lia; constructor.
Qed.

Lemma unique_loop_cumulative cfg items :
  forall st last calls,
    0 <= total_count st ->
    StronglySorted row_le calls ->
    Forall (fun r => direction1 r = 0 /\ direction2 r = 0
                     /\ 0 <= total r <= total_count st) calls ->
    StronglySorted row_le (fst (unique_loop cfg items st last calls))
    /\ Forall (fun r => direction1 r = 0 /\ direction2 r = 0 /\ 0 <= total r)
         (fst (unique_loop cfg items st last calls))
    /\ forall n, snd (unique_loop cfg items st last calls) = Some n ->
         0 <= n
         /\ Forall (fun r => total r <= n)
              (fst (unique_loop cfg items st last calls)).
Proof.
  assert (Hstop : forall st calls,
            0 <= total_count st ->
            StronglySorted row_le calls ->
            Forall (fun r => direction1 r = 0 /\ direction2 r = 0
                             /\ 0 <= total r <= total_count st) calls ->
            StronglySorted row_le calls
            /\ Forall (fun r => direction1 r = 0 /\ direction2 r = 0
                                /\ 0 <= total r) calls
            /\ forall n, Some (total_count st) = Some n ->
                 0 <= n /\ Forall (fun r => total r <= n) calls).
  { intros st calls H0 HS HF. split; [assumption|]. split.
    - eapply Forall_impl; [|exact HF]. simpl. intros r. lia.
    - intros n [= <-]. split; [assumption|].
      eapply Forall_impl; [|exact HF]. simpl. intros r. lia. }
  induction items as [|[f|] items IH]; intros st last calls H0 HS HF; simpl.
  - split; [assumption|]. split; [|discriminate].
    eapply Forall_impl; [|exact HF]. simpl. intros r. lia.
  - destruct (process_frame_unique st f) as [st'|] eqn:E;
      [|now apply Hstop].
    apply frame_unique_mono in E.
    set (row := mkRow (rtsp_url cfg) (object_type cfg) 0 0 (total_count st')
                  (strftime last) (strftime (datetime_now f))).
    set (calls' := if due cfg (time_now f) last then calls ++ [row]
                   else calls).
    assert (HF0 : Forall (fun r => direction1 r = 0 /\ direction2 r = 0
                             /\ 0 <= total r <= total_count st') calls).
    { eapply Forall_impl; [|exact HF]. simpl. intros r. lia. }
    assert (HS' : StronglySorted row_le calls').
    { unfold calls'. destruct (due cfg (time_now f) last); [|assumption].
      apply sorted_snoc; [assumption|].
      eapply Forall_impl; [|exact HF0]. intros r. unfold row_le, row.
      simpl. lia. }
    assert (HF' : Forall (fun r => direction1 r = 0 /\ direction2 r = 0
                             /\ 0 <= total r <= total_count st') calls').
    { unfold calls'. destruct (due cfg (time_now f) last); [|assumption].
      apply Forall_app. split; [assumption|]. constructor; [|constructor].
      unfold row. simpl. lia. }
    destruct (quit_pressed f).
    + apply Hstop; [lia|assumption|assumption].
    + apply IH; [lia|assumption|assumption].
  - now apply Hstop.
Qed.

(** X13. In unique mode the rows written by a whole session, the periodic
    snapshots followed by the final one, are cumulative: the total never
    decreases from one row to the next, also when the session ends on a
    decode failure, and both direction counts are 0 in every row. *)
Theorem unique_session_cumulative (cfg : Config) (inp : SessionInput) :
  directional cfg = false ->
  StronglySorted row_le (fst (launch_analysis_and_flask cfg inp))
  /\ Forall (fun r => direction1 r = 0 /\ direction2 r = 0 /\ 0 <= total r)
       (fst (launch_analysis_and_flask cfg inp)).
Proof.
  intros Hd. unfold launch_analysis_and_flask. rewrite Hd.
  assert (H : StronglySorted row_le (fst (run_stream_unique cfg inp))
              /\ Forall (fun r => direction1 r = 0 /\ direction2 r = 0
                                  /\ 0 <= total r)
                   (fst (run_stream_unique cfg inp))
              /\ forall n, snd (run_stream_unique cfg inp) = Some n ->
                   0 <= n
                   /\ Forall (fun r => total r <= n)
                        (fst (run_stream_unique cfg inp))).
  { unfold run_stream_unique. destruct (stream_opens inp).
    - apply unique_loop_cumulative; simpl; [lia|constructor|constructor].
    - simpl. split; [constructor|]. split; [constructor|].
      intros n [= <-]. split; [lia|constructor]. }
  destruct (run_stream_unique cfg inp) as [calls [n|]]; simpl in H;
    destruct H as (HS & HF & Hn); simpl; [|split; assumption].
  destruct (Hn n eq_refl) as [H0 Hle]. split.
  - apply sorted_snoc; [assumption|].
    rewrite Forall_forall in HF, Hle. apply Forall_forall. intros r Hr.
    specialize (HF r Hr). specialize (Hle r Hr). unfold row_le. simpl. lia.
  - apply Forall_app. split; [assumption|]. constructor; [|constructor].
    simpl. lia.
Qed.

Lemma unique_session_cumulative_witness :
  directional (flush_config false) = false
  /\ map total (fst (launch_analysis_and_flask (flush_config false)
                       flush_input)) = [1; 1; 1]
  /\ StronglySorted row_le
       (fst (launch_analysis_and_flask (flush_config false) flush_input)).
Proof.
  split; [reflexivity|]. split; [vm_compute; reflexivity|].
  exact (proj1 (unique_session_cumulative (flush_config false) flush_input
                  eq_refl)).
Defined.

Lemma directional_loop_rate cfg start tmax items :
  forall st last calls,
    last <= tmax ->
    Forall (read_by tmax) items ->
    Z.of_nat (length (fst (directional_loop cfg start items st last calls)))
    * (record_interval cfg * 1000)
    <= Z.of_nat (length calls) * (record_interval cfg * 1000)
       + (tmax - last).
Proof.
  induction items as [|[f|] items IH]; intros st last calls Hl Hr; simpl;
    try lia.
  inversion Hr as [|? ? Hf Hr']; subst. simpl in Hf.
  destruct (process_frame_directional _ _ _ st f) as [st'|]; simpl; [|lia].
  unfold due. destruct (Z.geb_spec (time_now f - last)
                          (record_interval cfg * 1000)) as [Hd|Hd].
  - match goal with |- context [calls ++ [?r]] => set (row := r) end.
    assert (Hlen : Z.of_nat (length (calls ++ [row]))
                   = Z.of_nat (length calls) + 1)
      by (rewrite length_app; simpl; lia).
    destruct (quit_pressed f); simpl.
    + rewrite Hlen. lia.
    + specialize (IH st' (time_now f) (calls ++ [row]) Hf Hr').
      rewrite Hlen in IH. lia.
  - destruct (quit_pressed f); simpl; [lia|]. now apply IH.
Qed.

Lemma unique_loop_rate cfg tmax items :
  forall st last calls,
    last <= tmax ->
    Forall (read_by tmax) items ->
    Z.of_nat (length (fst (unique_loop cfg items st last calls)))
    * (record_interval cfg * 1000)
    <= Z.of_nat (length calls) * (record_interval cfg * 1000)
       + (tmax - last).
Proof.
  induction items as [|[f|] items IH]; intros st last calls Hl Hr; simpl;
    try lia.
  inversion Hr as [|? ? Hf Hr']; subst. simpl in Hf.
  destruct (process_frame_unique st f) as [st'|]; simpl; [|lia].
  unfold due. destruct (Z.geb_spec (time_now f - last)
                          (record_interval cfg * 1000)) as [Hd|Hd].
  - match goal with |- context [calls ++ [?r]] => set (row := r) end.
    assert (Hlen : Z.of_nat (length (calls ++ [row]))
                   = Z.of_nat (length calls) + 1)
      by (rewrite length_app; simpl; lia).
    destruct (quit_pressed f); simpl.
    + rewrite Hlen. lia.
    + specialize (IH st' (time_now f) (calls ++ [row]) Hf Hr').
      rewrite Hlen in IH. lia.
  - destruct (quit_pressed f); simpl; [lia|]. now apply IH.
Qed.

Lemma directional_loop_spaced cfg start items :
  forall st last calls,
    exists fs,
      Forall (fun f => In (Decoded f) items) fs
      /\ map session_end
           (fst (directional_loop cfg start items st last calls))
         = map session_end calls
           ++ map (fun f => strftime (datetime_now f)) fs
      /\ spaced (record_interval cfg * 1000) last (map time_now fs).
Proof.
  assert (Hnil : forall its calls last,
            exists fs : list Frame,
              Forall (fun f => In (Decoded f) its) fs
              /\ map session_end calls
                 = map session_end calls
                   ++ map (fun f => strftime (datetime_now f)) fs
              /\ spaced (record_interval cfg * 1000) last (map time_now fs)).
  { intros its calls last. exists []. simpl. rewrite app_nil_r. auto. }
  induction items as [|[f|] items IH]; intros st last calls;
    cbn [directional_loop fst]; try apply Hnil.
  destruct (process_frame_directional _ _ _ st f) as [st'|];
    cbn [fst]; [|apply Hnil].
  unfold due. destruct (Z.geb_spec (time_now f - last)
                          (record_interval cfg * 1000)) as [Hd|Hd].
  - match goal with |- context [calls ++ [?r]] => set (row := r) end.
    destruct (quit_pressed f); cbn [fst].
    + exists [f]. split; [constructor; [now left|constructor]|]. split.
      * rewrite map_app. reflexivity.
      * simpl. auto.
    + destruct (IH st' (time_now f) (calls ++ [row])) as (fs & F & M & S).
      exists (f :: fs). split.
      * constructor; [now left|].
        eapply Forall_impl; [|exact F]. intros g Hg. now right.
      * split; [|simpl; auto].
        rewrite M, map_app, <- app_assoc. reflexivity.
  - destruct (quit_pressed f); cbn [fst]; [apply Hnil|].
    destruct (IH st' last calls) as (fs & F & M & S).
    exists fs. split; [|auto].
    eapply Forall_impl; [|exact F]. intros g Hg. now right.
Qed.

Lemma unique_loop_spaced cfg items :
  forall st last calls,
    exists fs,
      Forall (fun f => In (Decoded f) items) fs
      /\ map session_end (fst (unique_loop cfg items st last calls))
         = map session_end calls
           ++ map (fun f => strftime (datetime_now f)) fs
      /\ spaced (record_interval cfg * 1000) last (map time_now fs).
Proof.
  assert (Hnil : forall its calls last,
            exists fs : list Frame,
              Forall (fun f => In (Decoded f) its) fs
              /\ map session_end calls
                 = map session_end calls
                   ++ map (fun f => strftime (datetime_now f)) fs
              /\ spaced (record_interval cfg * 1000) last (map time_now fs)).
  { intros its calls last. exists []. simpl. rewrite app_nil_r. auto. }
  induction items as [|[f|] items IH]; intros st last calls;
    cbn [unique_loop fst]; try apply Hnil.
  destruct (process_frame_unique st f) as [st'|]; cbn [fst]; [|apply Hnil].
  unfold due. destruct (Z.geb_spec (time_now f - last)
                          (record_interval cfg * 1000)) as [Hd|Hd].
  - match goal with |- context [calls ++ [?r]] => set (row := r) end.
    destruct (quit_pressed f); cbn [fst].
    + exists [f]. split; [constructor; [now left|constructor]|]. split.
      * rewrite map_app. reflexivity.
      * simpl. auto.
    + destruct (IH st' (time_now f) (calls ++ [row])) as (fs & F & M & S).
      exists (f :: fs). split.
      * constructor; [now left|].
        eapply Forall_impl; [|exact F]. intros g Hg. now right.
      * split; [|simpl; auto].
        rewrite M, map_app, <- app_assoc. reflexivity.
  - destruct (quit_pressed f); cbn [fst]; [apply Hnil|].
    destruct (IH st' last calls) as (fs & F & M & S).
    exists fs. split; [|auto].
    eapply Forall_impl; [|exact F]. intros g Hg. now right.
Qed.

(** X14. Periodic snapshots are at least one record interval apart, whatever
    the interval and however the clock behaves.  In both modes the
    snapshots are written at frames of the stream whose [time.time()]
    readings are each at least [record_interval] after the reading at the
    snapshot before, the first at least [record_interval] after
    [start_time].  Hence, when no frame reads the clock after [tmax], the
    number of periodic snapshots times the interval is at most
    [tmax - start_time]. *)
Theorem snapshots_rate_limited (cfg : Config) (inp : SessionInput)
    (tmax : Z) :
  start_time inp <= tmax ->
  Forall (read_by tmax) (stream inp) ->
  Z.of_nat (length (fst (run_stream_directional cfg inp)))
  * (record_interval cfg * 1000) <= tmax - start_time inp
  /\ Z.of_nat (length (fst (run_stream_unique cfg inp)))
     * (record_interval cfg * 1000) <= tmax - start_time inp
  /\ (exists fs,
        written_at (stream inp) (fst (run_stream_directional cfg inp)) fs
        /\ spaced (record_interval cfg * 1000) (start_time inp)
             (map time_now fs))
  /\ (exists fs,
        written_at (stream inp) (fst (run_stream_unique cfg inp)) fs
        /\ spaced (record_interval cfg * 1000) (start_time inp)
             (map time_now fs)).
Proof.
  intros Hs Hr.
  assert (Hnone : exists fs : list Frame,
            written_at (stream inp) [] fs
            /\ spaced (record_interval cfg * 1000) (start_time inp)
                 (map time_now fs)).
  { exists []. split; [split; [constructor|reflexivity]|exact I]. }
  unfold run_stream_directional, run_stream_unique.
  destruct (stream_opens inp); [|simpl; repeat split; try lia; exact Hnone].
  split; [|split; [|split]].
  - pose proof (directional_loop_rate cfg (start_datetime inp) tmax
                  (stream inp) (mkCounting (new_tracker 40) 0 0 [])
                  (start_time inp) [] Hs Hr) as H.
    simpl in H. lia.
  - pose proof (unique_loop_rate cfg tmax (stream inp)
                  (mkUnique (new_tracker 40) 0 []) (start_time inp) []
                  Hs Hr) as H.
    simpl in H. lia.
  - destruct (directional_loop_spaced cfg (start_datetime inp) (stream inp)
                (mkCounting (new_tracker 40) 0 0 []) (start_time inp) [])
      as (fs & F & M & S).
    exists fs. split; [split; assumption|assumption].
  - destruct (unique_loop_spaced cfg (stream inp)
                (mkUnique (new_tracker 40) 0 []) (start_time inp) [])
      as (fs & F & M & S).
    exists fs. split; [split; assumption|assumption].
Qed.

Lemma snapshots_rate_limited_witness :
  start_time flush_input <= 3940
  /\ Forall (read_by 3940) (stream flush_input)
  /\ length (fst (run_stream_directional (flush_config true) flush_input))
     = 2%nat
  /\ Z.of_nat (length (fst (run_stream_directional (flush_config true)
                              flush_input)))
     * (record_interval (flush_config true) * 1000)
     <= 3940 - start_time flush_input
  /\ exists fs,
       written_at (stream flush_input)
         (fst (run_stream_directional (flush_config true) flush_input)) fs
       /\ spaced (record_interval (flush_config true) * 1000)
            (start_time flush_input) (map time_now fs).
Proof.
  assert (Hs : start_time flush_input <= 3940) by discriminate.
  assert (Hr : Forall (read_by 3940) (stream flush_input)).
  { unfold flush_input, flush_frames. cbn [stream seq map app].
    repeat (constructor; [cbn; discriminate|]). constructor. }
  split; [exact Hs|]. split; [exact Hr|]. split; [vm_compute; reflexivity|].
  destruct (snapshots_rate_limited (flush_config true) flush_input 3940
              Hs Hr) as (Hb & _ & Hsp & _).
  split; [exact Hb|exact Hsp].
Defined.

(** ** What a frame records *)

Lemma dict_get_item {V : Type} (d : dict V) k v :
  NoDup (keys d) -> In (k, v) d -> dict_get k d = Some v.
Proof.
  induction d as [|[k' v'] d IH]; simpl; [contradiction|].
  intros N [E|H].
  - injection E as -> ->. now rewrite Z.eqb_refl.
  - inversion N as [|? ? Hn N']; subst.
    destruct (Z.eqb_spec k k') as [->|_]; [|auto].
    exfalso. apply Hn. apply in_map_iff. now exists (k', v).
Qed.

Lemma dict_get_pair {V : Type} (d : dict V) k v :
  dict_get k d = Some v -> In (k, v) d.
Proof.
  induction d as [|[k' v'] d IH]; simpl; [discriminate|].
  destruct (Z.eqb_spec k k') as [->|_]; [intros [= ->]; now left|auto].
Qed.

Lemma crossed_same o pt1 pt2 c : crossed o pt1 pt2 c c = false.
Proof.
  destruct o; simpl; unfold crosses_up, crosses_down, crosses_left,
    crosses_right; try reflexivity.
  - destruct (Z.gtb_spec (snd c) (snd pt1)), (Z.leb_spec (snd c) (snd pt1)),
      (Z.ltb_spec (snd c) (snd pt1)), (Z.geb_spec (snd c) (snd pt1));
      simpl; try reflexivity; lia.
  - destruct (Z.gtb_spec (fst c) (fst pt1)), (Z.leb_spec (fst c) (fst pt1)),
      (Z.ltb_spec (fst c) (fst pt1)), (Z.geb_spec (fst c) (fst pt1));
      simpl; try reflexivity; lia.
  - apply Z.ltb_ge. nia.
Qed.

Lemma count_crossing_sound o alg md pt1 pt2 st id c st' :
  count_crossing o alg md pt1 pt2 st (id, c) = Some st' ->
  objects (ct st') = objects (ct st)
  /\ previousCentroids (ct st') = previousCentroids (ct st)
  /\ (events st' = events st
      \/ exists b,
           events st' = events st ++ [(id, b)]
           /\ dict_get id (counted (ct st)) = Some false
           /\ crossed o pt1 pt2 (previous_or (ct st) id c) c = true
           /\ below_threshold alg md
                (displacement o (previous_or (ct st) id c) c) = false
           /\ bucket_of o pt1 pt2 (previous_or (ct st) id c) c = Some b).
Proof.
  unfold count_crossing. fold (previous_or (ct st) id c).
  destruct (dict_get id (counted (ct st))) as [fl|]; [|discriminate].
  cbn [bind]. destruct fl; [intros [= <-]; auto|].
  destruct (crossed o pt1 pt2 (previous_or (ct st) id c) c) eqn:Ec;
    [|intros [= <-]; auto].
  destruct (below_threshold alg md
              (displacement o (previous_or (ct st) id c) c)) eqn:Et;
    [intros [= <-]; auto|].
  destruct (crossed_bucket _ _ _ _ _ Ec) as [b Eb]. rewrite Eb.
  intros [= <-]. simpl. split; [reflexivity|]. split; [reflexivity|].
  right. exists b. auto.
Qed.

Lemma count_crossing_flag_back o alg md pt1 pt2 st item st' k :
  count_crossing o alg md pt1 pt2 st item = Some st' ->
  dict_get k (counted (ct st')) = Some false ->
  dict_get k (counted (ct st)) = Some false.
Proof.
  destruct item as [id c]. unfold count_crossing.
  destruct (dict_get id (counted (ct st))) as [fl|]; [|discriminate].
  cbn [bind]. destruct fl; [now intros [= <-]|].
  match goal with |- context [crossed o pt1 pt2 ?p c] =>
    set (prev := p) end.
  destruct (crossed o pt1 pt2 prev c); [|now intros [= <-]].
  destruct (below_threshold alg md (displacement o prev c));
    [now intros [= <-]|].
  intros [= <-]. cbn [ct].
  destruct (bucket_of o pt1 pt2 prev c); apply mark_counted_back.
Qed.

Lemma count_crossing_loop_sound o alg md pt1 pt2 items :
  forall st st',
    foldM (count_crossing o alg md pt1 pt2) items st = Some st' ->
    objects (ct st') = objects (ct st)
    /\ previousCentroids (ct st') = previousCentroids (ct st)
    /\ forall id b, In (id, b) (events st') ->
         In (id, b) (events st)
         \/ exists c,
              In (id, c) items
              /\ dict_get id (counted (ct st)) = Some false
              /\ crossed o pt1 pt2 (previous_or (ct st) id c) c = true
              /\ below_threshold alg md
                   (displacement o (previous_or (ct st) id c) c) = false
              /\ bucket_of o pt1 pt2 (previous_or (ct st) id c) c = Some b.
Proof.
  induction items as [|[id c] items IH]; intros st st'; cbn [foldM].
  - intros [= <-]. auto.
  - destruct (count_crossing o alg md pt1 pt2 st (id, c)) as [s1|] eqn:E;
      [|discriminate]. cbn [bind]. intros H.
    pose proof (fun k => count_crossing_flag_back _ _ _ _ _ _ _ _ k E)
      as Hback.
    apply count_crossing_sound in E as (O1 & P1 & E1).
    apply IH in H as (O2 & P2 & E2).
    split; [congruence|]. split; [congruence|].
    intros id' b' Hin.
    destruct (E2 id' b' Hin) as [Hold|(c' & Hc' & Hf & Hx)].
    + destruct E1 as [E1|(b & E1 & Hf & Hx)]; rewrite E1 in Hold;
        [now left|].
      apply in_app_iff in Hold as [Hold|[[= <- <-]|[]]]; [now left|].
      right. exists c. split; [now left|]. split; assumption.
    + right. exists c'. split; [now right|]. split; [now apply Hback|].
      unfold previous_or in *. now rewrite <- P1.
Qed.

Lemma frame_events_sound lo alg md st f :
  counted_inv (ct st) (map fst (events st)) ->
  exists t1 st',
    update (detections f) (ct st) = Some t1 /\ wf t1
    /\ process_frame_directional lo alg md st f = Some st'
    /\ forall id b, In (id, b) (events st') ->
         In (id, b) (events st)
         \/ exists prev c,
              dict_get id (previousCentroids t1) = Some prev
              /\ dict_get id (objects t1) = Some c
              /\ dict_get id (counted t1) = Some false
              /\ crossed (orientation lo)
                   (fst (line_points lo (frame_height f) (frame_width f)))
                   (snd (line_points lo (frame_height f) (frame_width f)))
                   prev c = true
              /\ below_threshold alg md
                   (displacement (orientation lo) prev c) = false
              /\ bucket_of (orientation lo)
                   (fst (line_points lo (frame_height f) (frame_width f)))
                   (snd (line_points lo (frame_height f) (frame_width f)))
                   prev c = Some b.
Proof.
  intros I. destruct (frame_directional lo alg md st f I) as (st' & E & _).
  unfold process_frame_directional in *.
  destruct (line_points lo (frame_height f) (frame_width f)) as [pt1 pt2].
  destruct (counted_inv_update (detections f) _ _ I) as (t1 & E1 & I1 & _).
  rewrite E1 in *. cbn [bind] in *.
  exists t1, st'. split; [reflexivity|]. split; [apply I1|].
  split; [assumption|].
  apply count_crossing_loop_sound in E as (O & P & Ev). simpl in O, P, Ev.
  intros id b Hin.
  destruct (Ev id b Hin) as [H|(c & Hc & Hf & Hx)]; [now left|].
  right. destruct I1 as (W1 & _).
  assert (Eo : dict_get id (objects t1) = Some c)
    by (apply dict_get_item; [apply (wf_nodup t1 W1)|assumption]).
  destruct (dict_get_in (previousCentroids t1) id) as [prev Ep].
  { rewrite (wf_previous t1 W1). eapply dict_get_some_in; eauto. }
  exists prev, c. unfold previous_or in Hx. rewrite Ep in Hx. simpl.
  auto.
Qed.

(** X15. Every event that a frame adds in directional mode is a crossing
    that the tracker shows after [update]: the identity is tracked and not
    yet counted, its previous and current centroids pass the crossing test
    of the orientation, the displacement passes the gate, and the event
    goes to the bucket of that crossing. *)
Theorem recorded_events_are_crossings (lo : LineOptions)
    (alg : CountingAlgorithm) (min_disp : Z) (st : Counting) (f : Frame) :
  counted_inv (ct st) (map fst (events st)) ->
  exists t1 st',
    update (detections f) (ct st) = Some t1
    /\ process_frame_directional lo alg min_disp st f = Some st'
    /\ forall id b, In (id, b) (events st') ->
         In (id, b) (events st)
         \/ exists prev c,
              dict_get id (previousCentroids t1) = Some prev
              /\ dict_get id (objects t1) = Some c
              /\ dict_get id (counted t1) = Some false
              /\ crossed (orientation lo)
                   (fst (line_points lo (frame_height f) (frame_width f)))
                   (snd (line_points lo (frame_height f) (frame_width f)))
                   prev c = true
              /\ below_threshold alg min_disp
                   (displacement (orientation lo) prev c) = false
              /\ bucket_of (orientation lo)
                   (fst (line_points lo (frame_height f) (frame_width f)))
                   (snd (line_points lo (frame_height f) (frame_width f)))
                   prev c = Some b.
Proof.
  intros I.
  destruct (frame_events_sound lo alg min_disp st f I)
    as (t1 & st' & E1 & _ & E & H).
  exists t1, st'. auto.
Qed.

Lemma recorded_events_are_crossings_witness :
  counted_inv (ct (one_object (50, 110))) []
  /\ option_map events
       (process_frame_directional (mkLine Horizontal (1 # 2) Diag1)
          Standard 10 (one_object (50, 110))
          (mkFrame 200 300 [(50, 95)] 0 0 false)) = Some [(0, UP)]
  /\ exists t1 st',
       update [(50, 95)] (ct (one_object (50, 110))) = Some t1
       /\ process_frame_directional (mkLine Horizontal (1 # 2) Diag1)
            Standard 10 (one_object (50, 110))
            (mkFrame 200 300 [(50, 95)] 0 0 false) = Some st'.
Proof.
  assert (I : counted_inv (ct (one_object (50, 110))) []).
  { split; [apply register_wf, new_tracker_wf|].
    split; [constructor|]. intros k []. }
  split; [exact I|]. split; [reflexivity|].
  destruct (recorded_events_are_crossings (mkLine Horizontal (1 # 2) Diag1)
              Standard 10 (one_object (50, 110))
              (mkFrame 200 300 [(50, 95)] 0 0 false) I)
    as (t1 & st' & E1 & E & _).
  exists t1, st'. split; assumption.
Defined.

(** X16. Directional mode never counts an identity on the frame that
    registers it: an event added by a frame belongs to an identity that
    was tracked, with its flag false, before the frame. *)
Theorem no_count_on_first_sighting (lo : LineOptions)
    (alg : CountingAlgorithm) (min_disp : Z) (st : Counting) (f : Frame) :
  counted_inv (ct st) (map fst (events st)) ->
  exists st',
    process_frame_directional lo alg min_disp st f = Some st'
    /\ forall id b, In (id, b) (events st') ->
         In (id, b) (events st)
         \/ (In id (keys (objects (ct st)))
             /\ dict_get id (counted (ct st)) = Some false).
Proof.
  intros I.
  destruct (frame_events_sound lo alg min_disp st f I)
    as (t1 & st' & E1 & W1 & E & H).
  exists st'. split; [assumption|]. intros id b Hin.
  destruct (H id b Hin) as [Hold|(prev & c & Ep & Eo & Ef & Ex & _)];
    [now left|]. right.
  destruct (update_cases (detections f) (ct st) (proj1 I))
    as (t1' & E1' & _ & _ & _ & Hk).
  rewrite E1 in E1'. injection E1' as <-.
  assert (Hid : In id (keys (objects t1)))
    by (eapply dict_get_some_in; eauto).
  destruct (Hk id Hid) as [(_ & c' & _ & Hv)|[(Hin' & p & _ & Hv)
                                             |(Hin' & n & _ & _ & Hv)]];
    unfold view in Hv; injection Hv as Ho' _ Hp' Hc'.
  - exfalso. assert (prev = c) by congruence. subst prev.
    rewrite crossed_same in Ex. discriminate.
  - split; [assumption|congruence].
  - split; [assumption|congruence].
Qed.

Lemma no_count_on_first_sighting_witness :
  counted_inv (new_tracker 40) []
  /\ option_map events
       (process_frame_directional (mkLine Horizontal (1 # 2) Diag1)
          Standard 10 (mkCounting (new_tracker 40) 0 0 [])
          (mkFrame 200 300 [(50, 95)] 0 0 false)) = Some []
  /\ exists st',
       process_frame_directional (mkLine Horizontal (1 # 2) Diag1)
         Standard 10 (mkCounting (new_tracker 40) 0 0 [])
         (mkFrame 200 300 [(50, 95)] 0 0 false) = Some st'.
Proof.
  split; [exact (counted_inv_new 40)|]. split; [reflexivity|].
  destruct (no_count_on_first_sighting (mkLine Horizontal (1 # 2) Diag1)
              Standard 10 (mkCounting (new_tracker 40) 0 0 [])
              (mkFrame 200 300 [(50, 95)] 0 0 false) (counted_inv_new 40))
    as (st' & E & _).
  exists st'. exact E.
Defined.

(** ** Counts and identities *)

Lemma interval_incl (l : list Z) n :
  (forall k, In k l -> 0 <= k < n) ->
  incl l (map Z.of_nat (seq 0 (Z.to_nat n))).
Proof.
  intros H k Hk. specialize (H k Hk). apply in_map_iff.
  exists (Z.to_nat k). split; [lia|]. apply in_seq. lia.
Qed.

Lemma nodup_interval_bound (l : list Z) n :
  0 <= n -> NoDup l -> (forall k, In k l -> 0 <= k < n) ->
  Z.of_nat (length l) <= n.
Proof.
  intros Hn N H.
  pose proof (NoDup_incl_length N (interval_incl l n H)) as L.
  rewrite length_map, length_seq in L. lia.
Qed.

Lemma nodup_interval_length (l : list Z) n :
  0 <= n -> NoDup l -> (forall k, In k l <-> 0 <= k < n) ->
  Z.of_nat (length l) = n.
Proof.
  intros Hn N H.
  assert (L1 : Z.of_nat (length l) <= n)
    by (apply nodup_interval_bound; [assumption|assumption|apply H]).
  assert (N' : NoDup (map Z.of_nat (seq 0 (Z.to_nat n)))).
  { apply Finite.Injective_map_NoDup; [intros a b; lia|apply seq_NoDup]. }
  assert (L2 : (length (map Z.of_nat (seq 0 (Z.to_nat n))) <= length l)%nat).
  { apply NoDup_incl_length; [assumption|].
    intros k Hk. apply in_map_iff in Hk as (i & <- & Hi).
    apply in_seq in Hi. apply H. lia. }
  rewrite length_map, length_seq in L2. lia.
Qed.

Lemma count_unique_marks items :
  forall st st',
    foldM count_unique items st = Some st' ->
    nextObjectID (uct st') = nextObjectID (uct st)
    /\ incl (counted_ids st) (counted_ids st')
    /\ (forall id c, In (id, c) items ->
          dict_get id (counted (uct st)) = Some false ->
          In id (counted_ids st'))
    /\ (forall k, In k (counted_ids st') ->
          In k (counted_ids st) \/ In k (map fst items)).
Proof.
  induction items as [|[id c] items IH]; intros st st'; cbn [foldM].
  - intros [= <-]. split; [reflexivity|]. split; [apply incl_refl|].
    split; [intros ? ? []|auto].
  - unfold count_unique at 1.
    destruct (dict_get id (counted (uct st))) as [fl|] eqn:Ef;
      [|discriminate]. cbn [bind].
    destruct fl; intros H; apply IH in H as (H0 & H1 & H2 & H3);
      simpl in *.
    + split; [assumption|]. split; [assumption|]. split.
      * intros id' c' [[= <- <-]|Hin] Hf; [congruence|eauto].
      * intros k Hk. destruct (H3 k Hk); auto.
    + split; [assumption|].
      split; [intros k Hk; apply H1, in_app_iff; now left|]. split.
      * intros id' c' [[= <- <-]|Hin] Hf.
        -- apply H1, in_app_iff. right. now left.
        -- destruct (Z.eq_dec id' id) as [->|N];
             [apply H1, in_app_iff; right; now left|].
           apply (H2 id' c' Hin). now rewrite dict_get_set_other.
      * intros k Hk. destruct (H3 k Hk) as [Hk'|Hk']; [|auto].
        apply in_app_iff in Hk' as [Hk'|[<-|[]]]; auto.
Qed.

Lemma frame_unique_all st f :
  all_counted st ->
  exists st', process_frame_unique st f = Some st' /\ all_counted st'.
Proof.
  intros (I & C & A).
  destruct (frame_unique st f I) as (st' & E & I' & B' & C').
  exists st'. split; [assumption|]. split; [assumption|].
  split; [auto|].
  unfold process_frame_unique in E.
  destruct (update_spec (detections f) (uct st) (proj1 I))
    as (t1 & E1 & W1 & _ & Hn & _ & _ & _ & Hnew).
  rewrite E1 in E. cbn [bind] in E.
  apply count_unique_marks in E as (M0 & M1 & M2 & M3).
  simpl in M0, M1, M2, M3.
  intros k. split.
  - intros Hk. split; [|apply I'; assumption].
    destruct (M3 k Hk) as [Hold|Hlive]; [now apply A|].
    now apply (wf_bound t1 W1).
  - intros [H0 Hlt]. rewrite M0, Hn in Hlt.
    destruct (Z_lt_le_dec k (nextObjectID (uct st))) as [Hold|Hnew'].
    + apply M1, A. lia.
    + destruct (nth_error (new_centroids (detections f) (uct st))
                  (Z.to_nat (k - nextObjectID (uct st)))) as [c|] eqn:Ec;
        [|apply nth_error_None in Ec; lia].
      specialize (Hnew _ c Ec).
      replace (nextObjectID (uct st)
               + Z.of_nat (Z.to_nat (k - nextObjectID (uct st))))
        with k in Hnew by lia.
      unfold view in Hnew. injection Hnew as Ho _ _ Hf.
      apply (M2 k c); [now apply dict_get_pair|assumption].
Qed.

Lemma run_unique_all frames :
  forall st,
    all_counted st ->
    exists st', run_unique frames st = Some st' /\ all_counted st'.
Proof.
  unfold run_unique.
  induction frames as [|f frames IH]; intros st A; cbn [foldM].
  - exists st. split; [reflexivity|assumption].
  - destruct (frame_unique_all st f A) as (s1 & E1 & A1).
    rewrite E1. cbn [bind]. now apply IH.
Qed.

(** X17. Unique mode counts every identity, once, on the frame that
    registers it: after any sequence of frames the total is the number of
    identities the tracker has registered, and the identities counted are
    0, 1, ..., [nextObjectID] - 1. *)
Theorem unique_counts_every_identity (frames : list Frame) :
  exists u,
    run_unique frames (mkUnique (new_tracker 40) 0 []) = Some u
    /\ total_count u = nextObjectID (uct u)
    /\ forall k, In k (counted_ids u) <-> 0 <= k < nextObjectID (uct u).
Proof.
  destruct (run_unique_all frames (mkUnique (new_tracker 40) 0 []))
    as (u & E & I & C & A).
  { split; [apply counted_inv_new|]. split; [reflexivity|].
    intros k. simpl. split; [tauto|lia]. }
  exists u. split; [assumption|]. split; [|assumption].
  rewrite C. apply nodup_interval_length; [|apply I|assumption].
  apply (wf_next _ (proj1 I)).
Qed.

Lemma frame_directional_bounded lo alg md st f :
  counted_inv (ct st) (map fst (events st)) ->
  (forall k, In k (map fst (events st)) -> 0 <= k) ->
  0 <= count1 st -> 0 <= count2 st ->
  count1 st + count2 st = Z.of_nat (length (map fst (events st))) ->
  exists st',
    process_frame_directional lo alg md st f = Some st'
    /\ counted_inv (ct st') (map fst (events st'))
    /\ (forall k, In k (map fst (events st')) -> 0 <= k)
    /\ 0 <= count1 st' /\ 0 <= count2 st'
    /\ count1 st' + count2 st' = Z.of_nat (length (map fst (events st'))).
Proof.
  intros I Hpos H1 H2 C.
  destruct (frame_directional lo alg md st f I) as (st' & E & I' & _ & C').
  exists st'. split; [assumption|]. split; [assumption|].
  pose proof (frame_directional_mono _ _ _ _ _ _ E) as [M1 M2].
  split; [|split; [lia|split; [lia|auto]]].
  destruct (frame_events_sound lo alg md st f I)
    as (t1 & st'' & E1 & W1 & E'' & H).
  rewrite E in E''. injection E'' as <-.
  intros k Hk. apply in_map_iff in Hk as ([id b] & <- & Hin). simpl.
  destruct (H id b Hin) as [Hold|(prev & c & _ & Eo & _)].
  - apply Hpos. apply in_map_iff. now exists (id, b).
  - apply (wf_bound t1 W1). eapply dict_get_some_in; eauto.
Qed.

(** X18. In directional mode the counts never exceed the number of
    identities registered: after any sequence of frames both counters are
    non-negative, their sum is at most [nextObjectID], and every event
    belongs to an identity between 0 and [nextObjectID] - 1. *)
Theorem directional_total_within_identities (lo : LineOptions)
    (alg : CountingAlgorithm) (min_disp : Z) (frames : list Frame) :
  exists s,
    run_directional lo alg min_disp frames
      (mkCounting (new_tracker 40) 0 0 []) = Some s
    /\ 0 <= count1 s /\ 0 <= count2 s
    /\ count1 s + count2 s <= nextObjectID (ct s)
    /\ Forall (fun e => 0 <= fst e < nextObjectID (ct s)) (events s).
Proof.
  assert (Hrun : forall frames st,
            counted_inv (ct st) (map fst (events st)) ->
            (forall k, In k (map fst (events st)) -> 0 <= k) ->
            0 <= count1 st -> 0 <= count2 st ->
            count1 st + count2 st
            = Z.of_nat (length (map fst (events st))) ->
            exists st',
              run_directional lo alg min_disp frames st = Some st'
              /\ counted_inv (ct st') (map fst (events st'))
              /\ (forall k, In k (map fst (events st')) -> 0 <= k)
              /\ 0 <= count1 st' /\ 0 <= count2 st'
              /\ count1 st' + count2 st'
                 = Z.of_nat (length (map fst (events st')))).
  { unfold run_directional. clear frames.
    induction frames as [|f frames IH]; intros st I Hp H1 H2 C;
      cbn [foldM].
    - exists st. auto 10.
    - destruct (frame_directional_bounded lo alg min_disp st f I Hp H1 H2 C)
        as (s1 & E1 & I1 & Hp1 & H11 & H21 & C1).
      rewrite E1. cbn [bind]. now apply IH. }
  destruct (Hrun frames (mkCounting (new_tracker 40) 0 0 [])
              (counted_inv_new 40))
    as (s & E & I & Hp & H1 & H2 & C);
    [intros k []|simpl; lia|simpl; lia|reflexivity|].
  exists s. split; [assumption|]. split; [assumption|].
  split; [assumption|].
  assert (Hb : forall k, In k (map fst (events s)) ->
                 0 <= k < nextObjectID (ct s)).
  { intros k Hk. split; [now apply Hp|]. now apply I. }
  split.
  - rewrite C. apply nodup_interval_bound; [|apply I|assumption].
    apply (wf_next _ (proj1 I)).
  - apply Forall_forall. intros e He. apply Hb. now apply in_map.
Qed.

(** ** When a session returns *)

Lemma directional_loop_returns cfg start items :
  forall st last calls,
    counted_inv (ct st) (map fst (events st)) ->
    snd (directional_loop cfg start items st last calls) <> None
    <-> Exists ends_stream items.
Proof.
  induction items as [|[f|] items IH]; intros st last calls I; simpl.
  - split; [congruence|]. intros H. inversion H.
  - destruct (frame_directional (line_options cfg) (counting_algorithm cfg)
                (min_displacement cfg) st f I) as (st' & E & I' & _).
    rewrite E. destruct (quit_pressed f) eqn:Eq.
    + split; [intros _; now left|discriminate].
    + rewrite IH by assumption. split; [now right|].
      intros H. inversion H as [? ? Hf|? ? Ht]; subst; [|assumption].
      simpl in Hf. congruence.
  - split; [intros _; now left|discriminate].
Qed.

Lemma unique_loop_returns cfg items :
  forall st last calls,
    counted_inv (uct st) (counted_ids st) ->
    snd (unique_loop cfg items st last calls) <> None
    <-> Exists ends_stream items.
Proof.
  induction items as [|[f|] items IH]; intros st last calls I; simpl.
  - split; [congruence|]. intros H. inversion H.
  - destruct (frame_unique st f I) as (st' & E & I' & _).
    rewrite E. destruct (quit_pressed f) eqn:Eq.
    + split; [intros _; now left|discriminate].
    + rewrite IH by assumption. split; [now right|].
      intros H. inversion H as [? ? Hf|? ? Ht]; subst; [|assumption].
      simpl in Hf. congruence.
  - split; [intros _; now left|discriminate].
Qed.

(** X19. A session returns, and writes its final row, exactly when the
    stream cannot be opened or the stream holds a decode failure or a frame
    on which [q] is pressed: the tracker and the counting never raise, and
    a decoder that runs out of frames without an exception leaves
    [while True] spinning.  When the session returns, the last row written
    is the final one, keyed by the launch time. *)
Theorem session_returns_iff (cfg : Config) (inp : SessionInput) :
  (snd (launch_analysis_and_flask cfg inp) = true
   <-> stream_opens inp = false \/ Exists ends_stream (stream inp))
  /\ (snd (launch_analysis_and_flask cfg inp) = true ->
      exists calls r,
        fst (launch_analysis_and_flask cfg inp) = calls ++ [r]
        /\ stream_url r = rtsp_url cfg
        /\ session_start r = strftime (launch_datetime inp)
        /\ session_end r = strftime (end_datetime inp)).
Proof.
  assert (Hd : snd (run_stream_directional cfg inp) <> None
               <-> stream_opens inp = false
                   \/ Exists ends_stream (stream inp)).
  { unfold run_stream_directional. destruct (stream_opens inp).
    - rewrite directional_loop_returns by apply counted_inv_new.
      split; [now right|]. now intros [H|H].
    - simpl. split; [now left|discriminate]. }
  assert (Hu : snd (run_stream_unique cfg inp) <> None
               <-> stream_opens inp = false
                   \/ Exists ends_stream (stream inp)).
  { unfold run_stream_unique. destruct (stream_opens inp).
    - rewrite unique_loop_returns by apply counted_inv_new.
      split; [now right|]. now intros [H|H].
    - simpl. split; [now left|discriminate]. }
  unfold launch_analysis_and_flask.
  destruct (directional cfg).
  - rewrite <- Hd.
    destruct (run_stream_directional cfg inp) as [calls [[[c1 c2] n]|]];
      simpl.
    + destruct (orientation (line_options cfg)); simpl;
        (split; [split; [discriminate|reflexivity]|]); intros _;
        eexists; eexists; (split; [reflexivity|]); simpl; auto.
    + split; [split; [discriminate|congruence]|discriminate].
  - rewrite <- Hu.
    destruct (run_stream_unique cfg inp) as [calls [n|]]; simpl.
    + split; [split; [discriminate|reflexivity]|]. intros _.
      eexists. eexists. split; [reflexivity|]. simpl. auto.
    + split; [split; [discriminate|congruence]|discriminate].
Qed.

(** ** The stream overview *)

Section StringDictFacts.
Context {V : Type}.
Implicit Types (d : sdict V) (k : String.string) (v : V).

Lemma sdict_get_set d k k' v :
  sdict_get k (sdict_set k' v d)
  = if String.eqb k k' then Some v else sdict_get k d.
Proof.
  induction d as [|[k0 v0] d IH]; simpl; [reflexivity|].
  destruct (String.eqb_spec k' k0) as [->|N]; simpl.
  - destruct (String.eqb k k0); reflexivity.
  - rewrite IH. destruct (String.eqb_spec k k0) as [->|N']; [|reflexivity].
    destruct (String.eqb_spec k0 k'); [congruence|reflexivity].
Qed.

Lemma sdict_keys_set d k v :
  map fst (sdict_set k v d)
  = match sdict_get k d with
    | Some _ => map fst d
    | None => map fst d ++ [k]
    end.
Proof.
  induction d as [|[k0 v0] d IH]; simpl; [reflexivity|].
  destruct (String.eqb_spec k k0) as [->|N]; simpl; [reflexivity|].
  rewrite IH. destruct (sdict_get k d); reflexivity.
Qed.

Lemma sdict_get_none d k : sdict_get k d = None -> ~ In k (map fst d).
Proof.
  induction d as [|[k0 v0] d IH]; simpl; [tauto|].
  destruct (String.eqb_spec k k0) as [->|N]; [discriminate|].
  intros H [E|Hin]; [congruence|]. now apply IH.
Qed.

Lemma sdict_set_nodup d k v :
  NoDup (map fst d) -> NoDup (map fst (sdict_set k v d)).
Proof.
  intros N. rewrite sdict_keys_set.
  destruct (sdict_get k d) eqn:E; [assumption|].
  apply NoDup_app; [assumption|repeat constructor; simpl; tauto|].
  intros k' Hk [<-|[]]. now apply sdict_get_none in E.
Qed.
End StringDictFacts.

Lemma sessions_shown_set d k v :
  sessions_shown (sdict_set k v d)
  = sessions_shown d + session_count v
    - match sdict_get k d with
      | Some old => session_count old
      | None => 0
      end.
Proof.
  induction d as [|[k0 v0] d IH]; simpl; [lia|].
  destruct (String.eqb k k0); simpl; [lia|]. rewrite IH. lia.
Qed.

Lemma index_row_spec d row :
  exists d',
    index_row d row = Some d'
    /\ (NoDup (map fst d) -> NoDup (map fst d'))
    /\ sessions_shown d' = sessions_shown d + 1
    /\ forall s,
         sdict_get s d'
         = if String.eqb (stream_url row) s
           then Some (summary_step (sdict_get s d) row)
           else sdict_get s d.
Proof.
  unfold index_row. destruct (sdict_get (stream_url row) d) as [data|] eqn:E.
  - rewrite E. cbn [bind]. eexists. split; [reflexivity|].
    split; [apply sdict_set_nodup|]. split.
    + rewrite sessions_shown_set, E. simpl. lia.
    + intros s. rewrite sdict_get_set, String.eqb_sym.
      destruct (String.eqb_spec (stream_url row) s) as [<-|N];
        [|reflexivity].
      now rewrite E.
  - rewrite sdict_get_set, String.eqb_refl. cbn [bind].
    eexists. split; [reflexivity|].
    split; [intros N; now apply sdict_set_nodup, sdict_set_nodup|]. split.
    + rewrite !sessions_shown_set, sdict_get_set, String.eqb_refl, E.
      simpl. lia.
    + intros s. rewrite !sdict_get_set, String.eqb_sym.
      destruct (String.eqb_spec (stream_url row) s) as [<-|N];
        [|reflexivity].
      now rewrite E.
Qed.

Lemma index_loop_spec streams :
  forall d,
    NoDup (map fst d) ->
    exists d',
      foldM index_row streams d = Some d'
      /\ NoDup (map fst d')
      /\ sessions_shown d' = sessions_shown d + Z.of_nat (length streams)
      /\ forall s,
           sdict_get s d'
           = fold_left (fun acc r => Some (summary_step acc r))
               (rows_of s streams) (sdict_get s d).
Proof.
  induction streams as [|row streams IH]; intros d N; cbn [foldM].
  - exists d. split; [reflexivity|]. split; [assumption|].
    split; [simpl; lia|reflexivity].
  - destruct (index_row_spec d row) as (d1 & E1 & N1 & S1 & G1).
    rewrite E1. cbn [bind].
    destruct (IH d1 (N1 N)) as (d' & E' & N' & S' & G').
    exists d'. split; [assumption|]. split; [assumption|].
    split; [rewrite S', S1; cbn [length]; lia|].
    intros s. rewrite G', G1. unfold rows_of. simpl.
    destruct (String.eqb (stream_url row) s); reflexivity.
Qed.

Lemma summary_fold_some rs data :
  fold_left (fun acc r => Some (summary_step acc r)) rs (Some data)
  = Some (mkSummary (summary_object_type data)
            (session_count data + Z.of_nat (length rs))
            (first_session data)).
Proof.
  revert data. induction rs as [|r rs IH]; intros data; cbn [fold_left].
  - simpl. destruct data. simpl. f_equal. f_equal. lia.
  - rewrite IH. simpl. f_equal. f_equal. lia.
Qed.

(** X20. [index] groups the rows fetched by stream and never raises: the
    overview has one entry per stream, an absent stream has none, the
    session count of a stream is the number of its rows, its object type
    and first session are those of its first row in the order fetched, and
    the session counts add up to the number of rows. *)
Theorem index_groups_by_stream (streams : list SessionRow) :
  exists d,
    index streams = Some d
    /\ NoDup (map fst d)
    /\ sessions_shown d = Z.of_nat (length streams)
    /\ forall s,
         sdict_get s d
         = match rows_of s streams with
           | [] => None
           | r :: rs =>
               Some (mkSummary (row_object_type r)
                       (Z.of_nat (length (r :: rs))) (session_start r))
           end.
Proof.
  destruct (index_loop_spec streams [] (NoDup_nil _))
    as (d & E & N & S & G).
  exists d. split; [assumption|]. split; [assumption|].
  split; [simpl in S; lia|].
  intros s. rewrite G. simpl sdict_get.
  destruct (rows_of s streams) as [|r rs]; [reflexivity|].
  cbn [fold_left]. rewrite summary_fold_some.
  cbn [summary_step summary_object_type session_count first_session length].
  rewrite Nat2Z.inj_succ. f_equal. f_equal. lia.
Qed.

(** ** Launch settings *)

(** X21. [choose_line_options_setting] keeps the line settings usable
    whatever is answered: a position between 0 and 1 stays between 0 and 1,
    an orientation that the stream function knows stays one it knows, a
    line that is not diagonal gets the direction mode of its orientation,
    and the line that [run_stream_directional] computes from the new
    settings, on a frame with dimensions below 2^53, lies in the frame. *)
Theorem line_settings_stay_valid (s : LineSettings)
    (orientation_choice d_choice : String.string) (pos : option Q)
    (H W : Z) :
  (0 <= position_setting s)%Q -> (position_setting s <= 1)%Q ->
  orientation (read_line_options s) <> OtherOrientation ->
  0 <= H < 2 ^ 53 -> 0 <= W < 2 ^ 53 ->
  (0 <= position_setting
          (choose_line_options_setting s orientation_choice pos d_choice))%Q
  /\ (position_setting
        (choose_line_options_setting s orientation_choice pos d_choice)
      <= 1)%Q
  /\ orientation
       (read_line_options
          (choose_line_options_setting s orientation_choice pos d_choice))
     <> OtherOrientation
  /\ (orientation
        (read_line_options
           (choose_line_options_setting s orientation_choice pos d_choice))
      = Horizontal ->
      direction_mode_setting
        (choose_line_options_setting s orientation_choice pos d_choice)
      = "vertical"%string)
  /\ (orientation
        (read_line_options
           (choose_line_options_setting s orientation_choice pos d_choice))
      = Vertical ->
      direction_mode_setting
        (choose_line_options_setting s orientation_choice pos d_choice)
      = "horizontal"%string)
  /\ in_frame H W
       (fst (line_points
               (read_line_options
                  (choose_line_options_setting s orientation_choice pos
                     d_choice)) H W))
  /\ in_frame H W
       (snd (line_points
               (read_line_options
                  (choose_line_options_setting s orientation_choice pos
                     d_choice)) H W)).
Proof.
  intros P0 P1 Ho HH HW.
  set (s' := choose_line_options_setting s orientation_choice pos d_choice).
  assert (Hp : (0 <= position_setting s')%Q /\ (position_setting s' <= 1)%Q).
  { unfold s', choose_line_options_setting. cbn [position_setting].
    destruct pos as [v|]; [|auto].
    destruct (Qle_bool 0 v) eqn:E0; [|auto].
    destruct (Qle_bool v 1) eqn:E1; [|auto].
    simpl. split; now apply Qle_bool_iff. }
  destruct Hp as [Hp0 Hp1]. split; [assumption|]. split; [assumption|].
  assert (Hor : orientation (read_line_options s') <> OtherOrientation
                /\ (orientation (read_line_options s') = Horizontal ->
                    direction_mode_setting s' = "vertical"%string)
                /\ (orientation (read_line_options s') = Vertical ->
                    direction_mode_setting s' = "horizontal"%string)).
  { unfold s', choose_line_options_setting, read_line_options in *.
    cbn [orientation orientation_setting direction_mode_setting] in *.
    destruct (String.eqb orientation_choice "1"); [now vm_compute|].
    destruct (String.eqb orientation_choice "2"); [now vm_compute|].
    destruct (String.eqb orientation_choice "3"); [now vm_compute|].
    destruct (String.eqb_spec (orientation_setting s) "horizontal")
      as [->|N1]; [now vm_compute|].
    destruct (String.eqb_spec (orientation_setting s) "vertical")
      as [->|N2]; [now vm_compute|].
    destruct (String.eqb_spec (orientation_setting s) "diagonal")
      as [->|N3]; [|contradiction].
    split; [discriminate|]. split; discriminate. }
  destruct Hor as (Ho1 & Ho2 & Ho3).
  split; [assumption|]. split; [assumption|]. split; [assumption|].
  now apply line_points_in_frame.
Qed.

Lemma line_settings_stay_valid_witness :
  (0 <= position_setting default_line_options)%Q
  /\ (position_setting default_line_options <= 1)%Q
  /\ orientation (read_line_options default_line_options)
     <> OtherOrientation
  /\ 0 <= 480 < 2 ^ 53 /\ 0 <= 640 < 2 ^ 53
  /\ choose_line_options_setting default_line_options "3"%string
       (Some (3 # 2)) EmptyString
     = mkSettings "diagonal"%string (1 # 2) "vertical"%string
  /\ in_frame 480 640
       (fst (line_points
               (read_line_options
                  (choose_line_options_setting default_line_options
                     "3"%string (Some (3 # 2)) EmptyString)) 480 640)).
Proof.
  assert (P0 : (0 <= position_setting default_line_options)%Q)
    by discriminate.
  assert (P1 : (position_setting default_line_options <= 1)%Q)
    by discriminate.
  assert (Ho : orientation (read_line_options default_line_options)
               <> OtherOrientation) by discriminate.
  assert (HH : 0 <= 480 < 2 ^ 53) by (split; [discriminate|reflexivity]).
  assert (HW : 0 <= 640 < 2 ^ 53) by (split; [discriminate|reflexivity]).
  split; [exact P0|]. split; [exact P1|]. split; [exact Ho|].
  split; [exact HH|]. split; [exact HW|]. split; [reflexivity|].
  exact (proj1 (proj2 (proj2 (proj2 (proj2 (proj2
           (line_settings_stay_valid default_line_options "3"%string
              EmptyString (Some (3 # 2)) 480 640 P0 P1 Ho HH HW))))))).
Defined.

(** ** A session and the table *)

Lemma stored_keys_incl calls :
  incl (map row_key (stored calls)) (map row_key calls).
Proof.
  induction calls as [|c calls IH] using rev_ind; [apply incl_refl|].
  rewrite stored_snoc, upsert_keys, map_app.
  destruct (existsb (same_key c) (stored calls)).
  - apply incl_appl. exact IH.
  - apply incl_app; [apply incl_appl; exact IH|apply incl_appr, incl_refl].
Qed.

Lemma stored_nodup calls : NoDup (map row_key (stored calls)).
Proof.
  induction calls as [|c calls IH] using rev_ind; [constructor|].
  rewrite stored_snoc. now apply upsert_nodup.
Qed.

(** X22. A directional session leaves at most two rows in an empty table,
    however many periodic snapshots it writes: every periodic snapshot
    overwrites the row keyed by the start of the stream function, and the
    final one is keyed by the launch time. *)
Theorem directional_session_two_rows (cfg : Config) (inp : SessionInput) :
  directional cfg = true ->
  (length (stored (fst (launch_analysis_and_flask cfg inp))) <= 2)%nat
  /\ Forall (fun r => stream_url r = rtsp_url cfg
                      /\ (session_start r = strftime (start_datetime inp)
                          \/ session_start r
                             = strftime (launch_datetime inp)))
       (stored (fst (launch_analysis_and_flask cfg inp))).
Proof.
  intros Hd.
  set (k1 := (rtsp_url cfg, strftime (start_datetime inp))).
  set (k2 := (rtsp_url cfg, strftime (launch_datetime inp))).
  assert (Hk : incl (map row_key (fst (launch_analysis_and_flask cfg inp)))
                 [k1; k2]).
  { unfold launch_analysis_and_flask. rewrite Hd.
    assert (Hp : Forall (fun r => session_start r
                                  = strftime (start_datetime inp)
                                  /\ stream_url r = rtsp_url cfg)
                   (fst (run_stream_directional cfg inp))).
    { unfold run_stream_directional.
      destruct (stream_opens inp); [|constructor].
      apply directional_loop_keys. constructor. }
    assert (Hp' : incl (map row_key (fst (run_stream_directional cfg inp)))
                    [k1; k2]).
    { intros k Hin. apply in_map_iff in Hin as (r & <- & Hr).
      rewrite Forall_forall in Hp. destruct (Hp r Hr) as [E1 E2].
      left. unfold k1, row_key. now rewrite E1, E2. }
    destruct (run_stream_directional cfg inp) as [calls [[[c1 c2] n]|]];
      simpl in Hp'; [|exact Hp'].
    destruct (orientation (line_options cfg)); simpl; rewrite map_app;
      (apply incl_app; [exact Hp'|]); intros k [<-|[]]; right; now left. }
  assert (Hs : incl (map row_key
                       (stored (fst (launch_analysis_and_flask cfg inp))))
                 [k1; k2]).
  { eapply incl_tran; [apply stored_keys_incl|exact Hk]. }
  split.
  - rewrite <- (length_map row_key).
    apply (NoDup_incl_length (stored_nodup _) Hs).
  - apply Forall_forall. intros r Hr.
    assert (H : In (row_key r) [k1; k2]) by (apply Hs; now apply in_map).
    unfold k1, k2, row_key in H.
    destruct H as [[= <- <-]|[[= <- <-]|[]]]; auto.
Qed.

Lemma directional_session_two_rows_witness :
  directional (flush_config true) = true
  /\ length (fst (launch_analysis_and_flask (flush_config true)
                    flush_input)) = 3%nat
  /\ (length (stored (fst (launch_analysis_and_flask (flush_config true)
                             flush_input))) <= 2)%nat.
Proof.
  split; [reflexivity|]. split; [vm_compute; reflexivity|].
  exact (proj1 (directional_session_two_rows (flush_config true)
                  flush_input eq_refl)).
Defined.
